(** * appleseed, foundation/math/scalar.h: scalar utilities

    A shallow embedding of the integer and floating-point helpers of
    [foundation/math/scalar.h], and the properties its specification states
    about them.

    Integers of a fixed-width type are values of [Z] with the wrap-around of
    the type written out.  [float] and [double] are the IEEE 754 binary32 and
    binary64 formats, as values of [spec_float] with the operations of
    [SpecFloat] (round to nearest, ties to even), each operation rounded in
    its own type.  What the header takes from outside the repository is
    modelled by its own definition: [std::fmod] as the exact remainder, the
    SSE conversions as the instructions behind them, [numeric_limits] as the
    extreme values of the format.

    The proofs about rounded results go through a specification of the
    rounding step of [SpecFloat] on integers (what [binary_round_aux]
    returns for a significand and an exponent) and, for the error bounds of
    the angle conversions, through the real values of the numbers. *)

From Stdlib Require Import Reals Lra ZArith Bool Lia SpecFloat.

Local Open Scope Z_scope.

(** ** Fixed-width integer types *)

Module IntTypes.

(** Modelled from the spec: [foundation/platform/types.h], which declares
    the fixed-width integer types, is not among the sources.  Following the
    spec ("32-bit and 64-bit integer widths"), [int64] and [uint64] are the
    signed and the unsigned integers of 64 bits; the other types [T] can be
    instantiated with are the signed and unsigned integers of 8, 16 and 32
    bits. *)
Inductive int_type : Set :=
  | Int8 | UInt8 | Int16 | UInt16 | Int32 | UInt32 | Int64 | UInt64.

Definition bits (ty : int_type) : Z :=
  match ty with
  | Int8 | UInt8 => 8
  | Int16 | UInt16 => 16
  | Int32 | UInt32 => 32
  | Int64 | UInt64 => 64
  end.

Definition is_signed (ty : int_type) : bool :=
  match ty with
  | Int8 | Int16 | Int32 | Int64 => true
  | UInt8 | UInt16 | UInt32 | UInt64 => false
  end.

Definition int_min (ty : int_type) : Z :=
  if is_signed ty then - 2 ^ (bits ty - 1) else 0.

Definition int_max (ty : int_type) : Z :=
  if is_signed ty then 2 ^ (bits ty - 1) - 1 else 2 ^ bits ty - 1.

Definition in_range (ty : int_type) (z : Z) : Prop :=
  int_min ty <= z <= int_max ty.

Definition in_rangeb (ty : int_type) (z : Z) : bool :=
  (int_min ty <=? z) && (z <=? int_max ty).

(** The value of type [ty] an arithmetic result [z] is stored as: reduction
    modulo [2 ^ bits ty], read as two's complement for a signed type.  For an
    unsigned type this is the language's rule; for a signed type it is what
    the result is wherever the operation does not overflow, and the
    two's-complement wrap where it does. *)
Definition wrap (ty : int_type) (z : Z) : Z :=
  if is_signed ty
  then (z + 2 ^ (bits ty - 1)) mod 2 ^ bits ty - 2 ^ (bits ty - 1)
  else z mod 2 ^ bits ty.

(** The largest power of two that [ty] can hold. *)
Definition max_pow2 (ty : int_type) : Z :=
  if is_signed ty then 2 ^ (bits ty - 2) else 2 ^ (bits ty - 1).

End IntTypes.
Export IntTypes.

(** ** Integer helpers of scalar.h *)

Module IntOps.

(** One step [x |= x >> k] on a variable of type [ty]. *)
Definition or_shr (ty : int_type) (k x : Z) : Z :=
  wrap ty (Z.lor x (Z.shiftr x k)).

(** [template <typename T> T next_pow2(T x)], the primary template. *)
Definition next_pow2_generic (ty : int_type) (x : Z) : Z :=
  let x := wrap ty (x - 1) in
  let x := or_shr ty 16 x in
  let x := or_shr ty 8 x in
  let x := or_shr ty 4 x in
  let x := or_shr ty 2 x in
  let x := or_shr ty 1 x in
  wrap ty (x + 1).

(** [template <> int64 next_pow2<int64>(int64 x)]. *)
Definition next_pow2_int64 (x : Z) : Z :=
  let x := wrap Int64 (x - 1) in
  let x := or_shr Int64 32 x in
  let x := or_shr Int64 16 x in
  let x := or_shr Int64 8 x in
  let x := or_shr Int64 4 x in
  let x := or_shr Int64 2 x in
  let x := or_shr Int64 1 x in
  wrap Int64 (x + 1).

(** [template <> uint64 next_pow2<uint64>(uint64 x)]. *)
Definition next_pow2_uint64 (x : Z) : Z :=
  let x := wrap UInt64 (x - 1) in
  let x := or_shr UInt64 32 x in
  let x := or_shr UInt64 16 x in
  let x := or_shr UInt64 8 x in
  let x := or_shr UInt64 4 x in
  let x := or_shr UInt64 2 x in
  let x := or_shr UInt64 1 x in
  wrap UInt64 (x + 1).

(** [next_pow2<T>(x)] as overload resolution picks it: the two explicit
    specializations for the 64-bit types, the primary template otherwise. *)
Definition next_pow2 (ty : int_type) (x : Z) : Z :=
  match ty with
  | Int64 => next_pow2_int64 x
  | UInt64 => next_pow2_uint64 x
  | _ => next_pow2_generic ty x
  end.

(** The type an arithmetic expression on operands of type [ty] is computed
    in: integer promotion turns a type narrower than [int] into [int], the
    32-bit and 64-bit types compute in themselves. *)
Definition promote (ty : int_type) : int_type :=
  match ty with
  | Int8 | UInt8 | Int16 | UInt16 => Int32
  | _ => ty
  end.

(** [is_pow2(x)]: [(x & (x - 1)) == 0].  The difference and the conjunction
    are not stored in a variable of type [T]: they are computed, and
    compared with zero, in the promoted type. *)
Definition is_pow2 (ty : int_type) (x : Z) : bool :=
  Z.land x (wrap (promote ty) (x - 1)) =? 0.

(** [mod(a, n)] of the primary template: [a % n] is the remainder of the
    division that truncates toward zero. *)
Definition mod_int (ty : int_type) (a n : Z) : Z :=
  let m := Z.rem a n in
  if m <? 0 then wrap ty (n + m) else m.

End IntOps.
Export IntOps.

(** ** Floating-point types *)

Module FloatTypes.

(** The two floating-point types the overloads of scalar.h are written for. *)
Inductive fp_type : Set := Float | Double.

(** Precision (bits of the significand, the implicit one included) and the
    exponent of the infinities: binary32 and binary64. *)
Definition fprec (T : fp_type) : Z :=
  match T with Float => 24 | Double => 53 end.

Definition femax (T : fp_type) : Z :=
  match T with Float => 128 | Double => 1024 end.

(** A [spec_float] is a value of [T] when its significand is in canonical
    form and its exponent within the format. *)
Definition is_float (T : fp_type) (x : spec_float) : bool :=
  valid_binary (fprec T) (femax T) x.

Definition fadd (T : fp_type) := SFadd (fprec T) (femax T).
Definition fsub (T : fp_type) := SFsub (fprec T) (femax T).
Definition fmul (T : fp_type) := SFmul (fprec T) (femax T).
Definition fdiv (T : fp_type) := SFdiv (fprec T) (femax T).

(** Conversion of a floating-point value to [T] (the identity on a value
    of [T], a rounding from [double] to [float]). *)
Definition fp_cast (T : fp_type) (x : spec_float) : spec_float :=
  match x with
  | S754_finite s m e => binary_round (fprec T) (femax T) s m e
  | _ => x
  end.

(** The value of type [T] nearest to the integer [z]. *)
Definition of_Z (T : fp_type) (z : Z) : spec_float :=
  binary_normalize (fprec T) (femax T) z 0 false.

(** The value of type [T] nearest to the fraction [n / d]: how a decimal
    literal is read ([1.0e-6f] is [of_ratio Float 1 1000000]).  Numerator and
    denominator enter the division as exact integers, so the quotient is
    rounded once. *)
Definition of_ratio (T : fp_type) (n d : positive) : spec_float :=
  fdiv T (S754_finite false n 0) (S754_finite false d 0).

Definition fzero : spec_float := S754_zero false.
Definition fone (T : fp_type) : spec_float := of_Z T 1.

(** [std::numeric_limits<T>::max()], the largest finite value. *)
Definition numeric_max (T : fp_type) : spec_float :=
  SFmax_float (fprec T) (femax T).

(** [std::numeric_limits<T>::min()], the smallest positive normal value. *)
Definition numeric_min (T : fp_type) : spec_float :=
  S754_finite false (2 ^ Z.to_pos (fprec T - 1))
              (emin (fprec T) (femax T)).

(** [std::fmod(x, y)] of the C library, for a format of precision [prec]:
    the exact remainder of [x] by [y] for the quotient truncated toward
    zero; it has the sign of [x] and a magnitude smaller than that of [y],
    and is always representable.  The remainder is taken on the two
    significands aligned to the smaller exponent. *)
Definition SFfmod (prec emax : Z) (x y : spec_float) : spec_float :=
  match x, y with
  | S754_nan, _ | _, S754_nan => S754_nan
  | S754_infinity _, _ => S754_nan
  | _, S754_zero _ => S754_nan
  | S754_zero _, _ => x
  | S754_finite _ _ _, S754_infinity _ => x
  | S754_finite sx mx ex, S754_finite sy my ey =>
      let ez := Z.min ex ey in
      let r := Z.rem (Zpos (fst (shl_align mx ex ez)))
                     (Zpos (fst (shl_align my ey ez))) in
      binary_normalize prec emax (cond_Zopp sx r) ez sx
  end.

Definition ffmod (T : fp_type) := SFfmod (fprec T) (femax T).

(** The integer part of a finite value (rounding toward zero). *)
Definition SFtrunc (x : spec_float) : option Z :=
  match x with
  | S754_zero _ => Some 0
  | S754_finite s m e => Some (cond_Zopp s (Z.shiftl (Zpos m) e))
  | S754_infinity _ | S754_nan => None
  end.

End FloatTypes.
Export FloatTypes.

(** ** Floating-point helpers of scalar.h *)

Module FloatOps.

(** [static const double Pi = 3.1415926535897932]. *)
Definition Pi : spec_float :=
  of_ratio Double 31415926535897932 10000000000000000.

(** [default_eps<float>()] is [1.0e-6f], [default_eps<double>()] is
    [1.0e-14]. *)
Definition default_eps (T : fp_type) : spec_float :=
  match T with
  | Float => of_ratio Float 1 1000000
  | Double => of_ratio Double 1 100000000000000
  end.

(** [deg_to_rad(angle)]: [angle * T(Pi / 180.0)], the constant computed in
    [double] and then converted to [T]. *)
Definition deg_to_rad (T : fp_type) (angle : spec_float) : spec_float :=
  fmul T angle (fp_cast T (fdiv Double Pi (of_Z Double 180))).

(** [rad_to_deg(angle)]: [angle * T(180.0 / Pi)]. *)
Definition rad_to_deg (T : fp_type) (angle : spec_float) : spec_float :=
  fmul T angle (fp_cast T (fdiv Double (of_Z Double 180) Pi)).

(** [static_cast<Int>(x)]: the integer part of [x] when [Int] can hold it;
    the conversion is undefined otherwise ([None]). *)
Definition static_cast_int (ty : int_type) (x : spec_float) : option Z :=
  match SFtrunc x with
  | Some z => if in_rangeb ty z then Some z else None
  | None => None
  end.

(** [_mm_cvttss_si32] and [_mm_cvttsd_si32] (the CVTTSS2SI and CVTTSD2SI
    instructions): the integer part of [x] as a 32-bit signed integer, and
    the "integer indefinite" value [0x80000000] when [x] is a NaN, an
    infinity, or its integer part does not fit. *)
Definition cvtt_si32 (x : spec_float) : Z :=
  match SFtrunc x with
  | Some z => if in_rangeb Int32 z then z else - 2 ^ 31
  | None => - 2 ^ 31
  end.

(** [truncate<Int>(x)]; [use_sse] is whether the build defines
    [APPLESEED_FOUNDATION_USE_SSE].  With it the 32-bit result of the
    instruction is converted to [Int]. *)
Definition truncate (use_sse : bool) (ty : int_type) (x : spec_float)
  : option Z :=
  if use_sse then Some (wrap ty (cvtt_si32 x))
  else static_cast_int ty x.

(** [round<Int>(x)]:
    [truncate<Int>(x < T(0.0) ? x - T(0.5) : x + T(0.5))]. *)
Definition round (use_sse : bool) (T : fp_type) (ty : int_type)
    (x : spec_float) : option Z :=
  truncate use_sse ty
    (if SFltb x fzero then fsub T x (of_ratio T 1 2)
     else fadd T x (of_ratio T 1 2)).

(** [mod(a, n)] of the [float] and [double] specializations. *)
Definition mod_fp (T : fp_type) (a n : spec_float) : spec_float :=
  let m := ffmod T a n in
  if SFltb m fzero then fadd T n m else m.

(** [smoothstep(a, b, x)]. *)
Definition smoothstep (T : fp_type) (a b x : spec_float) : spec_float :=
  if SFleb x a then fzero
  else if SFleb b x then fone T
  else
    let y := fdiv T (fsub T x a) (fsub T b a) in
    fmul T (fmul T y y) (fsub T (fsub T (of_Z T 3) y) y).

(** The two guards of [scalar_impl::feq]: "lhs/rhs overflows",
    [abs_rhs < T(1.0) && abs_lhs > abs_rhs * numeric_limits<T>::max()], and
    "lhs/rhs underflows",
    [abs_rhs > T(1.0) && abs_lhs < abs_rhs * numeric_limits<T>::min()]. *)
Definition ratio_overflows (T : fp_type) (lhs rhs : spec_float) : bool :=
  let abs_lhs := SFabs lhs in
  let abs_rhs := SFabs rhs in
  SFltb abs_rhs (fone T) && SFltb (fmul T abs_rhs (numeric_max T)) abs_lhs.

Definition ratio_underflows (T : fp_type) (lhs rhs : spec_float) : bool :=
  let abs_lhs := SFabs lhs in
  let abs_rhs := SFabs rhs in
  SFltb (fone T) abs_rhs && SFltb abs_lhs (fmul T abs_rhs (numeric_min T)).

(** [scalar_impl::feq<T>(lhs, rhs, eps)]. *)
Definition feq (T : fp_type) (lhs rhs eps : spec_float) : bool :=
  if SFeqb lhs fzero then SFltb (SFabs rhs) eps
  else if SFeqb rhs fzero then SFltb (SFabs lhs) eps
  else if ratio_overflows T lhs rhs then false
  else if ratio_underflows T lhs rhs then false
  else SFltb (fsub T (fone T) eps) (fdiv T lhs rhs)
       && SFltb (fdiv T lhs rhs) (fadd T (fone T) eps).

(** [fz(x, eps)] of the [float] and [double] overloads. *)
Definition fz (x eps : spec_float) : bool := SFltb (SFabs x) eps.

End FloatOps.
Export FloatOps.

(** ** Predicates of the specification *)

Module Predicates.

(** A number is a power of two when it is [2 ^ k] for a natural [k]. *)
Definition power_of_two (x : Z) : Prop := exists k, 0 <= k /\ x = 2 ^ k.

(** [smeared d h x]: no bit of [x] is set above position [h], and every
    position at a multiple of [d] below [h] is set. *)
Definition smeared (d h x : Z) : Prop :=
  (forall i, h < i -> Z.testbit x i = false) /\
  (forall j, 0 <= j -> j * d <= h -> Z.testbit x (h - j * d) = true).

(** [SFcompare] orders the values that are not NaN: first the sign class,
    then exponent and significand.  The order is transitive on every
    [spec_float], canonical or not. *)
Definition SFkey (x : spec_float) : option (Z * Z * Z) :=
  match x with
  | S754_nan => None
  | S754_infinity true => Some (-2, 0, 0)
  | S754_finite true m e => Some (-1, - e, Zneg m)
  | S754_zero _ => Some (0, 0, 0)
  | S754_finite false m e => Some (1, e, Zpos m)
  | S754_infinity false => Some (2, 0, 0)
  end.

Definition key_compare (a b : Z * Z * Z) : comparison :=
  let '(a1, a2, a3) := a in
  let '(b1, b2, b3) := b in
  match a1 ?= b1 with
  | Eq => match a2 ?= b2 with Eq => a3 ?= b3 | c => c end
  | c => c
  end.

(** Zeros and finite numbers, as opposed to infinities and NaN. *)
Definition is_finite (x : spec_float) : bool :=
  match x with
  | S754_zero _ | S754_finite _ _ _ => true
  | S754_infinity _ | S754_nan => false
  end.

(** [x] lies half-way between the integers of magnitude [k] and [k + 1]:
    its magnitude is [k + 1/2]. *)
Definition half_way (x : spec_float) (k : Z) : Prop :=
  match x with
  | S754_finite _ m e =>
      e < 0 /\ 0 <= k /\ Zpos m = (2 * k + 1) * 2 ^ (- e - 1)
  | _ => False
  end.

(** Of the two integers around a number of magnitude [k + 1/2], the one
    farther from zero. *)
Definition away_from_zero (x : spec_float) (k : Z) : Z :=
  match x with
  | S754_finite true _ _ => - (k + 1)
  | _ => k + 1
  end.

(** [x] carries the sign bit [s], or is a NaN. *)
Definition sign_or_nan (s : bool) (x : spec_float) : Prop :=
  match x with
  | S754_nan => True
  | S754_zero s' | S754_infinity s' | S754_finite s' _ _ => s' = s
  end.

(** [x] is not below zero: a zero of either sign, a positive number, or a
    NaN. *)
Definition not_negative (x : spec_float) : Prop :=
  match x with
  | S754_infinity true | S754_finite true _ _ => False
  | _ => True
  end.

(** The sign of a number that is neither zero nor NaN. *)
Definition SFsign (x : spec_float) : option bool :=
  match x with
  | S754_infinity s | S754_finite s _ _ => Some s
  | S754_zero _ | S754_nan => None
  end.

(** What [binary_round_aux] returns for the rounded significand [m2] at
    exponent [e1]: a zero, or the canonical form of [m2 * 2^e1], replaced by
    an infinity when its exponent exceeds the format. *)
Definition round_outcome (prec emax : Z) (s : bool) (m2 e1 : Z)
    (r : spec_float) : Prop :=
  (m2 = 0 /\ r = S754_zero s) \/
  exists (m3 : positive) (e3 : Z),
    e1 <= e3 /\ Zpos m3 * 2 ^ (e3 - e1) = m2 /\
    canonical_mantissa prec emax m3 e3 = true /\
    r = if e3 <=? emax - prec then S754_finite s m3 e3
        else S754_infinity s.

(** [bpow2 e] is [2^e] for an integer exponent. *)
Definition bpow2 (e : Z) : R := powerRZ 2 e.

(** The real number [m * 2^e]. *)
Definition F2R (m e : Z) : R := (IZR m * bpow2 e)%R.

(** [v] is within the relative distance [2^(1-prec)] of the positive real
    [X]. *)
Definition rel_close (prec : Z) (v X : R) : Prop :=
  ((1 - bpow2 (1 - prec)) * X <= v <= (1 + bpow2 (1 - prec)) * X)%R.

(** The arguments on which the round trips are claimed: the zeros, and
    the values of [T] of magnitude at least [2^(emin + prec + 5)] and below
    [2^(emax - 7)], that is from [2^-1016] to [2^1017] in [double] and from
    [2^-120] to [2^121] in [float]. *)
Definition round_trip_min (T : fp_type) : spec_float :=
  S754_finite false (2 ^ Z.to_pos (fprec T - 1))
              (emin (fprec T) (femax T) + 6).

Definition round_trip_sup (T : fp_type) : spec_float :=
  S754_finite false (2 ^ Z.to_pos (fprec T - 1)) (femax T - fprec T - 6).

Definition in_round_trip_range (T : fp_type) (x : spec_float) : bool :=
  is_float T x
  && (SFeqb x fzero
      || (SFleb (round_trip_min T) (SFabs x)
          && SFltb (SFabs x) (round_trip_sup T))).

End Predicates.
Export Predicates.

(** ** Integer arithmetic of scalar.h *)

Module IntArith.

(** [abs(x)] on an integer type: [x < T(0) ? -x : x]. *)
Definition abs_int (ty : int_type) (x : Z) : Z :=
  if x <? 0 then wrap ty (- x) else x.

(** [static_pow_int<X, P>::value]:
    [X * static_pow_int<X, P - 1>::value], and [1] for [P = 0]; the values
    are of type [int].  The member is a constant expression: where a
    product does not fit an [int] the initializer is not a constant
    expression and the instantiation is rejected by the compiler, so there
    is no value ([None]). *)
Fixpoint static_pow_int (X : Z) (P : nat) : option Z :=
  match P with
  | O => Some 1
  | S P' =>
      match static_pow_int X P' with
      | Some v => if in_rangeb Int32 (X * v) then Some (X * v) else None
      | None => None
      end
  end.

(** [pow_int(x, p)]: [T y = 1; while (p--) y *= x; return y;].  The loop
    counts [p] down to zero; [y] is the variable of the loop. *)
Fixpoint pow_int_loop (ty : int_type) (x : Z) (p : nat) (y : Z) : Z :=
  match p with
  | O => y
  | S p' => pow_int_loop ty x p' (wrap ty (y * x))
  end.

Definition pow_int (ty : int_type) (x : Z) (p : nat) : Z :=
  pow_int_loop ty x p 1.

(** [log2(x)]: [T n = 0; while (x >>= 1) ++n; return n;].  [fuel] bounds
    the number of times the condition of the loop is evaluated; [None] is a
    loop still running when the fuel is spent.  The function starts with
    [assert(x > 0)]: this is the body that runs once the assertion has
    passed, and the properties of [log2] are stated for [0 < x]. *)
Fixpoint log2_loop (ty : int_type) (fuel : nat) (x n : Z) : option Z :=
  match fuel with
  | O => None
  | S fuel' =>
      let x' := wrap ty (Z.shiftr x 1) in
      if x' =? 0 then Some n
      else log2_loop ty fuel' x' (wrap ty (n + 1))
  end.

Definition log2 (ty : int_type) (fuel : nat) (x : Z) : option Z :=
  log2_loop ty fuel x 0.

(** [factorial(x)]:
    [T fac = 1; while (x > 1) { fac *= x; --x; } return fac;], with the same
    reading of [fuel].  The function starts with [assert(x >= 0)]: this is
    the body that runs once the assertion has passed, and the properties of
    [factorial] are stated for [0 <= x]. *)
Fixpoint factorial_loop (ty : int_type) (fuel : nat) (fac x : Z)
  : option Z :=
  match fuel with
  | O => None
  | S fuel' =>
      if 1 <? x
      then factorial_loop ty fuel' (wrap ty (fac * x)) (wrap ty (x - 1))
      else Some fac
  end.

Definition factorial (ty : int_type) (fuel : nat) (x : Z) : option Z :=
  factorial_loop ty fuel 1 x.

(** [clamp(x, min, max)] on an integer type:
    [x <= min ? min : x >= max ? max : x]. *)
Definition clamp_int (x min max : Z) : Z :=
  if x <=? min then min else if x >=? max then max else x.

End IntArith.
Export IntArith.


(** ** Further floating-point helpers of scalar.h *)

Module FloatArith.

(** [static const double TwoPi = 6.2831853071795865]. *)
Definition TwoPi : spec_float :=
  of_ratio Double 62831853071795865 10000000000000000.

(** [abs(x)] on a floating-point type: [x < T(0) ? -x : x]. *)
Definition abs_fp (x : spec_float) : spec_float :=
  if SFltb x fzero then SFopp x else x.

(** [square(x)]: [x * x]. *)
Definition square_fp (T : fp_type) (x : spec_float) : spec_float :=
  fmul T x x.

(** [pow_int(x, p)] on a floating-point type. *)
Fixpoint pow_fp_loop (T : fp_type) (x : spec_float) (p : nat)
    (y : spec_float) : spec_float :=
  match p with
  | O => y
  | S p' => pow_fp_loop T x p' (fmul T y x)
  end.

Definition pow_fp (T : fp_type) (x : spec_float) (p : nat) : spec_float :=
  pow_fp_loop T x p (fone T).

(** [clamp(x, min, max)] on a floating-point type. *)
Definition clamp_fp (x min max : spec_float) : spec_float :=
  if SFleb x min then min else if SFleb max x then max else x.

(** [saturate(x)]:
    [x <= T(0.0) ? T(0.0) : x >= T(1.0) ? T(1.0) : x]. *)
Definition saturate (T : fp_type) (x : spec_float) : spec_float :=
  if SFleb x fzero then fzero
  else if SFleb (fone T) x then fone T
  else x.

(** [wrap(x)]:
    [const T y = std::fmod(x, T(1.0)); return y < T(0.0) ? y + T(1.0) : y;]. *)
Definition wrap_fp (T : fp_type) (x : spec_float) : spec_float :=
  let y := ffmod T x (fone T) in
  if SFltb y fzero then fadd T y (fone T) else y.

(** [normalize_angle(angle)]:
    [const T a = std::fmod(angle, T(TwoPi));
     return a < T(0.0) ? a + T(TwoPi) : a;]. *)
Definition normalize_angle (T : fp_type) (angle : spec_float) : spec_float :=
  let a := ffmod T angle (fp_cast T TwoPi) in
  if SFltb a fzero then fadd T a (fp_cast T TwoPi) else a.

(** [linearstep(a, b, x)]:
    [x <= a ? T(0.0) : x >= b ? T(1.0) : (x - a) / (b - a)]. *)
Definition linearstep (T : fp_type) (a b x : spec_float) : spec_float :=
  if SFleb x a then fzero
  else if SFleb b x then fone T
  else fdiv T (fsub T x a) (fsub T b a).

(** [lerp(a, b, x)]: [(U(1.0) - x) * a + x * b], for [a], [b] and [x] of
    the same floating-point type. *)
Definition lerp (T : fp_type) (a b x : spec_float) : spec_float :=
  fadd T (fmul T (fsub T (fone T) x) a) (fmul T x b).

(** [mix(a, b, x)]:
    [x <= U(0.0) ? a : x >= U(1.0) ? b : lerp(a, b, x)]. *)
Definition mix (T : fp_type) (a b x : spec_float) : spec_float :=
  if SFleb x fzero then a
  else if SFleb (fone T) x then b
  else lerp T a b x.

(** [fit(x, min_x, max_x, min_y, max_y)]:
    [const T k = (x - min_x) / (max_x - min_x);
     return min_y * (T(1.0) - k) + max_y * k;].  The function starts with
    [assert(min_x != max_x)] and [assert(min_y != max_y)]: this is the body
    that runs once both have passed, and the properties of [fit] are stated
    under both. *)
Definition fit (T : fp_type) (x min_x max_x min_y max_y : spec_float)
  : spec_float :=
  let k := fdiv T (fsub T x min_x) (fsub T max_x min_x) in
  fadd T (fmul T min_y (fsub T (fone T) k)) (fmul T max_y k).

End FloatArith.
Export FloatArith.

(** ** Further predicates *)

Module MorePredicates.

(** The factorial of a natural number, as an integer. *)
Fixpoint Zfact (n : nat) : Z :=
  match n with
  | O => 1
  | S k => Z.of_nat (S k) * Zfact k
  end.

Definition is_nan (x : spec_float) : bool :=
  match x with S754_nan => true | _ => false end.

(** [std::numeric_limits<T>::epsilon()]: the distance from 1 to the next
    value of the type, [2^(1 - prec)]. *)
Definition float_epsilon (T : fp_type) : spec_float :=
  S754_finite false (2 ^ Z.to_pos (fprec T - 1)) (2 - 2 * fprec T).

End MorePredicates.
Export MorePredicates.

(** * Properties *)

(** ** Integers *)

Section IntFacts.

Lemma wrap_small (ty : int_type) (z : Z) :
  in_range ty z -> wrap ty z = z.
Proof.
  unfold in_range, wrap, int_min, int_max.
  destruct ty; cbn [is_signed bits]; intros H;
    rewrite Z.mod_small; lia.
Qed.

Lemma max_pow2_in_range (ty : int_type) (z : Z) :
  0 <= z <= max_pow2 ty -> in_range ty z.
Proof.
  unfold in_range, max_pow2, int_min, int_max.
  destruct ty; cbn [is_signed bits]; lia.
Qed.

Lemma in_range_promote (ty : int_type) (z : Z) :
  in_range ty z -> in_range (promote ty) z.
Proof.
  unfold in_range, int_min, int_max.
  destruct ty; cbn [promote is_signed bits]; lia.
Qed.

Lemma max_pow2_eq (ty : int_type) :
  max_pow2 ty = 2 ^ Z.log2 (max_pow2 ty) /\ 0 <= Z.log2 (max_pow2 ty) < bits ty.
Proof. destruct ty; vm_compute; repeat split; discriminate. Qed.

(** *** Bit smearing *)

Lemma smeared_init (d x : Z) :
  0 < x < 2 ^ d -> smeared d (Z.log2 x) x.
Proof.
  intros [Hx Hd]. split.
  - intros i Hi. apply Z.bits_above_log2; lia.
  - intros j Hj Hjd.
    assert (Z.log2 x < d) by (apply Z.log2_lt_pow2; lia).
    pose proof (Z.log2_nonneg x).
    assert (j = 0) by nia. subst j.
    rewrite Z.mul_0_l, Z.sub_0_r. apply Z.bit_log2; lia.
Qed.

Lemma smeared_step (k h x : Z) :
  0 < k -> 0 <= h -> smeared (2 * k) h x ->
  smeared k h (Z.lor x (Z.shiftr x k)).
Proof.
  intros Hk Hh [Hhigh Hset]. split.
  - intros i Hi. rewrite Z.lor_spec, Z.shiftr_spec by lia.
    rewrite !Hhigh by lia. reflexivity.
  - intros j Hj Hjk. rewrite Z.lor_spec, Z.shiftr_spec by lia.
    destruct (Z.even j) eqn:Ej.
    + apply Z.even_spec in Ej. destruct Ej as [j' ->].
      replace (h - 2 * j' * k) with (h - j' * (2 * k)) by lia.
      rewrite Hset by lia. reflexivity.
    + assert (Oj : Z.odd j = true) by (rewrite <- Z.negb_even, Ej; reflexivity).
      apply Z.odd_spec in Oj. destruct Oj as [j' ->].
      replace (h - (2 * j' + 1) * k + k) with (h - j' * (2 * k)) by lia.
      rewrite (Hset j') by lia. apply orb_true_r.
Qed.

Lemma smeared_ones (h x : Z) :
  0 <= h -> smeared 1 h x -> x = 2 ^ (h + 1) - 1.
Proof.
  intros Hh [Hhigh Hset].
  replace (2 ^ (h + 1) - 1) with (Z.ones (h + 1))
    by (rewrite Z.ones_equiv; lia).
  apply Z.bits_inj'. intros i Hi.
  destruct (Z_le_gt_dec i h) as [Hle | Hgt].
  - rewrite Z.ones_spec_low by lia.
    replace i with (h - (h - i) * 1) by lia. apply Hset; lia.
  - rewrite Z.ones_spec_high by lia. apply Hhigh; lia.
Qed.

Lemma smeared_bound (d h x : Z) :
  0 <= h -> 0 < d -> smeared d h x -> 0 <= x < 2 ^ (h + 1).
Proof.
  intros Hh Hd [Hhigh Hset].
  assert (Hnn : 0 <= x).
  { destruct (Z_lt_le_dec x 0) as [Hneg | ]; [ | assumption ].
    destruct (proj1 (Z.bits_iff_neg_ex x) Hneg) as [k Hk].
    specialize (Hk (Z.max (k + 1) (h + 1)) ltac:(lia)).
    rewrite Hhigh in Hk by lia. discriminate. }
  split; [ assumption | ].
  destruct (Z.eq_dec x 0) as [-> | Hx0].
  - apply Z.pow_pos_nonneg; lia.
  - apply Z.log2_lt_pow2; [ lia | ].
    destruct (Z_lt_le_dec (Z.log2 x) (h + 1)) as [ | Hge ]; [ assumption | ].
    assert (Hb : Z.testbit x (Z.log2 x) = true) by (apply Z.bit_log2; lia).
    rewrite Hhigh in Hb by lia. discriminate.
Qed.

Lemma or_shr_smeared (ty : int_type) (k h x : Z) :
  0 < k -> 0 <= h -> 2 ^ (h + 1) <= max_pow2 ty ->
  smeared (2 * k) h x -> smeared k h (or_shr ty k x).
Proof.
  intros Hk Hh Hfit Hx. unfold or_shr.
  pose proof (smeared_step k h x Hk Hh Hx) as Hs.
  rewrite wrap_small; [ assumption | ].
  apply max_pow2_in_range.
  pose proof (smeared_bound k h _ Hh Hk Hs). lia.
Qed.

Lemma log2_pred_fits (ty : int_type) (x : Z) :
  1 < x <= max_pow2 ty ->
  0 <= Z.log2 (x - 1) /\ 2 ^ (Z.log2 (x - 1) + 1) <= max_pow2 ty.
Proof.
  intros Hx. destruct (max_pow2_eq ty) as [Hm Hb].
  split; [ apply Z.log2_nonneg | ].
  rewrite Hm. apply Z.pow_le_mono_r; [ lia | ].
  assert (Z.log2 (x - 1) < Z.log2 (max_pow2 ty)); [ | lia ].
  apply Z.log2_lt_pow2; lia.
Qed.

(** Both the five-step smear of the primary template (on a type of at most
    32 bits) and the six-step smear of the 64-bit specializations turn [x - 1]
    into the number with all bits set up to its highest one. *)
Lemma next_pow2_value (ty : int_type) (x : Z) :
  0 < x <= max_pow2 ty -> next_pow2 ty x = 2 ^ Z.log2_up x.
Proof.
  intros Hx.
  destruct (Z.eq_dec x 1) as [-> | Hx1].
  - destruct ty; reflexivity.
  - assert (Hx' : 1 < x <= max_pow2 ty) by lia.
    destruct (log2_pred_fits ty x Hx') as [Hh Hfit].
    assert (Hup : Z.log2_up x = Z.log2 (x - 1) + 1).
    { unfold Z.log2_up. destruct (Z.compare_spec 1 x); try lia.
      rewrite <- Z.sub_1_r. lia. }
    rewrite Hup.
    assert (Hw : wrap ty (x - 1) = x - 1)
      by (apply wrap_small, max_pow2_in_range; lia).
    assert (Hend : forall y, smeared 1 (Z.log2 (x - 1)) y ->
                     wrap ty (y + 1) = 2 ^ (Z.log2 (x - 1) + 1)).
    { intros y Hy. rewrite (smeared_ones _ _ Hh Hy).
      rewrite wrap_small; [ lia | ].
      apply max_pow2_in_range. lia. }
    assert (Hstart : forall d, 2 ^ d >= max_pow2 ty ->
                       smeared d (Z.log2 (x - 1)) (x - 1))
      by (intros d Hd; apply smeared_init; lia).
    destruct ty;
      cbv beta delta [next_pow2 next_pow2_generic next_pow2_int64
                      next_pow2_uint64] iota zeta;
      rewrite Hw; apply Hend;
      repeat (apply or_shr_smeared; [ lia | exact Hh | exact Hfit | ]);
      apply Hstart; vm_compute; discriminate.
Qed.

Lemma land_pow2_pred (k : Z) : 0 <= k -> Z.land (2 ^ k) (2 ^ k - 1) = 0.
Proof.
  intros Hk.
  replace (2 ^ k - 1) with (Z.ones k) by (rewrite Z.ones_equiv; lia).
  rewrite Z.land_ones by assumption. apply Z.mod_same.
  pose proof (Z.pow_pos_nonneg 2 k). lia.
Qed.

Lemma is_pow2_pow2 (ty : int_type) (k : Z) :
  0 <= k -> 2 ^ k <= max_pow2 ty -> is_pow2 ty (2 ^ k) = true.
Proof.
  intros Hk Hfit. unfold is_pow2.
  pose proof (Z.pow_pos_nonneg 2 k ltac:(lia) Hk).
  rewrite wrap_small by (apply in_range_promote, max_pow2_in_range; lia).
  rewrite land_pow2_pred by assumption. reflexivity.
Qed.

End IntFacts.

(** ** Power-of-two helpers *)

(** C9.  [is_pow2(0)] is [true] for every integer type: the test
    [(x & (x - 1)) == 0] succeeds at zero. *)
Theorem is_pow2_zero : forall ty : int_type, is_pow2 ty 0 = true.
Proof. intros ty; destruct ty; reflexivity. Qed.

(** C3, as stated, fails where the next power of two does not fit the type:
    for the 32-bit unsigned instance at [2^31 + 1] and the 64-bit unsigned
    specialization at [2^63 + 1] the increment wraps to [0], which is smaller
    than the argument. *)
Lemma next_pow2_wraps_to_zero :
  0 < 2147483649 /\ in_range UInt32 2147483649 /\
  next_pow2 UInt32 2147483649 = 0 /\
  ~ (2147483649 <= next_pow2 UInt32 2147483649) /\
  0 < 9223372036854775809 /\ in_range UInt64 9223372036854775809 /\
  next_pow2 UInt64 9223372036854775809 = 0 /\
  ~ (9223372036854775809 <= next_pow2 UInt64 9223372036854775809).
Proof. vm_compute. intuition congruence. Qed.

(** C3, amended.  For every [x] with [0 < x <= max_pow2 ty] (the largest
    power of two the type holds), [next_pow2 x] is a power of two accepted
    by [is_pow2], is at least [x], is below [2 * x] when [x] is not a power
    of two, and is [x] when [x] is one; it is the smallest power of two
    that is at least [x]. *)
Theorem next_pow2_correct :
  forall (ty : int_type) (x : Z),
    0 < x <= max_pow2 ty ->
    is_pow2 ty (next_pow2 ty x) = true /\
    power_of_two (next_pow2 ty x) /\
    x <= next_pow2 ty x /\
    (~ power_of_two x -> next_pow2 ty x < 2 * x) /\
    (power_of_two x -> next_pow2 ty x = x) /\
    (forall k, 0 <= k -> x <= 2 ^ k -> next_pow2 ty x <= 2 ^ k).
Proof.
  intros ty x Hx. rewrite (next_pow2_value ty x Hx).
  pose proof (Z.log2_up_nonneg x) as Hnn.
  assert (Hle : x <= 2 ^ Z.log2_up x).
  { destruct (Z.eq_dec x 1) as [-> | ]; [ vm_compute; discriminate | ].
    apply (Z.log2_up_spec x); lia. }
  assert (Hlt : 2 ^ Z.log2_up x < 2 * x).
  { destruct (Z.eq_dec x 1) as [-> | ]; [ reflexivity | ].
    pose proof (Z.log2_up_spec x ltac:(lia)) as [Hlo _].
    replace (Z.log2_up x) with (Z.succ (Z.pred (Z.log2_up x))) by lia.
    rewrite Z.pow_succ_r; [ lia | ].
    assert (0 < Z.log2_up x) by (apply Z.log2_up_pos; lia). lia. }
  assert (Hfit : 2 ^ Z.log2_up x <= max_pow2 ty).
  { destruct (max_pow2_eq ty) as [Hm Hb]. rewrite Hm.
    apply Z.pow_le_mono_r; [ lia | ].
    rewrite <- (Z.log2_up_pow2 (Z.log2 (max_pow2 ty))) by lia.
    apply Z.log2_up_le_mono. lia. }
  repeat split.
  - apply is_pow2_pow2; assumption.
  - exists (Z.log2_up x). split; [ assumption | reflexivity ].
  - assumption.
  - intros _. assumption.
  - intros [k [Hk ->]]. rewrite Z.log2_up_pow2 by assumption. reflexivity.
  - intros k Hk Hxk. apply Z.pow_le_mono_r; [ lia | ].
    apply Z.log2_up_le_pow2; lia.
Qed.

(** The amended C3 at [x = 5] in [int]: the result is [8]. *)
Lemma next_pow2_correct_witness :
  0 < 5 <= max_pow2 Int32 /\
  next_pow2 Int32 5 = 8 /\
  is_pow2 Int32 (next_pow2 Int32 5) = true /\
  5 <= next_pow2 Int32 5.
Proof.
  assert (H : 0 < 5 <= max_pow2 Int32) by (vm_compute; split; congruence).
  split; [ exact H | ].
  split; [ reflexivity | ].
  pose proof (next_pow2_correct Int32 5 H) as [H1 [_ [H2 _]]].
  split; assumption.
Defined.

(** ** Floating-point comparisons *)

Section CompareFacts.

Lemma SFeqb_zero_inv (x : spec_float) :
  SFeqb x fzero = true -> exists s, x = S754_zero s.
Proof.
  destruct x as [s | s | | s m e]; cbn; try discriminate.
  - intros _. exists s. reflexivity.
  - destruct s; discriminate.
  - destruct s; discriminate.
Qed.

Lemma SFcompare_finite_pos (m1 m2 : positive) (e1 e2 : Z) :
  SFcompare (S754_finite false m1 e1) (S754_finite false m2 e2)
  = Some (match e1 ?= e2 with
          | Eq => Pos.compare m1 m2
          | c => c
          end).
Proof.
  cbn. unfold Pos.compare. destruct (e1 ?= e2); reflexivity.
Qed.

Lemma SFcompare_key (x y : spec_float) :
  SFcompare x y =
  match SFkey x, SFkey y with
  | Some a, Some b => Some (key_compare a b)
  | _, _ => None
  end.
Proof.
  destruct x as [sx | sx | | sx mx ex], y as [sy | sy | | sy my ey];
    try destruct sx; try destruct sy; try reflexivity.
  - cbn. rewrite Z.compare_opp, (Z.compare_antisym ex ey).
    destruct (ex ?= ey); reflexivity.
Qed.

Lemma key_compare_Lt (a b : Z * Z * Z) :
  key_compare a b = Lt <->
  let '(a1, a2, a3) := a in
  let '(b1, b2, b3) := b in
  a1 < b1 \/ (a1 = b1 /\ (a2 < b2 \/ (a2 = b2 /\ a3 < b3))).
Proof.
  destruct a as [[a1 a2] a3], b as [[b1 b2] b3]. unfold key_compare.
  destruct (Z.compare_spec a1 b1), (Z.compare_spec a2 b2),
    (Z.compare_spec a3 b3); split; intros Hc; try discriminate;
    try reflexivity; try lia.
Qed.

Lemma key_compare_Gt (a b : Z * Z * Z) :
  key_compare a b = Gt <-> key_compare b a = Lt.
Proof.
  destruct a as [[a1 a2] a3], b as [[b1 b2] b3]. unfold key_compare.
  rewrite (Z.compare_antisym a1 b1), (Z.compare_antisym a2 b2),
    (Z.compare_antisym a3 b3).
  destruct (a1 ?= b1), (a2 ?= b2), (a3 ?= b3); cbn; split; congruence.
Qed.

(** [a < b] and [b <= x] leave no room for [x <= a]. *)
Lemma SFltb_SFleb_trans (a b x : spec_float) :
  SFltb a b = true -> SFleb b x = true -> SFleb x a = false.
Proof.
  unfold SFltb, SFleb. rewrite !SFcompare_key.
  destruct (SFkey a) as [ka | ], (SFkey b) as [kb | ], (SFkey x) as [kx | ];
    try discriminate; try reflexivity.
  intros Hab Hbx.
  assert (Hab' : key_compare ka kb = Lt)
    by (destruct (key_compare ka kb); congruence).
  assert (Hxb : key_compare kx kb <> Lt).
  { intros Hc. apply key_compare_Gt in Hc.
    rewrite Hc in Hbx. discriminate. }
  assert (Hxa : key_compare kx ka = Gt).
  { apply key_compare_Gt. apply key_compare_Lt.
    apply key_compare_Lt in Hab'.
    rewrite key_compare_Lt in Hxb.
    destruct ka as [[a1 a2] a3], kb as [[b1 b2] b3], kx as [[x1 x2] x3].
    lia. }
  rewrite Hxa. reflexivity.
Qed.

End CompareFacts.

(** ** Approximate equality *)

(** C1.  [feq(lhs, rhs, eps)] is [|rhs| < eps] when [lhs] is zero, is
    [|lhs| < eps] when [rhs] is zero, and, when neither is zero and neither
    guard on the ratio fires, holds exactly when [lhs / rhs] is strictly
    between [1 - eps] and [1 + eps]; [feq(0.0, 1e-10, 1e-6)] holds and
    [feq(1.0, 2.0, 1e-6)] does not, in [double] and in [float];
    [feq(1.0, 1.0 + 1e-15, default_eps<double>())] holds. *)
Theorem feq_spec :
  (forall (T : fp_type) (lhs rhs eps : spec_float),
     (SFeqb lhs fzero = true ->
      feq T lhs rhs eps = SFltb (SFabs rhs) eps) /\
     (SFeqb rhs fzero = true ->
      feq T lhs rhs eps = SFltb (SFabs lhs) eps) /\
     (SFeqb lhs fzero = false -> SFeqb rhs fzero = false ->
      ratio_overflows T lhs rhs = false ->
      ratio_underflows T lhs rhs = false ->
      (feq T lhs rhs eps = true <->
       SFltb (fsub T (fone T) eps) (fdiv T lhs rhs) = true /\
       SFltb (fdiv T lhs rhs) (fadd T (fone T) eps) = true))) /\
  (forall T : fp_type,
     feq T fzero (of_ratio T 1 10000000000) (of_ratio T 1 1000000) = true /\
     feq T (fone T) (of_Z T 2) (of_ratio T 1 1000000) = false) /\
  feq Double (fone Double)
      (fadd Double (fone Double) (of_ratio Double 1 1000000000000000))
      (default_eps Double) = true.
Proof.
  split.
  - intros T lhs rhs eps. unfold feq. split; [ | split ].
    + intros ->. reflexivity.
    + intros Hr. destruct (SFeqb lhs fzero) eqn:Hl.
      * apply SFeqb_zero_inv in Hl. apply SFeqb_zero_inv in Hr.
        destruct Hl as [sl ->], Hr as [sr ->]. reflexivity.
      * rewrite Hr. reflexivity.
    + intros -> -> -> ->. apply andb_true_iff.
  - split; [ | reflexivity ].
    intros T; destruct T; vm_compute; split; reflexivity.
Qed.

(** C2.  For nonzero operands, when the "ratio overflows" guard or the
    "ratio underflows" guard holds, [feq] answers [false]. *)
Theorem feq_guard_false :
  forall (T : fp_type) (lhs rhs eps : spec_float),
    SFeqb lhs fzero = false -> SFeqb rhs fzero = false ->
    ratio_overflows T lhs rhs = true \/ ratio_underflows T lhs rhs = true ->
    feq T lhs rhs eps = false.
Proof.
  intros T lhs rhs eps Hl Hr Hg. unfold feq. rewrite Hl, Hr.
  destruct (ratio_overflows T lhs rhs); [ reflexivity | ].
  destruct Hg as [Hg | Hg]; [ discriminate | ].
  rewrite Hg. reflexivity.
Qed.

(** The guards of C2 fire on [max / min] (overflow) and on [min / max]
    (underflow), in [double]. *)
Lemma feq_guard_false_witness :
  ratio_overflows Double (numeric_max Double) (numeric_min Double) = true /\
  ratio_underflows Double (numeric_min Double) (numeric_max Double) = true /\
  feq Double (numeric_max Double) (numeric_min Double) (default_eps Double)
  = false /\
  feq Double (numeric_min Double) (numeric_max Double) (default_eps Double)
  = false.
Proof.
  split; [ reflexivity | ]. split; [ reflexivity | ]. split.
  - apply (feq_guard_false Double); [ reflexivity | reflexivity | ].
    left; reflexivity.
  - apply (feq_guard_false Double); [ reflexivity | reflexivity | ].
    right; reflexivity.
Defined.

(** ** Truncation and rounding *)

(** C6.  The two paths of [truncate<Int>] differ on [3.0e9f] with a 64-bit
    target: the plain cast gives [3000000000], the SSE path converts through
    a 32-bit integer and gives [-2147483648]. *)
Theorem truncate_sse_differs :
  is_float Float (of_Z Float 3000000000) = true /\
  SFtrunc (of_Z Float 3000000000) = Some 3000000000 /\
  truncate false Int64 (of_Z Float 3000000000) = Some 3000000000 /\
  truncate true Int64 (of_Z Float 3000000000) = Some (-2147483648) /\
  truncate false UInt32 (of_Z Double 3000000000) = Some 3000000000 /\
  truncate true UInt32 (of_Z Double 3000000000) = Some 2147483648.
Proof. vm_compute. repeat split; reflexivity. Qed.

(** Where the integer part of [x] fits both a 32-bit signed integer and the
    target type, the two paths of [truncate<Int>] agree. *)
Lemma truncate_paths_agree (ty : int_type) (x : spec_float) (z : Z) :
  SFtrunc x = Some z -> in_range Int32 z -> in_range ty z ->
  truncate true ty x = truncate false ty x.
Proof.
  intros Hx H32 Hty. unfold truncate, cvtt_si32, static_cast_int.
  rewrite Hx. unfold in_rangeb.
  destruct H32 as [H32a H32b], Hty as [Htya Htyb].
  rewrite (proj2 (Z.leb_le _ _) H32a), (proj2 (Z.leb_le _ _) H32b),
    (proj2 (Z.leb_le _ _) Htya), (proj2 (Z.leb_le _ _) Htyb).
  cbn [andb]. rewrite wrap_small by (split; assumption). reflexivity.
Qed.

(** The two paths agree on [truncate<int>(-7.5)], which is [-7]. *)
Lemma truncate_paths_agree_witness :
  truncate true Int32 (SFopp (of_ratio Double 15 2)) = Some (-7) /\
  truncate true Int32 (SFopp (of_ratio Double 15 2))
  = truncate false Int32 (SFopp (of_ratio Double 15 2)).
Proof.
  split; [ reflexivity | ].
  apply (truncate_paths_agree Int32 (SFopp (of_ratio Double 15 2)) (-7)).
  - reflexivity.
  - vm_compute. split; discriminate.
  - vm_compute. split; discriminate.
Defined.

Lemma SFleb_zero_not_ltb (x : spec_float) :
  SFleb fzero x = true -> SFltb x fzero = false.
Proof.
  destruct x as [s | s | | s m e]; try destruct s; cbn; congruence.
Qed.

(** ** Smooth step *)

(** C7, as stated, fails in the last bit: at [x = 5 * 2^-54] between
    [a = 0] and [b = 1] the function returns [y * y * (3 - y - y)], which in
    [double] differs from [y * y * (3 - 2 * y)]. *)
Lemma smoothstep_differs_from_3_minus_2y :
  let x := S754_finite false 5629499534213120 (-104) in
  let y := fdiv Double (fsub Double x fzero)
                (fsub Double (fone Double) fzero) in
  is_float Double x = true /\
  SFltb fzero (fone Double) = true /\
  SFleb x fzero = false /\ SFleb (fone Double) x = false /\
  smoothstep Double fzero (fone Double) x
  = S754_finite false 5277655813324798 (-154) /\
  fmul Double (fmul Double y y)
       (fsub Double (of_Z Double 3) (fmul Double (of_Z Double 2) y))
  = S754_finite false 5277655813324799 (-154) /\
  smoothstep Double fzero (fone Double) x
  <> fmul Double (fmul Double y y)
          (fsub Double (of_Z Double 3) (fmul Double (of_Z Double 2) y)).
Proof. vm_compute. repeat split; try reflexivity. discriminate. Qed.

(** C7, amended.  For [a < b], [smoothstep(a, b, x)] is [0] for [x <= a],
    [1] for [x >= b], and otherwise [y * y * (3 - y - y)] with
    [y = (x - a) / (b - a)], every operation rounded in [T];
    [smoothstep(0, 1, 0.5)] is [0.5]. *)
Theorem smoothstep_spec :
  (forall (T : fp_type) (a b x : spec_float),
     SFltb a b = true ->
     (SFleb x a = true -> smoothstep T a b x = fzero) /\
     (SFleb b x = true -> smoothstep T a b x = fone T) /\
     (SFleb x a = false -> SFleb b x = false ->
      smoothstep T a b x =
      let y := fdiv T (fsub T x a) (fsub T b a) in
      fmul T (fmul T y y) (fsub T (fsub T (of_Z T 3) y) y))) /\
  (forall T : fp_type,
     smoothstep T fzero (fone T) (of_ratio T 1 2) = of_ratio T 1 2).
Proof.
  split.
  - intros T a b x Hab. unfold smoothstep. split; [ | split ].
    + intros ->. reflexivity.
    + intros Hbx. rewrite (SFltb_SFleb_trans a b x Hab Hbx), Hbx.
      reflexivity.
    + intros -> ->. reflexivity.
  - intros [ | ]; vm_compute; reflexivity.
Qed.

(** The amended C7 on the unit interval, right of it and left of it. *)
Lemma smoothstep_spec_witness :
  SFltb fzero (fone Double) = true /\
  smoothstep Double fzero (fone Double) (of_Z Double 2) = fone Double /\
  smoothstep Double fzero (fone Double) (SFopp (fone Double)) = fzero.
Proof.
  assert (H : SFltb fzero (fone Double) = true) by reflexivity.
  split; [ exact H | ].
  destruct (proj1 smoothstep_spec Double fzero (fone Double)
              (of_Z Double 2) H) as [_ [H1 _]].
  destruct (proj1 smoothstep_spec Double fzero (fone Double)
              (SFopp (fone Double)) H) as [H0 _].
  split; [ apply H1; reflexivity | apply H0; reflexivity ].
Defined.

(** ** Canonical significands *)

Section FormatFacts.

Variables prec emax : Z.
Hypothesis Hprec : 0 < prec.

Local Notation "'emin'" := (SpecFloat.emin prec emax).
Local Notation "'fexp'" := (SpecFloat.fexp prec emax).

Lemma digits2_size (m : positive) : digits2_pos m = Pos.size m.
Proof. induction m; cbn; congruence. Qed.

(** A positive number of [d] binary digits lies in [2^(d-1), 2^d). *)
Lemma digits2_bounds (m : positive) :
  2 ^ (Zpos (digits2_pos m) - 1) <= Zpos m < 2 ^ Zpos (digits2_pos m).
Proof.
  rewrite digits2_size. split.
  - pose proof (Pos.size_le m) as H.
    assert (H2 : 2 ^ Zpos (Pos.size m) <= 2 * Zpos m).
    { change (2 * Zpos m) with (Zpos (m~0)).
      rewrite <- Pos2Z.inj_pow. exact H. }
    replace (Zpos (Pos.size m)) with (Z.succ (Zpos (Pos.size m) - 1)) in H2
      by lia.
    rewrite Z.pow_succ_r in H2 by lia. lia.
  - pose proof (Pos.size_gt m) as H.
    rewrite <- Pos2Z.inj_pow. exact H.
Qed.

Lemma Zdigits2_pos (m : positive) : Zdigits2 (Zpos m) = Zpos (digits2_pos m).
Proof. reflexivity. Qed.

(** The number of digits is determined by the enclosing powers of two. *)
Lemma digits2_unique (m : positive) (d : Z) :
  2 ^ (d - 1) <= Zpos m < 2 ^ d -> Zpos (digits2_pos m) = d.
Proof.
  intros [Hlo Hhi]. pose proof (digits2_bounds m) as [Hlo' Hhi'].
  assert (0 < d).
  { destruct (Z_lt_le_dec 0 d); [ assumption | ].
    assert (2 ^ d <= 2 ^ 0) by (apply Z.pow_le_mono_r; lia).
    change (2 ^ 0) with 1 in *. lia. }
  destruct (Z_lt_le_dec (Zpos (digits2_pos m)) d) as [Hc | Hc].
  - assert (2 ^ Zpos (digits2_pos m) <= 2 ^ (d - 1))
      by (apply Z.pow_le_mono_r; lia). lia.
  - destruct (Z_lt_le_dec d (Zpos (digits2_pos m))) as [Hc' | Hc'];
      [ | lia ].
    assert (2 ^ d <= 2 ^ (Zpos (digits2_pos m) - 1))
      by (apply Z.pow_le_mono_r; lia). lia.
Qed.

Lemma fexp_ge_emin (e : Z) : emin <= fexp e.
Proof. unfold SpecFloat.fexp. lia. Qed.

Lemma fexp_mono (e1 e2 : Z) : e1 <= e2 -> fexp e1 <= fexp e2.
Proof. unfold SpecFloat.fexp. lia. Qed.

(** What [canonical_mantissa m e] says: the exponent is the one the format
    gives to a number with the digits of [m] at exponent [e]. *)
Lemma canonical_spec (m : positive) (e : Z) :
  canonical_mantissa prec emax m e = true <->
  e = fexp (Zpos (digits2_pos m) + e).
Proof.
  unfold canonical_mantissa. rewrite Z.eqb_eq. intuition congruence.
Qed.

Lemma canonical_digits (m : positive) (e : Z) :
  canonical_mantissa prec emax m e = true ->
  emin <= e /\
  Zpos (digits2_pos m) <= prec /\
  (emin < e -> Zpos (digits2_pos m) = prec).
Proof.
  rewrite canonical_spec. unfold SpecFloat.fexp. lia.
Qed.

Lemma canonical_lt_pow (m : positive) (e : Z) :
  canonical_mantissa prec emax m e = true -> Zpos m < 2 ^ prec.
Proof.
  intros H. apply canonical_digits in H. destruct H as [_ [Hd _]].
  pose proof (digits2_bounds m) as [_ Hhi].
  assert (2 ^ Zpos (digits2_pos m) <= 2 ^ prec)
    by (apply Z.pow_le_mono_r; lia). lia.
Qed.

Lemma bounded_canonical (m : positive) (e : Z) :
  bounded prec emax m e = true ->
  canonical_mantissa prec emax m e = true /\ e <= emax - prec.
Proof.
  unfold bounded. rewrite andb_true_iff, Z.leb_le. tauto.
Qed.

(** Among canonical significands, the lexicographic order on (exponent,
    significand) is the order of the values: here the values are compared
    after scaling by [2^-g] for a [g] below both exponents. *)
Lemma canonical_lex_lt (m1 m2 : positive) (e1 e2 g : Z) :
  canonical_mantissa prec emax m1 e1 = true ->
  canonical_mantissa prec emax m2 e2 = true ->
  g <= e1 -> g <= e2 ->
  (e1 < e2 \/ (e1 = e2 /\ Zpos m1 < Zpos m2)) ->
  Zpos m1 * 2 ^ (e1 - g) < Zpos m2 * 2 ^ (e2 - g).
Proof.
  intros H1 H2 Hg1 Hg2 [Hlt | [-> Hlt]].
  - pose proof (canonical_lt_pow m1 e1 H1) as Hm1.
    apply canonical_digits in H1, H2.
    destruct H1 as [He1 _], H2 as [He2 [_ Hd2]].
    specialize (Hd2 ltac:(lia)).
    pose proof (digits2_bounds m2) as [Hlo2 _]. rewrite Hd2 in Hlo2.
    assert (Hp : 0 < 2 ^ (e1 - g)) by (apply Z.pow_pos_nonneg; lia).
    assert (Hq : 2 ^ (e2 - g) = 2 ^ (e2 - e1) * 2 ^ (e1 - g))
      by (rewrite <- Z.pow_add_r by lia; f_equal; lia).
    assert (Hr : 2 * 2 ^ (prec - 1) = 2 ^ prec)
      by (rewrite <- Z.pow_succ_r by lia; f_equal; lia).
    assert (Hs : 2 <= 2 ^ (e2 - e1)).
    { change 2 with (2 ^ 1) at 1. apply Z.pow_le_mono_r; lia. }
    rewrite Hq. nia.
  - assert (Hp : 0 < 2 ^ (e2 - g)) by (apply Z.pow_pos_nonneg; lia).
    nia.
Qed.

Lemma canonical_lex_le (m1 m2 : positive) (e1 e2 g : Z) :
  canonical_mantissa prec emax m1 e1 = true ->
  canonical_mantissa prec emax m2 e2 = true ->
  g <= e1 -> g <= e2 ->
  Zpos m1 * 2 ^ (e1 - g) <= Zpos m2 * 2 ^ (e2 - g) ->
  e1 < e2 \/ (e1 = e2 /\ Zpos m1 <= Zpos m2).
Proof.
  intros H1 H2 Hg1 Hg2 Hle.
  destruct (Z_lt_le_dec e1 e2) as [ | He ]; [ left; assumption | ].
  destruct (Z.eq_dec e1 e2) as [-> | Hne].
  - right. split; [ reflexivity | ].
    assert (Hp : 0 < 2 ^ (e2 - g)) by (apply Z.pow_pos_nonneg; lia). nia.
  - exfalso.
    pose proof (canonical_lex_lt m2 m1 e2 e1 g H2 H1 Hg2 Hg1
                  ltac:(left; lia)). lia.
Qed.

End FormatFacts.

(** ** Shifting and rounding a significand *)

Section ShiftFacts.

Lemma Zdigits2_bounds (m : Z) :
  0 < m -> 2 ^ (Zdigits2 m - 1) <= m < 2 ^ Zdigits2 m.
Proof.
  destruct m as [ | p | p ]; try lia. intros _. apply digits2_bounds.
Qed.

Lemma Zdigits2_unique (m d : Z) :
  0 < m -> 2 ^ (d - 1) <= m < 2 ^ d -> Zdigits2 m = d.
Proof.
  destruct m as [ | p | p ]; try lia. intros _. apply digits2_unique.
Qed.

Lemma Zdigits2_nonneg (m : Z) : 0 <= Zdigits2 m.
Proof. destruct m; cbn; lia. Qed.

Lemma Zdigits2_pos_gt (m : Z) : 0 < m -> 0 < Zdigits2 m.
Proof. destruct m; cbn; lia. Qed.

(** Dropping [k] low bits drops [k] digits. *)
Lemma Zdigits2_div_pow2 (m k : Z) :
  0 < m -> 0 <= k -> k < Zdigits2 m ->
  0 < m / 2 ^ k /\ Zdigits2 (m / 2 ^ k) = Zdigits2 m - k.
Proof.
  intros Hm Hk Hkd. pose proof (Zdigits2_bounds m Hm) as [Hlo Hhi].
  assert (Hp : 0 < 2 ^ k) by (apply Z.pow_pos_nonneg; lia).
  assert (Hlo' : 2 ^ (Zdigits2 m - k - 1) <= m / 2 ^ k).
  { apply Z.div_le_lower_bound; [ assumption | ].
    rewrite <- Z.pow_add_r by lia.
    replace (k + (Zdigits2 m - k - 1)) with (Zdigits2 m - 1) by lia.
    assumption. }
  assert (Hhi' : m / 2 ^ k < 2 ^ (Zdigits2 m - k)).
  { apply Z.div_lt_upper_bound; [ assumption | ].
    rewrite <- Z.pow_add_r by lia.
    replace (k + (Zdigits2 m - k)) with (Zdigits2 m) by lia.
    assumption. }
  assert (Hq : 0 < m / 2 ^ k).
  { assert (0 < 2 ^ (Zdigits2 m - k - 1))
      by (apply Z.pow_pos_nonneg; lia). lia. }
  split; [ assumption | ].
  apply Zdigits2_unique; [ assumption | ]. split; assumption.
Qed.

Lemma div_pow2_small (m k : Z) :
  0 < m -> Zdigits2 m <= k -> m / 2 ^ k = 0.
Proof.
  intros Hm Hk. pose proof (Zdigits2_bounds m Hm) as [_ Hhi].
  apply Z.div_small. split; [ lia | ].
  assert (2 ^ Zdigits2 m <= 2 ^ k).
  { apply Z.pow_le_mono_r; [ lia | assumption ]. }
  lia.
Qed.

(** Adding one keeps the number of digits, or reaches the next power of
    two. *)
Lemma Zdigits2_succ (m : Z) :
  0 <= m ->
  Zdigits2 (m + 1) = Zdigits2 m \/
  (m + 1 = 2 ^ Zdigits2 m /\ Zdigits2 (m + 1) = Zdigits2 m + 1).
Proof.
  intros Hm. destruct (Z.eq_dec m 0) as [-> | Hm0].
  - right. split; reflexivity.
  - pose proof (Zdigits2_bounds m ltac:(lia)) as [Hlo Hhi].
    pose proof (Zdigits2_pos_gt m ltac:(lia)) as Hd.
    destruct (Z.eq_dec (m + 1) (2 ^ Zdigits2 m)) as [He | Hne].
    + right. split; [ assumption | ].
      apply Zdigits2_unique; [ lia | ].
      replace (Zdigits2 m + 1 - 1) with (Zdigits2 m) by lia.
      rewrite Z.pow_add_r by lia. change (2 ^ 1) with 2. lia.
    + left. apply Zdigits2_unique; lia.
Qed.

Lemma shr_1_m (r : shr_record) :
  0 <= shr_m r -> shr_m (shr_1 r) = shr_m r / 2.
Proof.
  destruct r as [m rb sb]. cbn [shr_m]. intros Hm.
  destruct m as [ | [ p | p | ] | p ]; try lia; cbn [shr_1 shr_m].
  - reflexivity.
  - apply (Z.div_unique_pos _ _ _ 1); lia.
  - apply (Z.div_unique_pos _ _ _ 0); lia.
  - reflexivity.
Qed.

Lemma iter_shr_1_m (p : positive) :
  forall r : shr_record,
    0 <= shr_m r ->
    shr_m (iter_pos shr_1 p r) = shr_m r / 2 ^ Zpos p.
Proof.
  assert (Hnn : forall a b, 0 <= a -> 0 < b -> 0 <= a / b)
    by (intros; apply Z.div_pos; lia).
  induction p as [p IH | p IH | ]; intros r Hr; cbn [iter_pos].
  - rewrite IH, IH, shr_1_m; try assumption.
    + rewrite !Z.div_div by (try apply Z.pow_pos_nonneg; lia).
      f_equal.
      replace (Zpos p~1) with (1 + Zpos p + Zpos p) by lia.
      rewrite !Z.pow_add_r by lia. change (2 ^ 1) with 2. ring.
    + rewrite shr_1_m by assumption. apply Hnn; lia.
    + rewrite IH, shr_1_m by (rewrite ?shr_1_m; auto with zarith).
      apply Hnn; [ apply Hnn; lia | apply Z.pow_pos_nonneg; lia ].
  - rewrite IH, IH; try assumption.
    + rewrite !Z.div_div by (try apply Z.pow_pos_nonneg; lia).
      f_equal.
      replace (Zpos p~0) with (Zpos p + Zpos p) by lia.
      rewrite !Z.pow_add_r by lia. ring.
    + rewrite IH by assumption.
      apply Hnn; [ lia | apply Z.pow_pos_nonneg; lia ].
  - apply shr_1_m. assumption.
Qed.

Lemma shr_record_of_loc_m (m : Z) (l : location) :
  shr_m (shr_record_of_loc m l) = m.
Proof. destruct l as [ | [ | | ] ]; reflexivity. Qed.

Lemma loc_of_shr_record_of_loc (m : Z) (l : location) :
  loc_of_shr_record (shr_record_of_loc m l) = l.
Proof. destruct l as [ | [ | | ] ]; reflexivity. Qed.

(** [shr] drops [max 0 n] bits. *)
Lemma shr_spec (r : shr_record) (e n : Z) :
  0 <= shr_m r ->
  shr_m (fst (shr r e n)) = shr_m r / 2 ^ Z.max 0 n /\
  snd (shr r e n) = e + Z.max 0 n /\
  (n <= 0 -> fst (shr r e n) = r).
Proof.
  intros Hr. destruct n as [ | p | p ]; cbn [shr fst snd].
  - rewrite Z.div_1_r. repeat split; lia.
  - rewrite iter_shr_1_m by assumption.
    replace (Z.max 0 (Zpos p)) with (Zpos p) by lia.
    repeat split; lia.
  - replace (Z.max 0 (Zneg p)) with 0 by lia.
    rewrite Z.div_1_r. repeat split; lia.
Qed.

(** Shifting out bits that are all zero leaves the round and sticky bits
    clear. *)
Lemma shr_1_exact (r : shr_record) :
  0 <= shr_m r -> shr_r r = false -> shr_s r = false ->
  (2 | shr_m r) ->
  shr_r (shr_1 r) = false /\ shr_s (shr_1 r) = false.
Proof.
  destruct r as [m rb sb]. cbn [shr_m shr_r shr_s].
  intros Hm -> -> [q Hq].
  destruct m as [ | [ p | p | ] | p ]; try lia; cbn; split; reflexivity.
Qed.

Lemma divide_pow2_split (m a b : Z) :
  0 <= a -> 0 <= b -> (2 ^ (a + b) | m) ->
  (2 ^ a | m) /\ (2 ^ b | m / 2 ^ a).
Proof.
  intros Ha Hb [q Hq]. rewrite Z.pow_add_r in Hq by assumption.
  assert (Hp : 0 < 2 ^ a) by (apply Z.pow_pos_nonneg; lia).
  split.
  - exists (q * 2 ^ b). lia.
  - exists q. subst m.
    replace (q * (2 ^ a * 2 ^ b)) with (q * 2 ^ b * 2 ^ a) by ring.
    rewrite Z.div_mul by lia. reflexivity.
Qed.

Lemma iter_shr_1_exact (p : positive) :
  forall r : shr_record,
    0 <= shr_m r -> shr_r r = false -> shr_s r = false ->
    (2 ^ Zpos p | shr_m r) ->
    shr_r (iter_pos shr_1 p r) = false /\
    shr_s (iter_pos shr_1 p r) = false.
Proof.
  assert (Hnn : forall a b, 0 <= a -> 0 < b -> 0 <= a / b)
    by (intros; apply Z.div_pos; lia).
  induction p as [p IH | p IH | ]; intros r Hm Hr Hs Hd; cbn [iter_pos].
  - replace (Zpos p~1) with (1 + (Zpos p + Zpos p)) in Hd by lia.
    apply divide_pow2_split in Hd; try lia. destruct Hd as [Hd1 Hd2].
    change (2 ^ 1) with 2 in Hd1, Hd2.
    apply divide_pow2_split in Hd2; try lia. destruct Hd2 as [Hd2 Hd3].
    destruct (shr_1_exact r Hm Hr Hs Hd1) as [Hr1 Hs1].
    assert (Hm1 : 0 <= shr_m (shr_1 r))
      by (rewrite shr_1_m by assumption; apply Hnn; lia).
    rewrite <- shr_1_m in Hd2, Hd3 by assumption.
    destruct (IH (shr_1 r) Hm1 Hr1 Hs1 Hd2) as [Hr2 Hs2].
    apply IH; try assumption.
    + rewrite iter_shr_1_m by assumption.
      apply Hnn; [ assumption | apply Z.pow_pos_nonneg; lia ].
    + rewrite iter_shr_1_m by assumption. assumption.
  - replace (Zpos p~0) with (Zpos p + Zpos p) in Hd by lia.
    apply divide_pow2_split in Hd; try lia. destruct Hd as [Hd1 Hd2].
    destruct (IH r Hm Hr Hs Hd1) as [Hr1 Hs1].
    apply IH; try assumption.
    + rewrite iter_shr_1_m by assumption.
      apply Hnn; [ assumption | apply Z.pow_pos_nonneg; lia ].
    + rewrite iter_shr_1_m by assumption. assumption.
  - apply shr_1_exact; assumption.
Qed.

Lemma shr_exact (m e n : Z) :
  0 <= m -> (2 ^ Z.max 0 n | m) ->
  loc_of_shr_record (fst (shr (shr_record_of_loc m loc_Exact) e n))
  = loc_Exact.
Proof.
  intros Hm Hd. destruct n as [ | p | p ]; cbn [shr fst]; try reflexivity.
  replace (Z.max 0 (Zpos p)) with (Zpos p) in Hd by lia.
  destruct (iter_shr_1_exact p (shr_record_of_loc m loc_Exact))
    as [Hr Hs]; try assumption; try reflexivity.
  destruct (iter_pos shr_1 p (shr_record_of_loc m loc_Exact))
    as [m' rb sb]. cbn [shr_r shr_s] in Hr, Hs. subst. reflexivity.
Qed.

Lemma round_nearest_even_cases (m : Z) (l : location) :
  round_nearest_even m l = m \/ round_nearest_even m l = m + 1.
Proof.
  destruct l as [ | [ | | ] ]; cbn; auto.
  destruct (Z.even m); auto.
Qed.

End ShiftFacts.

(** ** The rounding step of the operations *)

Section RoundFacts.

Variables prec emax : Z.
Hypothesis Hprec : 0 < prec.

Local Notation "'emin'" := (SpecFloat.emin prec emax).
Local Notation "'fexp'" := (SpecFloat.fexp prec emax).

Lemma shr_fexp_spec (m e : Z) (l : location) :
  0 <= m ->
  let k := Z.max 0 (fexp (Zdigits2 m + e) - e) in
  shr_m (fst (shr_fexp prec emax m e l)) = m / 2 ^ k /\
  snd (shr_fexp prec emax m e l) = e + k /\
  (fexp (Zdigits2 m + e) <= e ->
   fst (shr_fexp prec emax m e l) = shr_record_of_loc m l).
Proof.
  intros Hm k. unfold shr_fexp.
  pose proof (shr_spec (shr_record_of_loc m l) e
                (fexp (Zdigits2 m + e) - e)) as H.
  rewrite shr_record_of_loc_m in H. specialize (H Hm).
  destruct H as [H1 [H2 H3]]. repeat split; try assumption.
  intros Hle. apply H3. lia.
Qed.

(** The canonical exponent of a significand grows by at most one when the
    significand, already in canonical position or below, is incremented,
    and only when the increment reaches [2^prec]. *)
Lemma fexp_after_increment (m1 m2 e1 : Z) :
  0 <= m1 -> 0 < m2 -> m2 = m1 \/ m2 = m1 + 1 ->
  emin <= e1 ->
  (0 < m1 -> fexp (Zdigits2 m1 + e1) = e1) ->
  (m1 = 0 -> e1 = emin) ->
  let f2 := fexp (Zdigits2 m2 + e1) in
  f2 = e1 \/ (f2 = e1 + 1 /\ 1 < Zdigits2 m2 /\ m2 mod 2 = 0).
Proof.
  intros Hm1 Hm2 Hcase He1 Hcan Hzero f2. subst f2.
  destruct Hcase as [-> | ->].
  - left. apply Hcan. assumption.
  - destruct (Zdigits2_succ m1 Hm1) as [Hd | [Hpow Hd]].
    + destruct (Z.eq_dec m1 0) as [-> | Hne]; [ discriminate Hd | ].
      left. rewrite Hd. apply Hcan. lia.
    + rewrite Hd. destruct (Z.eq_dec m1 0) as [-> | Hne].
      * left. specialize (Hzero eq_refl). subst e1.
        cbn [Zdigits2]. unfold SpecFloat.fexp. lia.
      * specialize (Hcan ltac:(lia)).
        pose proof (Zdigits2_pos_gt m1 ltac:(lia)) as Hdpos.
        unfold SpecFloat.fexp in *.
        destruct (Z_lt_le_dec (Zdigits2 m1 + e1 - prec) emin) as [Hsub | Hnorm].
        -- left. lia.
        -- right. split; [ lia | ]. split; [ lia | ].
           rewrite Hpow.
           replace (Zdigits2 m1) with (1 + (Zdigits2 m1 - 1)) by lia.
           rewrite Z.pow_add_r by lia. change (2 ^ 1) with 2.
           rewrite Z.mul_comm. apply Z.mod_mul. lia.
Qed.

Lemma binary_round_aux_spec (s : bool) (m e : Z) (l : location) :
  0 < m -> e <= fexp (Zdigits2 m + e) ->
  let e1 := fexp (Zdigits2 m + e) in
  let m1 := m / 2 ^ (e1 - e) in
  exists m2,
    (m2 = m1 \/ m2 = m1 + 1) /\
    (l = loc_Exact -> (2 ^ (e1 - e) | m) -> m2 = m1) /\
    round_outcome prec emax s m2 e1 (binary_round_aux prec emax s m e l).
Proof.
  intros Hm He e1 m1. unfold binary_round_aux.
  pose proof (shr_fexp_spec m e l ltac:(lia)) as [Hr1 [He1 Hex1]].
  destruct (shr_fexp prec emax m e l) as [r1 e1'] eqn:E1.
  cbn [fst snd] in Hr1, He1, Hex1.
  replace (Z.max 0 (fexp (Zdigits2 m + e) - e)) with (e1 - e) in Hr1, He1
    by (subst e1; lia).
  replace (e + (e1 - e)) with e1 in He1 by lia. subst e1'.
  fold m1 in Hr1.
  assert (Hk : 0 <= e1 - e) by (subst e1; lia).
  assert (Hm1 : 0 <= m1)
    by (apply Z.div_pos; [ lia | apply Z.pow_pos_nonneg; lia ]).
  set (m2 := round_nearest_even (shr_m r1) (loc_of_shr_record r1)).
  assert (Hm2 : m2 = m1 \/ m2 = m1 + 1)
    by (subst m2; rewrite <- Hr1; apply round_nearest_even_cases).
  exists m2. split; [ assumption | ]. split.
  { intros Hl Hdiv. subst m2. rewrite Hr1.
    assert (Hloc : loc_of_shr_record r1 = loc_Exact).
    { pose proof (shr_exact m e (e1 - e) ltac:(lia)) as Hx.
      replace (Z.max 0 (e1 - e)) with (e1 - e) in Hx by lia.
      specialize (Hx Hdiv). unfold shr_fexp in E1. fold e1 in E1.
      rewrite Hl in E1. rewrite E1 in Hx. exact Hx. }
    rewrite Hloc. reflexivity. }
  pose proof (shr_fexp_spec m2 e1 loc_Exact ltac:(lia)) as [Hr2 [He2 _]].
  destruct (shr_fexp prec emax m2 e1 loc_Exact) as [r2 e3] eqn:E2.
  cbn [fst snd] in Hr2, He2.
  destruct (Z.eq_dec m2 0) as [Hz | Hnz].
  - left. split; [ assumption | ].
    rewrite Hr2, Hz, Z.div_0_l; [ reflexivity | ].
    apply Z.pow_nonzero; lia.
  - right.
    assert (He1 : emin <= e1) by (subst e1; apply fexp_ge_emin).
    assert (Hcan : 0 < m1 -> fexp (Zdigits2 m1 + e1) = e1).
    { intros Hpos. subst m1.
      destruct (Z_lt_le_dec (e1 - e) (Zdigits2 m)) as [Hlt | Hge].
      - destruct (Zdigits2_div_pow2 m (e1 - e) Hm Hk Hlt) as [_ Hd].
        rewrite Hd. replace (Zdigits2 m - (e1 - e) + e1)
          with (Zdigits2 m + e) by lia. reflexivity.
      - rewrite (div_pow2_small m (e1 - e) Hm Hge) in Hpos. lia. }
    assert (Hzero : m1 = 0 -> e1 = emin).
    { intros Hz. subst m1.
      destruct (Z_lt_le_dec (e1 - e) (Zdigits2 m)) as [Hlt | Hge].
      - destruct (Zdigits2_div_pow2 m (e1 - e) Hm Hk Hlt) as [Hp _]. lia.
      - subst e1. unfold SpecFloat.fexp in *. lia. }
    pose proof (fexp_after_increment m1 m2 e1 Hm1 ltac:(lia) Hm2 He1
                  Hcan Hzero) as Hf2.
    cbv zeta in Hf2.
    set (f2 := fexp (Zdigits2 m2 + e1)) in *.
    assert (Hk2 : Z.max 0 (f2 - e1) = f2 - e1) by lia.
    rewrite Hk2 in Hr2, He2. replace (e1 + (f2 - e1)) with f2 in He2 by lia.
    assert (Hdiv : m2 = (m2 / 2 ^ (f2 - e1)) * 2 ^ (f2 - e1) /\
                   f2 - e1 < Zdigits2 m2).
    { destruct Hf2 as [-> | [-> [Hd Hev]]].
      - rewrite Z.sub_diag, Z.div_1_r. change (2 ^ 0) with 1.
        pose proof (Zdigits2_pos_gt m2 ltac:(lia)). lia.
      - replace (e1 + 1 - e1) with 1 by lia. change (2 ^ 1) with 2.
        split; [ | lia ].
        pose proof (Z.div_mod m2 2 ltac:(lia)). lia. }
    destruct Hdiv as [Hdiv Hlt2].
    destruct (Zdigits2_div_pow2 m2 (f2 - e1) ltac:(lia) ltac:(lia) Hlt2)
      as [Hpos3 Hd3].
    rewrite Hr2. destruct (m2 / 2 ^ (f2 - e1)) as [ | m3 | m3 ] eqn:E3;
      try lia.
    exists m3, e3. subst e3. split; [ lia | ]. split; [ lia | ]. split.
    + unfold canonical_mantissa. apply Z.eqb_eq.
      change (Zpos (digits2_pos m3)) with (Zdigits2 (Zpos m3)).
      rewrite Hd3. replace (Zdigits2 m2 - (f2 - e1) + f2)
        with (Zdigits2 m2 + e1) by lia. reflexivity.
    + reflexivity.
Qed.

End RoundFacts.

(** ** Signs of results *)

Section SignFacts.

Variables prec emax : Z.
Hypothesis Hprec : 0 < prec.

Lemma binary_round_aux_sign (s : bool) (m e : Z) (l : location) :
  sign_or_nan s (binary_round_aux prec emax s m e l).
Proof.
  unfold binary_round_aux.
  destruct (shr_fexp prec emax m e l) as [r1 e1].
  destruct (shr_fexp prec emax _ e1 loc_Exact) as [r2 e2].
  destruct (shr_m r2); cbn; try reflexivity.
  destruct (e2 <=? emax - prec); reflexivity.
Qed.

Lemma SFdiv_sign (x y : spec_float) (s : bool) :
  SFsign x = Some s -> SFsign y = Some (negb s) ->
  sign_or_nan true (SFdiv prec emax x y).
Proof.
  destruct x as [sx | sx | | sx mx ex], y as [sy | sy | | sy my ey];
    cbn [SFsign]; try discriminate; intros [= ->] [= ->];
    cbn [SFdiv sign_or_nan]; try (destruct s; reflexivity).
  destruct (SFdiv_core_binary prec emax (Zpos mx) ex (Zpos my) ey)
    as [[mz ez] lz].
  replace (xorb s (negb s)) with true by (destruct s; reflexivity).
  apply binary_round_aux_sign.
Qed.

Lemma SFltb_not_negative (a b : spec_float) :
  not_negative a -> sign_or_nan true b -> SFltb a b = false.
Proof.
  destruct a as [sa | [ | ] | | [ | ] ma ea], b as [sb | sb | | sb mb eb];
    cbn; try contradiction; try reflexivity; intros _ ->; reflexivity.
Qed.

Lemma iter_xO_pow2 (m d : positive) :
  Zpos (Pos.iter xO m d) = Zpos m * 2 ^ Zpos d.
Proof.
  induction d as [ | d IH ] using Pos.peano_ind.
  - cbn. lia.
  - rewrite Pos.iter_succ, Pos2Z.inj_xO, IH, Pos2Z.inj_succ.
    rewrite Z.pow_succ_r by lia. ring.
Qed.

(** Aligning a significand to a lower exponent multiplies it by the
    matching power of two. *)
Lemma shl_align_spec (m : positive) (e e' : Z) :
  e' <= e ->
  Zpos (fst (shl_align m e e')) = Zpos m * 2 ^ (e - e') /\
  snd (shl_align m e e') = e'.
Proof.
  intros He. unfold shl_align.
  destruct (e' - e) as [ | d | d ] eqn:E; cbn [fst snd]; try lia.
  - replace (e - e') with 0 by lia. split; lia.
  - rewrite iter_xO_pow2. replace (e - e') with (Zpos d) by lia.
    split; reflexivity.
Qed.

Lemma shl_align_id (m : positive) (e e' : Z) :
  e <= e' -> shl_align m e e' = (m, e).
Proof.
  intros He. unfold shl_align.
  destruct (e' - e) as [ | d | d ] eqn:E; try reflexivity; lia.
Qed.

Lemma binary_normalize_not_negative (m e : Z) (sz : bool) :
  0 <= m -> not_negative (binary_normalize prec emax m e sz).
Proof.
  intros Hm. destruct m as [ | p | p ]; try lia; cbn [binary_normalize].
  - exact I.
  - unfold binary_round.
    destruct (shl_align p e _) as [mz ez].
    pose proof (binary_round_aux_sign false (Zpos mz) ez loc_Exact) as H.
    destruct (binary_round_aux prec emax false (Zpos mz) ez loc_Exact)
      as [ | [ | ] | | [ | ] ]; cbn in *; try exact I; discriminate.
Qed.

(** The order of two positive values of the format, read on their
    significands aligned to a common exponent. *)
Lemma SFleb_aligned (mx my : positive) (ex ey g : Z) :
  bounded prec emax mx ex = true -> bounded prec emax my ey = true ->
  g <= ex -> g <= ey ->
  SFleb (S754_finite false my ey) (S754_finite false mx ex) = true ->
  Zpos my * 2 ^ (ey - g) <= Zpos mx * 2 ^ (ex - g).
Proof.
  intros Hx Hy Hgx Hgy. unfold SFleb. rewrite SFcompare_finite_pos.
  intros H.
  destruct (Z.compare_spec ey ex) as [-> | Hlt | Hgt].
  - destruct (Pos.compare_spec my mx) as [-> | Hm | Hm];
      try discriminate; [ lia | ].
    assert (0 < 2 ^ (ex - g)) by (apply Z.pow_pos_nonneg; lia).
    apply Z.mul_le_mono_nonneg_r; lia.
  - apply bounded_canonical in Hx, Hy.
    pose proof (canonical_lex_lt prec emax Hprec my mx ey ex g
                  (proj1 Hy) (proj1 Hx) Hgy Hgx
                  ltac:(left; assumption)). lia.
  - discriminate.
Qed.

Lemma SFsub_not_negative (mx my : positive) (ex ey : Z) :
  bounded prec emax mx ex = true -> bounded prec emax my ey = true ->
  SFleb (S754_finite false my ey) (S754_finite false mx ex) = true ->
  not_negative (SFsub prec emax (S754_finite false mx ex)
                  (S754_finite false my ey)).
Proof.
  intros Hx Hy Hle. cbn [SFsub cond_Zopp].
  apply binary_normalize_not_negative.
  destruct (shl_align_spec mx ex (Z.min ex ey) ltac:(lia)) as [-> _].
  destruct (shl_align_spec my ey (Z.min ex ey) ltac:(lia)) as [-> _].
  pose proof (SFleb_aligned mx my ex ey (Z.min ex ey) Hx Hy
                ltac:(lia) ltac:(lia) Hle). lia.
Qed.

End SignFacts.

(** ** The two formats *)

Lemma fprec_pos (T : fp_type) : 0 < fprec T.
Proof. destruct T; reflexivity. Qed.

Lemma fprec_lt_femax (T : fp_type) : fprec T < femax T.
Proof. destruct T; reflexivity. Qed.

Lemma fone_finite (T : fp_type) :
  exists m e, fone T = S754_finite false m e /\
              bounded (fprec T) (femax T) m e = true.
Proof.
  destruct T; vm_compute; eexists; eexists; split; reflexivity.
Qed.

Lemma SFsign_nonzero (x : spec_float) (s : bool) :
  SFsign x = Some s -> SFeqb x fzero = false.
Proof.
  destruct x as [sx | sx | | sx mx ex]; cbn; try discriminate;
    destruct sx; reflexivity.
Qed.

(** C10.  For nonzero operands of opposite signs and [0 < eps <= 1],
    [feq(lhs, rhs, eps)] is [false]. *)
Theorem feq_opposite_signs :
  forall (T : fp_type) (lhs rhs eps : spec_float) (s : bool),
    SFsign lhs = Some s -> SFsign rhs = Some (negb s) ->
    is_float T eps = true ->
    SFltb fzero eps = true -> SFleb eps (fone T) = true ->
    feq T lhs rhs eps = false.
Proof.
  intros T lhs rhs eps s Hl Hr Hv H0 H1. unfold feq.
  rewrite (SFsign_nonzero lhs s Hl), (SFsign_nonzero rhs (negb s) Hr).
  destruct (ratio_overflows T lhs rhs); [ reflexivity | ].
  destruct (ratio_underflows T lhs rhs); [ reflexivity | ].
  apply andb_false_intro1. apply SFltb_not_negative.
  - destruct (fone_finite T) as [m1 [e1 [E1 Hb1]]]. rewrite E1 in *.
    destruct eps as [se | se | | se me ee]; try destruct se;
      try discriminate.
    apply (SFsub_not_negative _ _ (fprec_pos T)); assumption.
  - apply (SFdiv_sign _ _ lhs rhs s); assumption.
Qed.

(** C10 at [1] against [-1] in [double] and at [-3] against [3] in
    [float]. *)
Lemma feq_opposite_signs_witness :
  feq Double (fone Double) (SFopp (fone Double)) (default_eps Double) = false
  /\ feq Float (SFopp (of_Z Float 3)) (of_Z Float 3) (fone Float) = false.
Proof.
  split.
  - apply (feq_opposite_signs Double _ _ _ false); reflexivity.
  - apply (feq_opposite_signs Float _ _ _ true); reflexivity.
Defined.

(** ** Rounding an integer significand, sums and remainders *)

Section AddFacts.

Variables prec emax : Z.
Hypothesis Hprec : 0 < prec.

Local Notation "'emin'" := (SpecFloat.emin prec emax).
Local Notation "'fexp'" := (SpecFloat.fexp prec emax).

Lemma Zdigits2_mul_pow2 (m k : Z) :
  0 < m -> 0 <= k -> Zdigits2 (m * 2 ^ k) = Zdigits2 m + k.
Proof.
  intros Hm Hk. pose proof (Zdigits2_bounds m Hm) as [Hlo Hhi].
  pose proof (Zdigits2_pos_gt m Hm) as Hd.
  assert (Hp : 0 < 2 ^ k) by (apply Z.pow_pos_nonneg; lia).
  apply Zdigits2_unique; [ nia | ].
  replace (Zdigits2 m + k - 1) with (Zdigits2 m - 1 + k) by lia.
  rewrite !Z.pow_add_r by lia. nia.
Qed.

Lemma Zdigits2_le (m p : Z) : 0 < m -> m < 2 ^ p -> Zdigits2 m <= p.
Proof.
  intros Hm Hp. pose proof (Zdigits2_bounds m Hm) as [Hlo _].
  destruct (Z_lt_le_dec p (Zdigits2 m)) as [Hlt | ]; [ | assumption ].
  assert (2 ^ p <= 2 ^ (Zdigits2 m - 1)); [ | lia ].
  destruct (Z_lt_le_dec p 0) as [Hneg | Hnn].
  - rewrite (Z.pow_neg_r 2 p Hneg). apply Z.pow_nonneg. lia.
  - apply Z.pow_le_mono_r; lia.
Qed.

(** [binary_round s m e] rounds [m * 2^e] at the exponent [f] the format
    gives it: exactly when [f <= e], and to one of the two neighbours of
    [m / 2^(f - e)] otherwise. *)
Lemma binary_round_spec (s : bool) (m : positive) (e : Z) :
  let f := fexp (Zpos (digits2_pos m) + e) in
  exists m2,
    round_outcome prec emax s m2 f (binary_round prec emax s m e) /\
    ((f <= e /\ m2 = Zpos m * 2 ^ (e - f)) \/
     (e < f /\ (m2 = Zpos m / 2 ^ (f - e) \/
                m2 = Zpos m / 2 ^ (f - e) + 1) /\
      ((2 ^ (f - e) | Zpos m) -> m2 = Zpos m / 2 ^ (f - e)))).
Proof.
  intros f. unfold binary_round. fold f.
  destruct (Z_le_gt_dec f e) as [Hle | Hgt].
  - destruct (shl_align_spec m e f Hle) as [Hmz Hez].
    destruct (shl_align m e f) as [mz ez]. cbn [fst snd] in Hmz, Hez.
    subst ez.
    assert (Hd : Zdigits2 (Zpos mz) + f = Zpos (digits2_pos m) + e).
    { rewrite Hmz, Zdigits2_mul_pow2 by lia. cbn [Zdigits2]. lia. }
    destruct (binary_round_aux_spec prec emax Hprec s (Zpos mz) f loc_Exact)
      as [m2 [_ [Hex Hout]]]; [ lia | rewrite Hd; fold f; lia | ].
    rewrite Hd in Hex, Hout. fold f in Hex, Hout.
    rewrite Z.sub_diag in Hex.
    specialize (Hex eq_refl (Z.divide_1_l _)).
    rewrite Z.div_1_r in Hex.
    exists m2. split; [ assumption | ]. left. split; [ assumption | ].
    congruence.
  - rewrite shl_align_id by lia.
    destruct (binary_round_aux_spec prec emax Hprec s (Zpos m) e loc_Exact)
      as [m2 [Hcase [Hex Hout]]]; [ lia | cbn [Zdigits2]; fold f; lia | ].
    cbn [Zdigits2] in Hcase, Hex, Hout. fold f in Hcase, Hex, Hout.
    exists m2. split; [ assumption | ]. right.
    split; [ lia | ]. split; [ assumption | ]. intros Hd. auto.
Qed.

(** A rounded positive value that does not exceed a value [n] of the format
    is a finite value between zero and [n]. *)
Lemma round_outcome_le (m2 e1 : Z) (mn : positive) (en : Z)
    (r : spec_float) :
  round_outcome prec emax false m2 e1 r ->
  e1 <= en -> m2 <= Zpos mn * 2 ^ (en - e1) ->
  bounded prec emax mn en = true ->
  SFleb fzero r = true /\ SFleb r (S754_finite false mn en) = true.
Proof.
  intros Hout He Hle Hn. apply bounded_canonical in Hn.
  destruct Hn as [Hcn Hen].
  destruct Hout as [[_ ->] | [m3 [e3 [He3 [Hm3 [Hc3 ->]]]]]].
  - split; reflexivity.
  - pose proof (canonical_lex_le prec emax Hprec m3 mn e3 en e1 Hc3 Hcn
                  He3 He ltac:(lia)) as Hlex.
    replace (e3 <=? emax - prec) with true
      by (symmetry; apply Z.leb_le; lia).
    split; [ reflexivity | ].
    unfold SFleb. rewrite SFcompare_finite_pos.
    destruct (Z.compare_spec e3 en); try reflexivity; try lia.
    destruct (Pos.compare_spec m3 mn); try reflexivity; lia.
Qed.

(** The remainder of two finite values, the divisor positive: a zero, or a
    value of the format with the sign of the dividend and a smaller
    magnitude than the divisor. *)
Lemma SFfmod_finite (sa : bool) (ma mn : positive) (ea en : Z) :
  bounded prec emax ma ea = true -> bounded prec emax mn en = true ->
  let m := SFfmod prec emax (S754_finite sa ma ea)
                  (S754_finite false mn en) in
  m = S754_zero sa \/
  exists (mr : positive) (er : Z),
    m = S754_finite sa mr er /\ bounded prec emax mr er = true /\
    er <= en /\ Zpos mr < Zpos mn * 2 ^ (en - er).
Proof.
  intros Ha Hn m. subst m. cbn [SFfmod].
  set (ez := Z.min ea en).
  destruct (shl_align_spec ma ea ez ltac:(lia)) as [HMa _].
  destruct (shl_align_spec mn en ez ltac:(lia)) as [HMn _].
  set (Ma := Zpos (fst (shl_align ma ea ez))) in *.
  set (Mn := Zpos (fst (shl_align mn en ez))) in *.
  pose proof (Z.rem_bound_pos Ma Mn ltac:(lia) ltac:(lia)) as [HR0 HRn].
  pose proof (Z.rem_le Ma Mn ltac:(lia) ltac:(lia)) as HRa.
  apply bounded_canonical in Ha, Hn.
  destruct Ha as [Hca Hea], Hn as [Hcn Hen].
  pose proof (canonical_lt_pow prec emax Hprec ma ea Hca) as Hma.
  pose proof (canonical_lt_pow prec emax Hprec mn en Hcn) as Hmn.
  pose proof (canonical_digits prec emax ma ea Hca) as [Hea' _].
  pose proof (canonical_digits prec emax mn en Hcn) as [Hen' _].
  destruct (Z.rem Ma Mn) as [ | pr | pr ] eqn:ER; try lia.
  - left. destruct sa; reflexivity.
  - right.
    assert (Hbn : binary_normalize prec emax (cond_Zopp sa (Zpos pr)) ez sa
                  = binary_round prec emax sa pr ez)
      by (destruct sa; reflexivity).
    rewrite Hbn.
    destruct (binary_round_spec sa pr ez) as [m2 [Hout Hcase]].
    set (f := fexp (Zpos (digits2_pos pr) + ez)) in *.
    assert (Hpr : Zpos pr < 2 ^ prec).
    { destruct (Z.min_spec ea en) as [[_ Hz] | [_ Hz]]; fold ez in Hz.
      - rewrite Hz, Z.sub_diag, Z.mul_1_r in HMa. lia.
      - rewrite Hz, Z.sub_diag, Z.mul_1_r in HMn. lia. }
    assert (Hf : f <= ez).
    { pose proof (Zdigits2_le (Zpos pr) prec ltac:(lia) Hpr) as Hd.
      cbn [Zdigits2] in Hd. subst f. unfold SpecFloat.fexp. lia. }
    destruct Hcase as [[_ Hm2] | [Hc _]]; [ | lia ].
    assert (Hpf : 0 < 2 ^ (ez - f)) by (apply Z.pow_pos_nonneg; lia).
    assert (Hscale : Zpos mn * 2 ^ (en - f) = Mn * 2 ^ (ez - f)).
    { rewrite HMn, <- Z.mul_assoc, <- Z.pow_add_r by lia.
      do 2 f_equal. lia. }
    destruct Hout as [[Hz _] | [m3 [e3 [He3 [Hm3 [Hc3 ->]]]]]]; [ nia | ].
    pose proof (canonical_lex_le prec emax Hprec m3 mn e3 en f Hc3 Hcn
                  He3 ltac:(lia) ltac:(nia)) as Hlex.
    replace (e3 <=? emax - prec) with true
      by (symmetry; apply Z.leb_le; lia).
    exists m3, e3. split; [ reflexivity | ]. split.
    + unfold bounded. rewrite Hc3. apply Z.leb_le. lia.
    + split; [ lia | ].
      assert (Hsplit : 2 ^ (en - f) = 2 ^ (en - e3) * 2 ^ (e3 - f))
        by (rewrite <- Z.pow_add_r by lia; f_equal; lia).
      assert (0 < 2 ^ (e3 - f)) by (apply Z.pow_pos_nonneg; lia).
      rewrite Hsplit in Hscale. nia.
Qed.

(** Adding a positive value [n] of the format and a negative value of
    smaller magnitude gives a value between zero and [n], both included. *)
Lemma SFadd_neg_smaller (mn mr : positive) (en er : Z) :
  bounded prec emax mn en = true -> bounded prec emax mr er = true ->
  er <= en -> Zpos mr < Zpos mn * 2 ^ (en - er) ->
  let r := SFadd prec emax (S754_finite false mn en)
                 (S754_finite true mr er) in
  SFleb fzero r = true /\ SFleb r (S754_finite false mn en) = true.
Proof.
  intros Hn Hr Her Hlt r. subst r. cbn [SFadd cond_Zopp].
  replace (Z.min en er) with er by lia.
  destruct (shl_align_spec mn en er Her) as [-> _].
  destruct (shl_align_spec mr er er ltac:(lia)) as [-> _].
  rewrite Z.sub_diag, Z.mul_1_r.
  destruct (Zpos mn * 2 ^ (en - er) + - Zpos mr) as [ | S | S ] eqn:ES;
    try lia.
  cbn [binary_normalize].
  destruct (binary_round_spec false S er) as [m2 [Hout Hcase]].
  set (f := fexp (Zpos (digits2_pos S) + er)) in *.
  pose proof (bounded_canonical prec emax mn en Hn) as [Hcn Hen].
  assert (Hpe : 0 < 2 ^ (en - er)) by (apply Z.pow_pos_nonneg; lia).
  assert (Hfn : f <= en).
  { pose proof (digits2_bounds mn) as [_ Hhi].
    assert (HS : Zpos S < 2 ^ (Zpos (digits2_pos mn) + (en - er))).
    { rewrite Z.pow_add_r by lia. nia. }
    pose proof (Zdigits2_le (Zpos S) _ ltac:(lia) HS) as Hd.
    cbn [Zdigits2] in Hd.
    apply (proj1 (canonical_spec prec emax mn en)) in Hcn.
    rewrite Hcn. subst f. apply fexp_mono. lia. }
  apply (round_outcome_le m2 f mn en); try assumption.
  destruct Hcase as [[Hfe ->] | [Hfe [Hm2 _]]].
  - assert (Hsplit : 2 ^ (en - f) = 2 ^ (en - er) * 2 ^ (er - f))
      by (rewrite <- Z.pow_add_r by lia; f_equal; lia).
    assert (0 < 2 ^ (er - f)) by (apply Z.pow_pos_nonneg; lia).
    rewrite Hsplit. nia.
  - assert (Hsplit : 2 ^ (en - er) = 2 ^ (f - er) * 2 ^ (en - f))
      by (rewrite <- Z.pow_add_r by lia; f_equal; lia).
    assert (Hpf : 0 < 2 ^ (f - er)) by (apply Z.pow_pos_nonneg; lia).
    assert (Hq : Zpos S / 2 ^ (f - er) < Zpos mn * 2 ^ (en - f)).
    { apply Z.div_lt_upper_bound; [ assumption | ].
      rewrite Hsplit in ES. nia. }
    lia.
Qed.

(** An integer [N] that fits the significand, handed to [binary_round] with
    a nonpositive exponent, comes out exactly: its integer part is [N]. *)
Lemma binary_round_integer (s : bool) (S : positive) (ez N : Z) :
  prec <= emax -> 3 <= emax + prec ->
  ez <= 0 -> 0 < N < 2 ^ prec -> Zpos S = N * 2 ^ (- ez) ->
  SFtrunc (binary_round prec emax s S ez) = Some (cond_Zopp s N).
Proof.
  intros Hpe Hep Hez [HN0 HN] HS.
  destruct (binary_round_spec s S ez) as [m2 [Hout Hcase]].
  set (f := fexp (Zpos (digits2_pos S) + ez)) in *.
  assert (Hemin : emin <= 0) by (unfold SpecFloat.emin; lia).
  assert (Hf : emin <= f <= 0).
  { pose proof (Zdigits2_mul_pow2 N (- ez) HN0 ltac:(lia)) as Hd.
    rewrite <- HS in Hd. cbn [Zdigits2] in Hd.
    pose proof (Zdigits2_le N prec HN0 HN).
    subst f. rewrite Hd. unfold SpecFloat.fexp. lia. }
  assert (Hm2 : m2 = N * 2 ^ (- f)).
  { destruct Hcase as [[Hfe ->] | [Hfe [_ Hex]]].
    - rewrite HS, <- Z.mul_assoc, <- Z.pow_add_r by lia.
      do 2 f_equal. lia.
    - assert (Hsplit : Zpos S = N * 2 ^ (- f) * 2 ^ (f - ez)).
      { rewrite HS, <- Z.mul_assoc, <- Z.pow_add_r by lia.
        do 2 f_equal. lia. }
      rewrite Hex by (exists (N * 2 ^ (- f)); exact Hsplit).
      rewrite Hsplit. apply Z.div_mul.
      apply Z.pow_nonzero; lia. }
  assert (Hpf : 0 < 2 ^ (- f)) by (apply Z.pow_pos_nonneg; lia).
  destruct Hout as [[Hz _] | [m3 [e3 [He3 [Hm3 [Hc3 ->]]]]]]; [ nia | ].
  pose proof (canonical_digits prec emax m3 e3 Hc3) as [_ [_ Hdig]].
  assert (He30 : e3 <= 0).
  { destruct (Z_le_gt_dec e3 0) as [ | Hpos ]; [ assumption | exfalso ].
    specialize (Hdig ltac:(lia)).
    pose proof (digits2_bounds m3) as [Hlo3 _]. rewrite Hdig in Hlo3.
    assert (Hsplit : 2 ^ (e3 - f) = 2 ^ e3 * 2 ^ (- f))
      by (rewrite <- Z.pow_add_r by lia; f_equal; lia).
    assert (H2 : 2 ^ 1 <= 2 ^ e3) by (apply Z.pow_le_mono_r; lia).
    change (2 ^ 1) with 2 in H2.
    assert (Hpp : 2 * 2 ^ (prec - 1) = 2 ^ prec)
      by (rewrite <- Z.pow_succ_r by lia; f_equal; lia).
    rewrite Hm2, Hsplit in Hm3. nia. }
  replace (e3 <=? emax - prec) with true
    by (symmetry; apply Z.leb_le; lia).
  cbn [SFtrunc]. do 2 f_equal.
  rewrite Z.shiftl_div_pow2 by lia.
  assert (Hsplit : 2 ^ (- f) = 2 ^ (- e3) * 2 ^ (e3 - f))
    by (rewrite <- Z.pow_add_r by lia; f_equal; lia).
  assert (Hp3 : 0 < 2 ^ (e3 - f)) by (apply Z.pow_pos_nonneg; lia).
  assert (Hm3' : Zpos m3 = N * 2 ^ (- e3)) by (rewrite Hm2, Hsplit in Hm3; nia).
  rewrite Hm3'. apply Z.div_mul. apply Z.pow_nonzero; lia.
Qed.

(** Moving a number half-way between two integers by one half, away from
    zero, gives the farther integer exactly. *)
Lemma tie_plus_half (s : bool) (m mh : positive) (e k : Z) :
  prec <= emax -> 3 <= emax + prec ->
  bounded prec emax m e = true -> e < 0 -> 0 <= k ->
  Zpos m = (2 * k + 1) * 2 ^ (- e - 1) ->
  Zpos mh = 2 ^ (prec - 1) ->
  SFtrunc
    (if s
     then SFsub prec emax (S754_finite true m e)
                (S754_finite false mh (- prec))
     else SFadd prec emax (S754_finite false m e)
                (S754_finite false mh (- prec)))
  = Some (cond_Zopp s (k + 1)).
Proof.
  intros Hpe Hep Hb He Hk Hm Hmh.
  pose proof (bounded_canonical prec emax m e Hb) as [Hc _].
  pose proof (canonical_lt_pow prec emax Hprec m e Hc) as Hlt.
  set (ez := Z.min e (- prec)).
  destruct (shl_align_spec m e ez ltac:(subst ez; lia)) as [HM _].
  destruct (shl_align_spec mh (- prec) ez ltac:(subst ez; lia)) as [HMh _].
  assert (Hp1 : 0 < 2 ^ (- e - 1)) by (apply Z.pow_pos_nonneg; lia).
  assert (Hsum : Zpos (fst (shl_align m e ez))
                 + Zpos (fst (shl_align mh (- prec) ez))
                 = (k + 1) * 2 ^ (- ez)).
  { rewrite HM, HMh, Hm, Hmh.
    rewrite <- !Z.mul_assoc, <- !Z.pow_add_r by (subst ez; lia).
    replace (- e - 1 + (e - ez)) with (- ez - 1) by lia.
    replace (prec - 1 + (- prec - ez)) with (- ez - 1) by lia.
    replace (- ez) with (Z.succ (- ez - 1)) at 3 by lia.
    rewrite Z.pow_succ_r by (subst ez; lia). ring. }
  assert (HN : 0 < k + 1 < 2 ^ prec) by nia.
  destruct s; cbn [SFsub SFadd cond_Zopp]; fold ez.
  - destruct (Zpos (fst (shl_align m e ez))
              + Zpos (fst (shl_align mh (- prec) ez)))
      as [ | S | S ] eqn:ES; try lia.
    replace (- Zpos (fst (shl_align m e ez))
             - Zpos (fst (shl_align mh (- prec) ez))) with (Zneg S) by lia.
    cbn [binary_normalize].
    apply (binary_round_integer true S ez (k + 1)); try assumption.
    subst ez; lia.
  - destruct (Zpos (fst (shl_align m e ez))
              + Zpos (fst (shl_align mh (- prec) ez)))
      as [ | S | S ] eqn:ES; try lia.
    cbn [binary_normalize].
    apply (binary_round_integer false S ez (k + 1)); try assumption.
    subst ez; lia.
Qed.

End AddFacts.

(** ** Rounding to an integer *)

Lemma half_finite (T : fp_type) :
  exists mh, of_ratio T 1 2 = S754_finite false mh (- fprec T) /\
             Zpos mh = 2 ^ (fprec T - 1).
Proof. destruct T; eexists; split; reflexivity. Qed.

Lemma round_tie (use_sse : bool) (T : fp_type) (ty : int_type)
    (x : spec_float) (k : Z) :
  is_float T x = true -> half_way x k ->
  in_range ty (away_from_zero x k) ->
  (use_sse = true -> in_range Int32 (away_from_zero x k)) ->
  round use_sse T ty x = Some (away_from_zero x k).
Proof.
  intros Hv Hh Hty H32.
  destruct x as [s | s | | s m e]; try contradiction.
  destruct Hh as [He [Hk Hm]]. cbn [is_float valid_binary] in Hv.
  destruct (half_finite T) as [mh [Ehalf Hmh]].
  assert (Hpe : fprec T <= femax T /\ 3 <= femax T + fprec T)
    by (destruct T; cbn; lia).
  pose proof (tie_plus_half (fprec T) (femax T) (fprec_pos T) s m mh e k
                (proj1 Hpe) (proj2 Hpe) Hv He Hk Hm Hmh) as Htr.
  assert (Haway : away_from_zero (S754_finite s m e) k = cond_Zopp s (k + 1))
    by (destruct s; reflexivity).
  rewrite Haway in *.
  unfold round. rewrite Ehalf.
  replace (SFltb (S754_finite s m e) fzero) with s
    by (destruct s; reflexivity).
  unfold fsub, fadd.
  set (y := if s
            then SFsub (fprec T) (femax T) (S754_finite s m e)
                       (S754_finite false mh (- fprec T))
            else SFadd (fprec T) (femax T) (S754_finite s m e)
                       (S754_finite false mh (- fprec T))).
  assert (Hy : SFtrunc y = Some (cond_Zopp s (k + 1)))
    by (subst y; destruct s; exact Htr).
  assert (Hrange : forall t z, in_range t z -> in_rangeb t z = true).
  { intros t z [Hlo Hhi]. unfold in_rangeb.
    apply andb_true_iff. split; apply Z.leb_le; assumption. }
  destruct use_sse; unfold truncate, cvtt_si32, static_cast_int.
  - rewrite Hy, (Hrange Int32 _ (H32 eq_refl)), wrap_small by assumption.
    reflexivity.
  - rewrite Hy, (Hrange ty _ Hty). reflexivity.
Qed.

(** The sum that [round] truncates at a tie is the integer farther from
    zero, exactly. *)
Lemma round_tie_sum (T : fp_type) (x : spec_float) (k : Z) :
  is_float T x = true -> half_way x k ->
  exists y : spec_float,
    (forall (use_sse : bool) (ty : int_type),
       round use_sse T ty x = truncate use_sse ty y) /\
    SFtrunc y = Some (away_from_zero x k).
Proof.
  intros Hv Hh.
  destruct x as [s | s | | s m e]; try contradiction.
  destruct Hh as [He [Hk Hm]]. cbn [is_float valid_binary] in Hv.
  destruct (half_finite T) as [mh [Ehalf Hmh]].
  assert (Hpe : fprec T <= femax T /\ 3 <= femax T + fprec T)
    by (destruct T; cbn; lia).
  pose proof (tie_plus_half (fprec T) (femax T) (fprec_pos T) s m mh e k
                (proj1 Hpe) (proj2 Hpe) Hv He Hk Hm Hmh) as Htr.
  assert (Haway : away_from_zero (S754_finite s m e) k = cond_Zopp s (k + 1))
    by (destruct s; reflexivity).
  rewrite Haway.
  exists (if s
          then SFsub (fprec T) (femax T) (S754_finite s m e)
                     (S754_finite false mh (- fprec T))
          else SFadd (fprec T) (femax T) (S754_finite s m e)
                     (S754_finite false mh (- fprec T))).
  split.
  - intros use_sse ty. unfold round. rewrite Ehalf.
    replace (SFltb (S754_finite s m e) fzero) with s
      by (destruct s; reflexivity).
    destruct s; reflexivity.
  - destruct s; exact Htr.
Qed.

(** Past the 32-bit range the two builds part at every tie: for a [float]
    or [double] half-way between two integers whose farther one the target
    type holds but a 32-bit [int] does not, the portable path returns that
    integer and the SSE path returns the instruction's [0x80000000]
    converted to [Int]. *)
Lemma round_tie_past_int32 (T : fp_type) (ty : int_type) (x : spec_float)
    (k : Z) :
  is_float T x = true -> half_way x k ->
  in_range ty (away_from_zero x k) ->
  ~ in_range Int32 (away_from_zero x k) ->
  round false T ty x = Some (away_from_zero x k) /\
  round true T ty x = Some (wrap ty (- 2 ^ 31)).
Proof.
  intros Hv Hh Hty H32.
  destruct (round_tie_sum T x k Hv Hh) as [y [Hround Hy]].
  rewrite !Hround. unfold truncate, cvtt_si32, static_cast_int.
  rewrite Hy. split.
  - replace (in_rangeb ty (away_from_zero x k)) with true; [ reflexivity | ].
    symmetry. unfold in_rangeb. destruct Hty as [Hlo Hhi].
    apply andb_true_iff. split; apply Z.leb_le; assumption.
  - replace (in_rangeb Int32 (away_from_zero x k)) with false;
      [ reflexivity | ].
    symmetry. apply not_true_is_false. intros Hc. apply H32.
    unfold in_rangeb in Hc. apply andb_true_iff in Hc.
    destruct Hc as [Hlo Hhi].
    split; apply Z.leb_le; assumption.
Qed.

(** C8.  In a build with the SSE path [round<Int>(x)] does not round half
    away from zero once the result leaves the 32-bit range.  The [double]
    [2147483647.5] lies half-way between [2147483647] and [2147483648];
    the portable path of [round<int64>] returns [2147483648], the integer
    farther from zero, and the SSE path returns [-2147483648].  Likewise
    [round<int64>(-2147483648.5)] is [-2147483649] on the portable path and
    [-2147483648] on the SSE path. *)
Theorem round_sse_breaks_ties :
  (is_float Double (of_ratio Double 4294967295 2) = true /\
   half_way (of_ratio Double 4294967295 2) 2147483647 /\
   away_from_zero (of_ratio Double 4294967295 2) 2147483647 = 2147483648 /\
   in_range Int64 2147483648 /\
   round false Double Int64 (of_ratio Double 4294967295 2)
   = Some 2147483648 /\
   round true Double Int64 (of_ratio Double 4294967295 2)
   = Some (-2147483648))
  /\
  (is_float Double (SFopp (of_ratio Double 4294967297 2)) = true /\
   half_way (SFopp (of_ratio Double 4294967297 2)) 2147483648 /\
   away_from_zero (SFopp (of_ratio Double 4294967297 2)) 2147483648
   = -2147483649 /\
   in_range Int64 (-2147483649) /\
   round false Double Int64 (SFopp (of_ratio Double 4294967297 2))
   = Some (-2147483649) /\
   round true Double Int64 (SFopp (of_ratio Double 4294967297 2))
   = Some (-2147483648)).
Proof. vm_compute. repeat split; discriminate. Qed.

(** Where the result fits, [round<Int>(x)] sends a tie away from zero:
    every [float] or [double] half-way between two integers goes to the
    one farther from zero when the target type holds it and, in a build
    with the SSE path, a 32-bit [int] holds it too.  [round<int>(2.5)] is
    [3] and [round<int>(-2.5)] is [-3] in both builds. *)
Theorem round_ties_away :
  (forall (use_sse : bool) (T : fp_type) (ty : int_type) (x : spec_float)
          (k : Z),
     is_float T x = true -> half_way x k ->
     in_range ty (away_from_zero x k) ->
     (use_sse = true -> in_range Int32 (away_from_zero x k)) ->
     round use_sse T ty x = Some (away_from_zero x k))
  /\
  (forall (use_sse : bool) (T : fp_type),
     round use_sse T Int32 (of_ratio T 5 2) = Some 3 /\
     round use_sse T Int32 (SFopp (of_ratio T 5 2)) = Some (-3)).
Proof.
  split.
  - intros use_sse T ty x k. apply round_tie.
  - intros [ | ] [ | ]; vm_compute; split; reflexivity.
Qed.

Lemma round_ties_away_witness :
  round false Double Int32 (of_ratio Double 2469135 2) = Some 1234568 /\
  round true Float Int8 (SFopp (of_ratio Float 1 2)) = Some (-1).
Proof.
  split.
  - apply (proj1 round_ties_away false Double Int32
             (of_ratio Double 2469135 2) 1234567).
    + reflexivity.
    + vm_compute. repeat split; discriminate.
    + vm_compute. split; discriminate.
    + discriminate.
  - apply (proj1 round_ties_away true Float Int8
             (SFopp (of_ratio Float 1 2)) 0).
    + reflexivity.
    + vm_compute. repeat split; discriminate.
    + vm_compute. split; discriminate.
    + intros _. vm_compute. split; discriminate.
Defined.

(** Away from the ties the sum [x + 0.5] is itself rounded before it is
    truncated, and the result is not always the integer nearest to [x]:
    [round<int>(8388609.0f)] is [8388610] although the argument is the
    integer [8388609], and [round<int>(0.49999999999999994)] is [1]
    although the argument is below one half. *)
Lemma round_not_nearest :
  let xf := of_Z Float 8388609 in
  let xd := S754_finite false 9007199254740991 (-54) in
  (is_float Float xf = true /\ SFtrunc xf = Some 8388609 /\
   fadd Float xf (of_ratio Float 1 2) = of_Z Float 8388610 /\
   round false Float Int32 xf = Some 8388610 /\
   round true Float Int32 xf = Some 8388610) /\
  (is_float Double xd = true /\
   xd = of_ratio Double 49999999999999994 100000000000000000 /\
   SFltb xd (of_ratio Double 1 2) = true /\
   fadd Double xd (of_ratio Double 1 2) = fone Double /\
   round false Double Int32 xd = Some 1 /\
   round true Double Int32 xd = Some 1).
Proof. vm_compute. repeat split; reflexivity. Qed.

(** ** Modulo *)

Lemma int_min_nonpos (ty : int_type) : int_min ty <= 0.
Proof. destruct ty; vm_compute; discriminate. Qed.

Lemma mod_int_range (ty : int_type) (a n : Z) :
  in_range ty a -> in_range ty n -> 0 < n ->
  mod_int ty a n = (if Z.rem a n <? 0 then n + Z.rem a n else Z.rem a n) /\
  mod_int ty a n = a mod n /\
  0 <= mod_int ty a n < n.
Proof.
  intros Ha Hn Hpos. unfold mod_int.
  assert (Hrem : Z.rem a n = a - n * (a ÷ n))
    by (pose proof (Z.quot_rem' a n); lia).
  assert (Hbound : - n < Z.rem a n < n).
  { pose proof (Z.rem_bound_abs a n ltac:(lia)). lia. }
  pose proof (Z.mod_pos_bound a n Hpos) as Hmod.
  pose proof (int_min_nonpos ty) as Hmin.
  destruct (Z.ltb_spec (Z.rem a n) 0) as [Hneg | Hnn].
  - rewrite wrap_small by (unfold in_range in *; lia).
    split; [ reflexivity | ]. split; [ | lia ].
    apply (Z.mod_unique_pos a n (a ÷ n - 1)); lia.
  - split; [ reflexivity | ]. split; [ | lia ].
    apply (Z.mod_unique_pos a n (a ÷ n)); lia.
Qed.

Lemma mod_fp_range (T : fp_type) (a n : spec_float) :
  is_float T a = true -> is_float T n = true ->
  is_finite a = true -> SFltb fzero n = true ->
  SFleb fzero (mod_fp T a n) = true /\ SFleb (mod_fp T a n) n = true.
Proof.
  intros Ha Hn Hfin Hpos. unfold mod_fp, ffmod, fadd, is_float in *.
  pose proof (fprec_pos T) as Hp. pose proof (fprec_lt_femax T) as He.
  destruct n as [sn | [ | ] | | [ | ] mn en]; try discriminate;
    destruct a as [sa | sa | | sa ma ea]; try discriminate;
    cbn [valid_binary] in Ha, Hn.
  - (* a zero, n infinite *) destruct sa; split; reflexivity.
  - (* a finite, n infinite *) destruct sa; split; reflexivity.
  - (* a zero, n finite *) destruct sa; split; reflexivity.
  - (* a and n finite *)
    destruct (SFfmod_finite (fprec T) (femax T) Hp sa ma mn ea en Ha Hn)
      as [-> | [mr [er [-> [Hr [Her Hlt]]]]]].
    + destruct sa; split; reflexivity.
    + destruct sa.
      * change (SFltb (S754_finite true mr er) fzero) with true. cbv iota.
        apply SFadd_neg_smaller; assumption.
      * change (SFltb (S754_finite false mr er) fzero) with false. cbv iota.
        apply (round_outcome_le (fprec T) (femax T) Hp (Zpos mr) er mn en);
          try assumption; [ | lia ].
        right. exists mr, er. rewrite Z.sub_diag, Z.mul_1_r.
        apply bounded_canonical in Hr. destruct Hr as [Hc Hle].
        repeat split; try lia; try assumption.
        replace (er <=? femax T - fprec T) with true
          by (symmetry; apply Z.leb_le; lia).
        reflexivity.
Qed.

(** C4, as stated, fails for the floating-point types: with
    [a = -1e-20] and [n = 3.0] the remainder is [-1e-20], and [n + m]
    rounds to [3.0], which is not below [n]; with an infinite [a] the
    result is a NaN. *)
Lemma mod_fp_reaches_n :
  let a := SFopp (of_ratio Double 1 100000000000000000000) in
  let n := of_Z Double 3 in
  is_float Double a = true /\ is_float Double n = true /\
  SFltb fzero n = true /\
  mod_fp Double a n = n /\
  SFltb (mod_fp Double a n) n = false /\
  mod_fp Double (S754_infinity false) n = S754_nan.
Proof. vm_compute. repeat split; reflexivity. Qed.

(** C4, amended.  For every [a] and [n > 0] of an integer type, [mod(a, n)]
    is the remainder [a % n], plus [n] when that is negative, and lies in
    [0, n).  For every finite [a] and [n > 0] of a floating-point type,
    [mod(a, n)] lies in [0, n], both ends included.  [mod(-1.0, 3.0)] is
    [2.0] and [mod(5, 3)] is [2]. *)
Theorem mod_range :
  (forall (ty : int_type) (a n : Z),
     in_range ty a -> in_range ty n -> 0 < n ->
     mod_int ty a n
     = (if Z.rem a n <? 0 then n + Z.rem a n else Z.rem a n) /\
     0 <= mod_int ty a n < n) /\
  (forall (T : fp_type) (a n : spec_float),
     is_float T a = true -> is_float T n = true ->
     is_finite a = true -> SFltb fzero n = true ->
     mod_fp T a n
     = (if SFltb (ffmod T a n) fzero then fadd T n (ffmod T a n)
        else ffmod T a n) /\
     SFleb fzero (mod_fp T a n) = true /\
     SFleb (mod_fp T a n) n = true) /\
  (forall T : fp_type,
     mod_fp T (SFopp (fone T)) (of_Z T 3) = of_Z T 2) /\
  (forall ty : int_type, mod_int ty 5 3 = 2).
Proof.
  split; [ | split; [ | split ] ].
  - intros ty a n Ha Hn Hpos.
    pose proof (mod_int_range ty a n Ha Hn Hpos) as [Heq [_ Hr]].
    split; assumption.
  - intros T a n Ha Hn Hfin Hpos. split; [ reflexivity | ].
    apply mod_fp_range; assumption.
  - intros [ | ]; vm_compute; reflexivity.
  - intros ty; destruct ty; reflexivity.
Qed.

(** The amended C4 at [mod(-7, 3)] and at [mod(-1e-20, 3.0)]. *)
Lemma mod_range_witness :
  (0 <= mod_int Int32 (-7) 3 < 3) /\
  SFleb (mod_fp Double (SFopp (of_ratio Double 1 100000000000000000000))
           (of_Z Double 3)) (of_Z Double 3) = true.
Proof.
  split.
  - apply (proj1 mod_range Int32 (-7) 3);
      [ vm_compute; split; discriminate
      | vm_compute; split; discriminate | reflexivity ].
  - apply (proj1 (proj2 mod_range) Double); reflexivity.
Defined.

(** ** Values as real numbers *)

Section RealValues.

Local Open Scope R_scope.

Lemma bpow2_pos (e : Z) : 0 < bpow2 e.
Proof. apply powerRZ_lt. lra. Qed.

Lemma bpow2_add (e1 e2 : Z) : bpow2 (e1 + e2) = bpow2 e1 * bpow2 e2.
Proof. apply powerRZ_add. lra. Qed.

Lemma bpow2_IZR (e : Z) : (0 <= e)%Z -> bpow2 e = IZR (2 ^ e).
Proof.
  intros He. unfold bpow2.
  rewrite <- (Z2Nat.id e He) at 2. rewrite <- pow_IZR.
  rewrite <- (Z2Nat.id e He) at 1. symmetry. apply pow_powerRZ.
Qed.

Lemma bpow2_0 : bpow2 0 = 1.
Proof. reflexivity. Qed.

(** Moving a power of two between significand and exponent. *)
Lemma F2R_shift (m e k : Z) :
  (0 <= k)%Z -> F2R (m * 2 ^ k) e = F2R m (e + k).
Proof.
  intros Hk. unfold F2R.
  rewrite mult_IZR, <- bpow2_IZR, bpow2_add by assumption. ring.
Qed.

Lemma F2R_le (m1 m2 e : Z) : (m1 <= m2)%Z -> F2R m1 e <= F2R m2 e.
Proof.
  intros H. unfold F2R. apply Rmult_le_compat_r.
  - left. apply bpow2_pos.
  - apply IZR_le. assumption.
Qed.

Lemma F2R_lt (m1 m2 e : Z) : (m1 < m2)%Z -> F2R m1 e < F2R m2 e.
Proof.
  intros H. unfold F2R. apply Rmult_lt_compat_r.
  - apply bpow2_pos.
  - apply IZR_lt. assumption.
Qed.

Lemma F2R_lt_inv (m1 m2 e : Z) : F2R m1 e < F2R m2 e -> (m1 < m2)%Z.
Proof.
  intros H. apply lt_IZR. unfold F2R in H.
  apply Rmult_lt_reg_r in H; [ assumption | apply bpow2_pos ].
Qed.

Lemma F2R_le_inv (m1 m2 e : Z) : F2R m1 e <= F2R m2 e -> (m1 <= m2)%Z.
Proof.
  intros H. apply le_IZR. unfold F2R in H.
  apply Rmult_le_reg_r in H; [ assumption | apply bpow2_pos ].
Qed.

(** Two values compare as their significands aligned to a common
    exponent do. *)
Lemma F2R_align (m e g : Z) :
  (g <= e)%Z -> F2R m e = F2R (m * 2 ^ (e - g)) g.
Proof.
  intros H. rewrite F2R_shift by lia. f_equal. lia.
Qed.

Lemma F2R_mul (m1 e1 m2 e2 : Z) :
  F2R m1 e1 * F2R m2 e2 = F2R (m1 * m2) (e1 + e2).
Proof. unfold F2R. rewrite mult_IZR, bpow2_add. ring. Qed.

Lemma F2R_pos (m e : Z) : (0 < m)%Z -> 0 < F2R m e.
Proof.
  intros H. unfold F2R. apply Rmult_lt_0_compat.
  - apply IZR_lt. assumption.
  - apply bpow2_pos.
Qed.

End RealValues.

(** ** Comparisons read on the real values *)

Section RealCompare.

Variables prec emax : Z.
Hypothesis Hprec : 0 < prec.

Local Open Scope R_scope.

Lemma SFltb_of_Rlt (m1 m2 : positive) (e1 e2 : Z) :
  canonical_mantissa prec emax m1 e1 = true ->
  canonical_mantissa prec emax m2 e2 = true ->
  F2R (Zpos m1) e1 < F2R (Zpos m2) e2 ->
  SFltb (S754_finite false m1 e1) (S754_finite false m2 e2) = true.
Proof.
  intros H1 H2 Hlt. unfold SFltb. rewrite SFcompare_finite_pos.
  set (g := Z.min e1 e2).
  rewrite (F2R_align (Zpos m1) e1 g), (F2R_align (Zpos m2) e2 g) in Hlt
    by (subst g; lia).
  apply F2R_lt_inv in Hlt.
  destruct (Z.compare_spec e1 e2) as [He | He | He].
  - subst e2. destruct (Pos.compare_spec m1 m2) as [Hm | Hm | Hm];
      try reflexivity; exfalso.
    + subst m2. lia.
    + assert (0 < 2 ^ (e1 - g))%Z by (apply Z.pow_pos_nonneg; subst g; lia).
      nia.
  - reflexivity.
  - exfalso.
    pose proof (canonical_lex_lt prec emax Hprec m2 m1 e2 e1 g H2 H1
                  ltac:(subst g; lia) ltac:(subst g; lia)
                  ltac:(left; lia)). lia.
Qed.

Lemma SFltb_false_of_Rle (m1 m2 : positive) (e1 e2 : Z) :
  canonical_mantissa prec emax m1 e1 = true ->
  canonical_mantissa prec emax m2 e2 = true ->
  F2R (Zpos m2) e2 <= F2R (Zpos m1) e1 ->
  SFltb (S754_finite false m1 e1) (S754_finite false m2 e2) = false.
Proof.
  intros H1 H2 Hle. unfold SFltb. rewrite SFcompare_finite_pos.
  set (g := Z.min e1 e2).
  rewrite (F2R_align (Zpos m1) e1 g), (F2R_align (Zpos m2) e2 g) in Hle
    by (subst g; lia).
  apply F2R_le_inv in Hle.
  destruct (Z.compare_spec e1 e2) as [He | He | He].
  - subst e2. destruct (Pos.compare_spec m1 m2) as [Hm | Hm | Hm];
      try reflexivity; exfalso.
    assert (0 < 2 ^ (e1 - g))%Z by (apply Z.pow_pos_nonneg; subst g; lia).
    nia.
  - exfalso.
    pose proof (canonical_lex_lt prec emax Hprec m1 m2 e1 e2 g H1 H2
                  ltac:(subst g; lia) ltac:(subst g; lia)
                  ltac:(left; lia)). lia.
  - reflexivity.
Qed.

End RealCompare.

(** ** Rounding error of multiplication and division *)

Section RealRound.

Variables prec emax : Z.
Hypothesis Hprec : 0 < prec.

Local Notation "'emin'" := (SpecFloat.emin prec emax).
Local Notation "'fexp'" := (SpecFloat.fexp prec emax).

Local Open Scope R_scope.

(** Rounding a significand of at least [prec] digits that stays above the
    subnormal range: the result is the canonical form of a normal number (or
    an infinity when its exponent is too large) within one unit in the last
    place of the exact value [X], which [m * 2^e] approximates from
    below. *)
Lemma round_normal (s : bool) (m e : Z) (l : location) (X : R) :
  (0 < m)%Z -> (prec <= Zdigits2 m)%Z ->
  (emin <= Zdigits2 m + e - prec)%Z ->
  F2R m e <= X < F2R (m + 1) e ->
  exists (m3 : positive) (e3 : Z),
    binary_round_aux prec emax s m e l
    = (if (e3 <=? emax - prec)%Z then S754_finite s m3 e3
       else S754_infinity s) /\
    canonical_mantissa prec emax m3 e3 = true /\
    Zpos (digits2_pos m3) = prec /\
    (Zdigits2 m + e - prec <= e3 <= Zdigits2 m + e - prec + 1)%Z /\
    rel_close prec (F2R (Zpos m3) e3) X.
Proof.
  intros Hm Hd Hnorm [HXlo HXhi].
  assert (He1 : fexp (Zdigits2 m + e) = (Zdigits2 m + e - prec)%Z)
    by (unfold SpecFloat.fexp; lia).
  destruct (binary_round_aux_spec prec emax Hprec s m e l Hm ltac:(lia))
    as [m2 [Hcase [_ Hout]]].
  rewrite He1 in Hcase, Hout.
  set (e1 := (Zdigits2 m + e - prec)%Z) in *.
  set (k := (e1 - e)%Z) in *.
  assert (Hk : (0 <= k)%Z) by (subst k e1; lia).
  set (m1 := (m / 2 ^ k)%Z) in *.
  destruct (Zdigits2_div_pow2 m k Hm Hk ltac:(subst k e1; lia))
    as [Hm1pos Hdm1].
  fold m1 in Hm1pos, Hdm1.
  replace (Zdigits2 m - k)%Z with prec in Hdm1 by (subst k e1; lia).
  pose proof (Zdigits2_bounds m1 Hm1pos) as [Hm1lo Hm1hi].
  rewrite Hdm1 in Hm1lo, Hm1hi.
  assert (Hpk : (0 < 2 ^ k)%Z) by (apply Z.pow_pos_nonneg; lia).
  assert (Hfloor : (m1 * 2 ^ k <= m < (m1 + 1) * 2 ^ k)%Z).
  { subst m1. pose proof (Z.div_mod m (2 ^ k) ltac:(lia)).
    pose proof (Z.mod_pos_bound m (2 ^ k) Hpk). nia. }
  destruct Hout as [[Hz _] | [m3 [e3 [He3 [Hm3 [Hc3 Hr]]]]]]; [ lia | ].
  pose proof (canonical_digits prec emax m3 e3 Hc3) as [Hemin [_ Hdig]].
  assert (Hpp : (2 * 2 ^ (prec - 1) = 2 ^ prec)%Z)
    by (rewrite <- Z.pow_succ_r by lia; f_equal; lia).
  assert (He3' : (e3 <= e1 + 1)%Z).
  { destruct (Z_le_gt_dec e3 (e1 + 1)) as [ | Hgt ]; [ assumption | ].
    exfalso.
    assert (Hemin1 : (emin <= e1)%Z) by (subst e1; lia).
    specialize (Hdig ltac:(lia)).
    pose proof (digits2_bounds m3) as [Hlo3 _]. rewrite Hdig in Hlo3.
    assert ((2 ^ 2 <= 2 ^ (e3 - e1))%Z) by (apply Z.pow_le_mono_r; lia).
    change (2 ^ 2)%Z with 4%Z in *. nia. }
  exists m3, e3. split; [ assumption | ]. split; [ assumption | ].
  split; [ | split; [ lia | ] ].
  - destruct (Z_lt_le_dec emin e3) as [Hlt | Hge]; [ auto | ].
    assert (e3 = e1) by (subst e1; lia). subst e3.
    rewrite Z.sub_diag, Z.mul_1_r in Hm3.
    apply digits2_unique. split; [ lia | ].
    apply (canonical_lt_pow prec emax Hprec m3 e1 Hc3).
  - unfold rel_close.
    assert (Hv : F2R (Zpos m3) e3 = F2R m2 e1).
    { rewrite (F2R_align (Zpos m3) e3 e1) by lia. rewrite Hm3.
      reflexivity. }
    rewrite Hv.
    assert (HX1 : F2R m1 e1 <= X).
    { apply Rle_trans with (F2R m e); [ | assumption ].
      replace e1 with (e + k)%Z by (subst k; lia).
      rewrite <- F2R_shift by assumption. apply F2R_le. lia. }
    assert (HX2 : X < F2R (m1 + 1) e1).
    { apply Rlt_le_trans with (F2R (m + 1) e); [ assumption | ].
      replace e1 with (e + k)%Z by (subst k; lia).
      rewrite <- F2R_shift by assumption. apply F2R_le. lia. }
    unfold F2R in HX1, HX2 |- *.
    set (G := bpow2 e1) in *.
    assert (HG : 0 < G) by apply bpow2_pos.
    assert (Hu : bpow2 (1 - prec) * bpow2 (prec - 1) = 1).
    { rewrite <- bpow2_add. replace (1 - prec + (prec - 1))%Z with 0%Z
        by lia. reflexivity. }
    assert (HP : bpow2 (prec - 1) <= IZR m1).
    { rewrite bpow2_IZR by lia. apply IZR_le. assumption. }
    pose proof (bpow2_pos (1 - prec)) as Hupos.
    pose proof (bpow2_pos (prec - 1)) as HPpos.
    set (u := bpow2 (1 - prec)) in *. set (P := bpow2 (prec - 1)) in *.
    assert (HGu : G <= u * X).
    { apply Rle_trans with (u * (IZR m1 * G)).
      - replace G with ((u * P) * G) at 1 by (rewrite Hu; ring).
        rewrite Rmult_assoc. apply Rmult_le_compat_l; [ lra | ].
        apply Rmult_le_compat_r; lra.
      - apply Rmult_le_compat_l; lra. }
    rewrite plus_IZR in HX2.
    destruct Hcase as [-> | ->]; [ | rewrite plus_IZR ]; lra.
Qed.

(** The product of two normal numbers, where it stays above the subnormal
    range. *)
Lemma SFmul_normal (sx sy : bool) (mx my : positive) (ex ey : Z) :
  Zpos (digits2_pos mx) = prec -> Zpos (digits2_pos my) = prec ->
  (emin <= prec - 1 + ex + ey)%Z ->
  exists (m3 : positive) (e3 : Z),
    SFmul prec emax (S754_finite sx mx ex) (S754_finite sy my ey)
    = (if (e3 <=? emax - prec)%Z then S754_finite (xorb sx sy) m3 e3
       else S754_infinity (xorb sx sy)) /\
    canonical_mantissa prec emax m3 e3 = true /\
    Zpos (digits2_pos m3) = prec /\
    (prec - 1 + ex + ey <= e3 <= prec + 1 + ex + ey)%Z /\
    rel_close prec (F2R (Zpos m3) e3) (F2R (Zpos mx) ex * F2R (Zpos my) ey).
Proof.
  intros Hdx Hdy Hnorm. cbn [SFmul].
  pose proof (digits2_bounds mx) as [Hxlo Hxhi].
  pose proof (digits2_bounds my) as [Hylo Hyhi].
  rewrite Hdx in Hxlo, Hxhi. rewrite Hdy in Hylo, Hyhi.
  assert (Hplo : (0 < 2 ^ (prec - 1))%Z) by (apply Z.pow_pos_nonneg; lia).
  assert (Hlo : (2 ^ (2 * prec - 1 - 1) <= Zpos (mx * my))%Z).
  { replace (2 * prec - 1 - 1)%Z with ((prec - 1) + (prec - 1))%Z by lia.
    rewrite Z.pow_add_r, Pos2Z.inj_mul by lia. nia. }
  assert (Hhi : (Zpos (mx * my) < 2 ^ (2 * prec))%Z).
  { replace (2 * prec)%Z with (prec + prec)%Z by lia.
    rewrite Z.pow_add_r, Pos2Z.inj_mul by lia. nia. }
  set (m := Zpos (mx * my)) in *.
  assert (Hd : (2 * prec - 1 <= Zdigits2 m <= 2 * prec)%Z).
  { pose proof (Zdigits2_bounds m ltac:(subst m; lia)) as [Hdlo Hdhi].
    split.
    - destruct (Z_lt_le_dec (Zdigits2 m) (2 * prec - 1)) as [Hc | ];
        [ | assumption ].
      assert (2 ^ Zdigits2 m <= 2 ^ (2 * prec - 1 - 1))%Z
        by (apply Z.pow_le_mono_r; lia). lia.
    - destruct (Z_lt_le_dec (2 * prec) (Zdigits2 m)) as [Hc | ];
        [ | assumption ].
      assert (2 ^ (2 * prec) <= 2 ^ (Zdigits2 m - 1))%Z
        by (apply Z.pow_le_mono_r; lia). lia. }
  destruct (round_normal (xorb sx sy) m (ex + ey) loc_Exact (F2R m (ex + ey)))
    as [m3 [e3 [Hr [Hc [Hdig [He Hrel]]]]]];
    try lia.
  { split; [ apply Rle_refl | apply F2R_lt; lia ]. }
  exists m3, e3. repeat split; try assumption; try lia.
  - rewrite F2R_mul. subst m. rewrite <- Pos2Z.inj_mul. apply Hrel.
  - rewrite F2R_mul. subst m. rewrite <- Pos2Z.inj_mul. apply Hrel.
Qed.

(** The quotient of two normal numbers, where it stays above the subnormal
    range. *)
Lemma SFdiv_normal (sx sy : bool) (mx my : positive) (ex ey : Z) :
  Zpos (digits2_pos mx) = prec -> Zpos (digits2_pos my) = prec ->
  (emin <= ex - ey - prec)%Z ->
  exists (m3 : positive) (e3 : Z),
    SFdiv prec emax (S754_finite sx mx ex) (S754_finite sy my ey)
    = (if (e3 <=? emax - prec)%Z then S754_finite (xorb sx sy) m3 e3
       else S754_infinity (xorb sx sy)) /\
    canonical_mantissa prec emax m3 e3 = true /\
    Zpos (digits2_pos m3) = prec /\
    (ex - ey - prec <= e3 <= ex - ey - prec + 2)%Z /\
    rel_close prec (F2R (Zpos m3) e3) (F2R (Zpos mx) ex / F2R (Zpos my) ey).
Proof.
  intros Hdx Hdy Hnorm. cbn [SFdiv]. unfold SFdiv_core_binary.
  cbn [Zdigits2]. rewrite Hdx, Hdy.
  replace (prec + ex - (prec + ey))%Z with (ex - ey)%Z by lia.
  assert (Hfe : fexp (ex - ey) = (ex - ey - prec)%Z)
    by (unfold SpecFloat.fexp; lia).
  rewrite Hfe.
  replace (Z.min (ex - ey - prec) (ex - ey)) with (ex - ey - prec)%Z by lia.
  replace (ex - ey - (ex - ey - prec))%Z with prec by lia.
  set (e' := (ex - ey - prec)%Z) in *.
  assert (Hm' : match prec with
                | Zpos _ => Z.shiftl (Zpos mx) prec
                | 0%Z => Zpos mx
                | Zneg _ => 0%Z
                end = (Zpos mx * 2 ^ prec)%Z).
  { destruct prec; try lia. apply Z.shiftl_mul_pow2. lia. }
  rewrite Hm'. clear Hm'.
  pose proof (digits2_bounds mx) as [Hxlo Hxhi].
  pose proof (digits2_bounds my) as [Hylo Hyhi].
  rewrite Hdx in Hxlo, Hxhi. rewrite Hdy in Hylo, Hyhi.
  assert (Hpp : (2 * 2 ^ (prec - 1) = 2 ^ prec)%Z)
    by (rewrite <- Z.pow_succ_r by lia; f_equal; lia).
  assert (Hplo : (0 < 2 ^ (prec - 1))%Z) by (apply Z.pow_pos_nonneg; lia).
  pose proof (Z_div_mod (Zpos mx * 2 ^ prec) (Zpos my) ltac:(lia)) as Hdm.
  destruct (Z.div_eucl (Zpos mx * 2 ^ prec) (Zpos my)) as [q r].
  destruct Hdm as [Hq Hr].
  assert (Hqlo : (2 ^ (prec - 1) <= q)%Z) by nia.
  assert (Hqhi : (q < 2 ^ (prec + 1))%Z)
    by (rewrite Z.pow_add_r by lia; change (2 ^ 1)%Z with 2%Z; nia).
  assert (Hdq : (prec <= Zdigits2 q <= prec + 1)%Z).
  { pose proof (Zdigits2_bounds q ltac:(lia)) as [Hdlo Hdhi].
    split.
    - destruct (Z_lt_le_dec (Zdigits2 q) prec) as [Hc | ];
        [ | assumption ].
      assert (2 ^ Zdigits2 q <= 2 ^ (prec - 1))%Z
        by (apply Z.pow_le_mono_r; lia). lia.
    - destruct (Z_lt_le_dec (prec + 1) (Zdigits2 q)) as [Hc | ];
        [ | assumption ].
      assert (2 ^ (prec + 1) <= 2 ^ (Zdigits2 q - 1))%Z
        by (apply Z.pow_le_mono_r; lia). lia. }
  pose proof (F2R_pos (Zpos my) ey ltac:(lia)) as HY.
  assert (Hnum : F2R (Zpos mx) ex = F2R (Zpos mx * 2 ^ prec) (e' + ey)).
  { rewrite F2R_shift by lia. f_equal. subst e'. lia. }
  destruct (round_normal (xorb sx sy) q e' (new_location (Zpos my) r)
              (F2R (Zpos mx) ex / F2R (Zpos my) ey))
    as [m3 [e3 [Hres [Hc [Hdig [He Hrel]]]]]];
    try lia.
  { split.
    - apply Rmult_le_reg_r with (F2R (Zpos my) ey); [ assumption | ].
      unfold Rdiv. rewrite Rmult_assoc, Rinv_l, Rmult_1_r by lra.
      rewrite F2R_mul, Hnum. apply F2R_le. nia.
    - apply Rmult_lt_reg_r with (F2R (Zpos my) ey); [ assumption | ].
      unfold Rdiv. rewrite Rmult_assoc, Rinv_l, Rmult_1_r by lra.
      rewrite F2R_mul, Hnum. apply F2R_lt. nia. }
  exists m3, e3. repeat split; try assumption; try lia; apply Hrel.
Qed.

End RealRound.

(** ** Round trips through a pair of reciprocal constants *)

Lemma fp_params (T : fp_type) :
  (fprec T = 24 /\ femax T = 128) \/ (fprec T = 53 /\ femax T = 1024).
Proof. destruct T; [ left | right ]; split; reflexivity. Qed.

Section RealChain.

Local Open Scope R_scope.

(** Three operations, each within the relative distance [u]: a product by
    [c1], a product by [c2], and the quotient by the starting value. *)
Lemma round_trip_chain (u c1 c2 vx vy vz vq : R) :
  0 < u < 1 -> 0 < c1 -> 0 < c2 -> 0 < vx ->
  (1 - u) * (vx * c1) <= vy <= (1 + u) * (vx * c1) ->
  (1 - u) * (vy * c2) <= vz <= (1 + u) * (vy * c2) ->
  (1 - u) * (vz / vx) <= vq <= (1 + u) * (vz / vx) ->
  ((1 - u) * ((1 - u) * (c1 * c2))) * vx <= vz /\
  vz <= ((1 + u) * ((1 + u) * (c1 * c2))) * vx /\
  (1 - u) * ((1 - u) * ((1 - u) * (c1 * c2))) <= vq /\
  vq <= (1 + u) * ((1 + u) * ((1 + u) * (c1 * c2))).
Proof.
  intros Hu Hc1 Hc2 Hx [Hy1 Hy2] [Hz1 Hz2] [Hq1 Hq2].
  assert (Hzlo : ((1 - u) * ((1 - u) * (c1 * c2))) * vx <= vz).
  { apply Rle_trans with ((1 - u) * (vy * c2)); [ | assumption ].
    replace ((1 - u) * ((1 - u) * (c1 * c2)) * vx)
      with ((1 - u) * (((1 - u) * (vx * c1)) * c2)) by ring.
    apply Rmult_le_compat_l; [ lra | ].
    apply Rmult_le_compat_r; lra. }
  assert (Hzhi : vz <= ((1 + u) * ((1 + u) * (c1 * c2))) * vx).
  { apply Rle_trans with ((1 + u) * (vy * c2)); [ assumption | ].
    replace ((1 + u) * ((1 + u) * (c1 * c2)) * vx)
      with ((1 + u) * (((1 + u) * (vx * c1)) * c2)) by ring.
    apply Rmult_le_compat_l; [ lra | ].
    apply Rmult_le_compat_r; lra. }
  assert (Hix : 0 < / vx) by (apply Rinv_0_lt_compat; assumption).
  assert (Hqlo : (1 - u) * ((1 - u) * (c1 * c2)) <= vz / vx).
  { replace ((1 - u) * ((1 - u) * (c1 * c2)))
      with (((1 - u) * ((1 - u) * (c1 * c2)) * vx) / vx)
      by (field; lra).
    unfold Rdiv. apply Rmult_le_compat_r; lra. }
  assert (Hqhi : vz / vx <= (1 + u) * ((1 + u) * (c1 * c2))).
  { replace ((1 + u) * ((1 + u) * (c1 * c2)))
      with (((1 + u) * ((1 + u) * (c1 * c2)) * vx) / vx)
      by (field; lra).
    unfold Rdiv. apply Rmult_le_compat_r; lra. }
  repeat split; try assumption.
  - apply Rle_trans with ((1 - u) * (vz / vx)); [ | assumption ].
    apply Rmult_le_compat_l; lra.
  - apply Rle_trans with ((1 + u) * (vz / vx)); [ assumption | ].
    apply Rmult_le_compat_l; lra.
Qed.

(** The quotient of the starting value by the result of the two products,
    itself within the relative distance [u], against two bounds [lo] and
    [hi]. *)
Lemma round_trip_chain_rev (u C vx vz vq lo hi : R) :
  0 < u < 1 -> 0 < C -> 0 < vx -> 0 < vz -> 0 <= lo -> 0 <= hi ->
  ((1 - u) * ((1 - u) * C)) * vx <= vz ->
  vz <= ((1 + u) * ((1 + u) * C)) * vx ->
  (1 - u) * (vx / vz) <= vq <= (1 + u) * (vx / vz) ->
  lo * ((1 + u) * ((1 + u) * C)) < 1 - u ->
  1 + u < hi * ((1 - u) * ((1 - u) * C)) ->
  lo < vq < hi.
Proof.
  intros Hu HC Hx Hz Hlo0 Hhi0 Hz1 Hz2 [Hq1 Hq2] Hlo Hhi.
  set (r := vx / vz) in *.
  assert (Hr : 0 < r) by (apply Rdiv_lt_0_compat; assumption).
  assert (Hzr : vz * r = vx) by (unfold r; field; lra).
  set (K1 := (1 - u) * ((1 - u) * C)) in *.
  set (K2 := (1 + u) * ((1 + u) * C)) in *.
  assert (HK1 : 0 < K1)
    by (unfold K1; repeat apply Rmult_lt_0_compat; lra).
  assert (HK2 : 0 < K2)
    by (unfold K2; repeat apply Rmult_lt_0_compat; lra).
  assert (H1 : 1 <= K2 * r).
  { apply Rmult_le_reg_l with vz; [ assumption | ].
    rewrite Rmult_1_r.
    replace (vz * (K2 * r)) with (K2 * (vz * r)) by ring.
    rewrite Hzr. assumption. }
  assert (H2 : K1 * r <= 1).
  { apply Rmult_le_reg_l with vz; [ assumption | ].
    rewrite Rmult_1_r.
    replace (vz * (K1 * r)) with (K1 * (vz * r)) by ring.
    rewrite Hzr. assumption. }
  split.
  - apply Rle_lt_trans with (lo * (K2 * r)).
    + rewrite <- (Rmult_1_r lo) at 1. apply Rmult_le_compat_l; assumption.
    + apply Rlt_le_trans with ((1 - u) * r); [ | assumption ].
      replace (lo * (K2 * r)) with ((lo * K2) * r) by ring.
      apply Rmult_lt_compat_r; assumption.
  - apply Rle_lt_trans with ((1 + u) * r); [ assumption | ].
    apply Rlt_le_trans with ((hi * K1) * r).
    + apply Rmult_lt_compat_r; assumption.
    + replace (hi * K1 * r) with (hi * (K1 * r)) by ring.
      rewrite <- (Rmult_1_r hi) at 2. apply Rmult_le_compat_l; assumption.
Qed.

End RealChain.

Section RoundTrip.

Variable T : fp_type.
Variables (mc1 mc2 mlo mhi mmax mmin : positive) (ec1 ec2 elo ehi : Z).

Local Notation "'prec'" := (fprec T).
Local Notation "'emax'" := (femax T).
Local Notation "'u'" := (bpow2 (1 - fprec T)).
Local Notation "'C'" := (F2R (Zpos mc1) ec1 * F2R (Zpos mc2) ec2)%R.

Hypothesis Hd1 : Zpos (digits2_pos mc1) = prec.
Hypothesis Hd2 : Zpos (digits2_pos mc2) = prec.
Hypothesis HE : ec1 + ec2 + 2 * prec = 1.
Hypothesis HE1 : -5 <= ec1 + prec <= 6.
Hypothesis Hlo_eq :
  fsub T (fone T) (default_eps T) = S754_finite false mlo elo.
Hypothesis Hhi_eq :
  fadd T (fone T) (default_eps T) = S754_finite false mhi ehi.
Hypothesis Hlo_can : canonical_mantissa prec emax mlo elo = true.
Hypothesis Hhi_can : canonical_mantissa prec emax mhi ehi = true.
Hypothesis Hmax_eq :
  numeric_max T = S754_finite false mmax (emax - prec).
Hypothesis Hmin_eq :
  numeric_min T = S754_finite false mmin (emin prec emax).
Hypothesis Hdmax : Zpos (digits2_pos mmax) = prec.
Hypothesis Hdmin : Zpos (digits2_pos mmin) = prec.
Hypothesis Hlo :
  (F2R (Zpos mlo) elo < (1 - u) * ((1 - u) * ((1 - u) * C)))%R.
Hypothesis Hhi :
  ((1 + u) * ((1 + u) * ((1 + u) * C)) < F2R (Zpos mhi) ehi)%R.
Hypothesis Hmax :
  ((1 + u) * ((1 + u) * C) <= (1 - u) * F2R (Zpos mmax) (emax - prec))%R.
Hypothesis Hmin :
  ((1 + u) * F2R (Zpos mmin) (emin prec emax)
   <= (1 - u) * ((1 - u) * C))%R.
Hypothesis Hlo_rev :
  (F2R (Zpos mlo) elo * ((1 + u) * ((1 + u) * C)) < 1 - u)%R.
Hypothesis Hhi_rev :
  (1 + u < F2R (Zpos mhi) ehi * ((1 - u) * ((1 - u) * C)))%R.
Hypothesis Hmax_rev :
  (F2R 1 0
   <= (1 - u) * (((1 - u) * ((1 - u) * C)) * F2R (Zpos mmax) (emax - prec)))%R.
Hypothesis Hmin_rev :
  ((1 + u) * (((1 + u) * ((1 + u) * C)) * F2R (Zpos mmin) (emin prec emax))
   <= F2R 1 0)%R.

Lemma round_trip_feq (s : bool) (mx : positive) (ex : Z) :
  Zpos (digits2_pos mx) = prec ->
  emin prec emax + 6 <= ex <= emax - prec - 7 ->
  let x := S754_finite s mx ex in
  feq T (fmul T (fmul T x (S754_finite false mc1 ec1))
                 (S754_finite false mc2 ec2))
      x (default_eps T) = true.
Proof.
  intros Hdx Hex x. subst x.
  pose proof (fprec_pos T) as Hp. pose proof (fp_params T) as HT.
  assert (Hemin : emin prec emax = 3 - emax - prec) by reflexivity.
  unfold fmul.
  (* y = x * c1 *)
  destruct (SFmul_normal prec emax Hp s false mx mc1 ex ec1 Hdx Hd1
              ltac:(lia)) as [my [ey [Hy [Hcy [Hdy [Hey Hry]]]]]].
  replace (ey <=? emax - prec) with true in Hy
    by (symmetry; apply Z.leb_le; lia).
  rewrite xorb_false_r in Hy. rewrite Hy.
  (* z = y * c2 *)
  destruct (SFmul_normal prec emax Hp s false my mc2 ey ec2 Hdy Hd2
              ltac:(lia)) as [mz [ez [Hz [Hcz [Hdz [Hez Hrz]]]]]].
  replace (ez <=? emax - prec) with true in Hz
    by (symmetry; apply Z.leb_le; lia).
  rewrite xorb_false_r in Hz. rewrite Hz.
  (* q = z / x *)
  destruct (SFdiv_normal prec emax Hp s s mz mx ez ex Hdz Hdx ltac:(lia))
    as [mq [eq [Hq [Hcq [Hdq [Heq Hrq]]]]]].
  replace (eq <=? emax - prec) with true in Hq
    by (symmetry; apply Z.leb_le; lia).
  rewrite xorb_nilpotent in Hq.
  (* the real values *)
  pose proof (F2R_pos (Zpos mx) ex ltac:(lia)) as Hvx.
  pose proof (F2R_pos (Zpos mc1) ec1 ltac:(lia)) as Hvc1.
  pose proof (F2R_pos (Zpos mc2) ec2 ltac:(lia)) as Hvc2.
  assert (Hu : (0 < u < 1)%R).
  { split; [ apply bpow2_pos | ].
    assert (Hu2 : (bpow2 (1 - prec) * bpow2 (prec - 1) = 1)%R).
    { rewrite <- bpow2_add. replace (1 - prec + (prec - 1)) with 0 by lia.
      reflexivity. }
    assert (Hp2 : (2 <= bpow2 (prec - 1))%R).
    { rewrite bpow2_IZR by lia. apply IZR_le.
      change 2 with (2 ^ 1). apply Z.pow_le_mono_r; lia. }
    pose proof (bpow2_pos (1 - prec)). nra. }
  destruct (round_trip_chain _ _ _ _ _ _ _ Hu Hvc1 Hvc2 Hvx Hry Hrz Hrq)
    as [Hzlo [Hzhi [Hqlo Hqhi]]].
  unfold feq. cbn [SFeqb SFcompare fzero].
  replace (match (if s then Lt else Gt) with Eq => true | _ => false end)
    with false by (destruct s; reflexivity).
  (* the overflow guard *)
  assert (Hov : ratio_overflows T (S754_finite s mz ez) (S754_finite s mx ex)
                = false).
  { unfold ratio_overflows. cbn [SFabs]. apply andb_false_intro2.
    rewrite Hmax_eq. unfold fmul.
    destruct (SFmul_normal prec emax Hp false false mx mmax ex (emax - prec)
                Hdx Hdmax ltac:(lia)) as [m3 [e3 [H3 [Hc3 [_ [_ Hr3]]]]]].
    rewrite H3. cbn [xorb]. destruct (e3 <=? emax - prec);
      [ | reflexivity ].
    apply (SFltb_false_of_Rle prec emax Hp); try assumption.
    destruct Hr3 as [Hr3 _].
    pose proof (F2R_pos (Zpos mmax) (emax - prec) ltac:(lia)).
    apply Rle_trans with (((1 + u) * ((1 + u) * C)) * F2R (Zpos mx) ex)%R;
      [ assumption | ].
    apply Rle_trans
      with (((1 - u) * F2R (Zpos mmax) (emax - prec)) * F2R (Zpos mx) ex)%R.
    - apply Rmult_le_compat_r; lra.
    - lra. }
  rewrite Hov.
  (* the underflow guard *)
  assert (Hun : ratio_underflows T (S754_finite s mz ez) (S754_finite s mx ex)
                = false).
  { unfold ratio_underflows. cbn [SFabs].
    destruct (Z_lt_le_dec ex (1 - prec)) as [Hsmall | Hbig].
    - apply andb_false_intro1.
      destruct (fone_finite T) as [m1 [e1 [E1 _]]].
      assert (He1 : e1 = 1 - prec).
      { destruct T; vm_compute in E1; injection E1; intros; subst;
          reflexivity. }
      rewrite E1. unfold SFltb. rewrite SFcompare_finite_pos.
      destruct (Z.compare_spec e1 ex); try reflexivity; lia.
    - apply andb_false_intro2.
      rewrite Hmin_eq. unfold fmul.
      destruct (SFmul_normal prec emax Hp false false mx mmin ex
                  (emin prec emax) Hdx Hdmin ltac:(lia))
        as [m3 [e3 [H3 [Hc3 [_ [He3 Hr3]]]]]].
      rewrite H3. cbn [xorb].
      replace (e3 <=? emax - prec) with true
        by (symmetry; apply Z.leb_le; lia).
      apply (SFltb_false_of_Rle prec emax Hp); try assumption.
      destruct Hr3 as [_ Hr3].
      pose proof (F2R_pos (Zpos mmin) (emin prec emax) ltac:(lia)).
      apply Rle_trans
        with (((1 - u) * ((1 - u) * C)) * F2R (Zpos mx) ex)%R;
        [ | assumption ].
      apply Rle_trans
        with (((1 + u) * F2R (Zpos mmin) (emin prec emax))
              * F2R (Zpos mx) ex)%R.
      + lra.
      + apply Rmult_le_compat_r; lra. }
  rewrite Hun.
  (* the ratio lies between 1 - eps and 1 + eps *)
  unfold fdiv. rewrite Hq, Hlo_eq, Hhi_eq.
  rewrite (SFltb_of_Rlt prec emax Hp mlo mq elo eq Hlo_can Hcq)
    by lra.
  rewrite (SFltb_of_Rlt prec emax Hp mq mhi eq ehi Hcq Hhi_can)
    by lra.
  reflexivity.
Qed.

(** The same round trip, compared in the other order. *)
Lemma round_trip_feq_rev (s : bool) (mx : positive) (ex : Z) :
  Zpos (digits2_pos mx) = prec ->
  emin prec emax + 6 <= ex <= emax - prec - 7 ->
  let x := S754_finite s mx ex in
  feq T x
      (fmul T (fmul T x (S754_finite false mc1 ec1))
                 (S754_finite false mc2 ec2))
      (default_eps T) = true.
Proof.
  intros Hdx Hex x. subst x.
  pose proof (fprec_pos T) as Hp. pose proof (fp_params T) as HT.
  assert (Hemin : emin prec emax = 3 - emax - prec) by reflexivity.
  unfold fmul.
  destruct (SFmul_normal prec emax Hp s false mx mc1 ex ec1 Hdx Hd1
              ltac:(lia)) as [my [ey [Hy [Hcy [Hdy [Hey Hry]]]]]].
  replace (ey <=? emax - prec) with true in Hy
    by (symmetry; apply Z.leb_le; lia).
  rewrite xorb_false_r in Hy. rewrite Hy.
  destruct (SFmul_normal prec emax Hp s false my mc2 ey ec2 Hdy Hd2
              ltac:(lia)) as [mz [ez [Hz [Hcz [Hdz [Hez Hrz]]]]]].
  replace (ez <=? emax - prec) with true in Hz
    by (symmetry; apply Z.leb_le; lia).
  rewrite xorb_false_r in Hz. rewrite Hz.
  destruct (SFdiv_normal prec emax Hp s s mx mz ex ez Hdx Hdz ltac:(lia))
    as [mq [eq [Hq [Hcq [Hdq [Heq Hrq]]]]]].
  replace (eq <=? emax - prec) with true in Hq
    by (symmetry; apply Z.leb_le; lia).
  rewrite xorb_nilpotent in Hq.
  pose proof (F2R_pos (Zpos mx) ex ltac:(lia)) as Hvx.
  pose proof (F2R_pos (Zpos mz) ez ltac:(lia)) as Hvz.
  pose proof (F2R_pos (Zpos mc1) ec1 ltac:(lia)) as Hvc1.
  pose proof (F2R_pos (Zpos mc2) ec2 ltac:(lia)) as Hvc2.
  pose proof (F2R_pos (Zpos mlo) elo ltac:(lia)) as Hvlo.
  pose proof (F2R_pos (Zpos mhi) ehi ltac:(lia)) as Hvhi.
  assert (HC : (0 < C)%R) by (apply Rmult_lt_0_compat; assumption).
  assert (Hu : (0 < u < 1)%R).
  { split; [ apply bpow2_pos | ].
    assert (Hu2 : (bpow2 (1 - prec) * bpow2 (prec - 1) = 1)%R).
    { rewrite <- bpow2_add. replace (1 - prec + (prec - 1)) with 0 by lia.
      reflexivity. }
    assert (Hp2 : (2 <= bpow2 (prec - 1))%R).
    { rewrite bpow2_IZR by lia. apply IZR_le.
      change 2 with (2 ^ 1). apply Z.pow_le_mono_r; lia. }
    pose proof (bpow2_pos (1 - prec)). nra. }
  assert (Hzb : (((1 - u) * ((1 - u) * C)) * F2R (Zpos mx) ex
                 <= F2R (Zpos mz) ez
                 <= ((1 + u) * ((1 + u) * C)) * F2R (Zpos mx) ex)%R).
  { split.
    - apply Rle_trans
        with ((1 - u) * (F2R (Zpos my) ey * F2R (Zpos mc2) ec2))%R;
        [ | apply Hrz ].
      replace ((1 - u) * ((1 - u) * C) * F2R (Zpos mx) ex)%R
        with ((1 - u) * (((1 - u) * (F2R (Zpos mx) ex * F2R (Zpos mc1) ec1))
                         * F2R (Zpos mc2) ec2))%R by ring.
      apply Rmult_le_compat_l; [ lra | ].
      apply Rmult_le_compat_r; [ lra | apply Hry ].
    - apply Rle_trans
        with ((1 + u) * (F2R (Zpos my) ey * F2R (Zpos mc2) ec2))%R;
        [ apply Hrz | ].
      replace ((1 + u) * ((1 + u) * C) * F2R (Zpos mx) ex)%R
        with ((1 + u) * (((1 + u) * (F2R (Zpos mx) ex * F2R (Zpos mc1) ec1))
                         * F2R (Zpos mc2) ec2))%R by ring.
      apply Rmult_le_compat_l; [ lra | ].
      apply Rmult_le_compat_r; [ lra | apply Hry ]. }
  destruct Hzb as [Hzlo Hzhi].
  destruct (round_trip_chain_rev _ _ _ _ _ _ _ Hu HC Hvx Hvz
              (Rlt_le _ _ Hvlo) (Rlt_le _ _ Hvhi) Hzlo Hzhi Hrq
              Hlo_rev Hhi_rev) as [Hqlo Hqhi].
  assert (H1 : (F2R 1 0 = 1)%R) by (unfold F2R; rewrite bpow2_0; ring).
  assert (Hcx : canonical_mantissa prec emax mx ex = true).
  { apply canonical_spec. rewrite Hdx. unfold SpecFloat.fexp. lia. }
  unfold feq. cbn [SFeqb SFcompare fzero].
  replace (match (if s then Lt else Gt) with Eq => true | _ => false end)
    with false by (destruct s; reflexivity).
  assert (Hov : ratio_overflows T (S754_finite s mx ex) (S754_finite s mz ez)
                = false).
  { unfold ratio_overflows. cbn [SFabs]. apply andb_false_intro2.
    rewrite Hmax_eq. unfold fmul.
    destruct (SFmul_normal prec emax Hp false false mz mmax ez (emax - prec)
                Hdz Hdmax ltac:(lia)) as [m3 [e3 [H3 [Hc3 [_ [_ Hr3]]]]]].
    rewrite H3. cbn [xorb]. destruct (e3 <=? emax - prec);
      [ | reflexivity ].
    apply (SFltb_false_of_Rle prec emax Hp); try assumption.
    destruct Hr3 as [Hr3 _].
    pose proof (F2R_pos (Zpos mmax) (emax - prec) ltac:(lia)) as Hvm.
    apply Rle_trans
      with ((1 - u) * (F2R (Zpos mz) ez * F2R (Zpos mmax) (emax - prec)))%R;
      [ | assumption ].
    apply Rle_trans
      with ((1 - u) * ((((1 - u) * ((1 - u) * C)) * F2R (Zpos mx) ex)
                       * F2R (Zpos mmax) (emax - prec)))%R.
    - replace ((1 - u) * ((1 - u) * ((1 - u) * C) * F2R (Zpos mx) ex
                          * F2R (Zpos mmax) (emax - prec)))%R
        with (((1 - u) * (((1 - u) * ((1 - u) * C))
                          * F2R (Zpos mmax) (emax - prec)))
              * F2R (Zpos mx) ex)%R by ring.
      rewrite <- (Rmult_1_l (F2R (Zpos mx) ex)) at 1.
      apply Rmult_le_compat_r; lra.
    - apply Rmult_le_compat_l; [ lra | ].
      apply Rmult_le_compat_r; lra. }
  rewrite Hov.
  assert (Hun : ratio_underflows T (S754_finite s mx ex) (S754_finite s mz ez)
                = false).
  { unfold ratio_underflows. cbn [SFabs].
    destruct (Z_lt_le_dec ez (1 - prec)) as [Hsmall | Hbig].
    - apply andb_false_intro1.
      destruct (fone_finite T) as [m1 [e1 [E1 _]]].
      assert (He1 : e1 = 1 - prec).
      { destruct T; vm_compute in E1; injection E1; intros; subst;
          reflexivity. }
      rewrite E1. unfold SFltb. rewrite SFcompare_finite_pos.
      destruct (Z.compare_spec e1 ez); try reflexivity; lia.
    - apply andb_false_intro2.
      rewrite Hmin_eq. unfold fmul.
      destruct (SFmul_normal prec emax Hp false false mz mmin ez
                  (emin prec emax) Hdz Hdmin ltac:(lia))
        as [m3 [e3 [H3 [Hc3 [_ [He3 Hr3]]]]]].
      rewrite H3. cbn [xorb].
      replace (e3 <=? emax - prec) with true
        by (symmetry; apply Z.leb_le; lia).
      apply (SFltb_false_of_Rle prec emax Hp); try assumption.
      destruct Hr3 as [_ Hr3].
      pose proof (F2R_pos (Zpos mmin) (emin prec emax) ltac:(lia)) as Hvm.
      apply Rle_trans
        with ((1 + u) * (F2R (Zpos mz) ez
                         * F2R (Zpos mmin) (emin prec emax)))%R;
        [ assumption | ].
      apply Rle_trans
        with ((1 + u) * ((((1 + u) * ((1 + u) * C)) * F2R (Zpos mx) ex)
                         * F2R (Zpos mmin) (emin prec emax)))%R.
      + apply Rmult_le_compat_l; [ lra | ].
        apply Rmult_le_compat_r; lra.
      + replace ((1 + u) * ((1 + u) * ((1 + u) * C) * F2R (Zpos mx) ex
                            * F2R (Zpos mmin) (emin prec emax)))%R
          with (((1 + u) * (((1 + u) * ((1 + u) * C))
                            * F2R (Zpos mmin) (emin prec emax)))
                * F2R (Zpos mx) ex)%R by ring.
        rewrite <- (Rmult_1_l (F2R (Zpos mx) ex)) at 2.
        apply Rmult_le_compat_r; lra. }
  rewrite Hun.
  unfold fdiv. rewrite Hq, Hlo_eq, Hhi_eq.
  rewrite (SFltb_of_Rlt prec emax Hp mlo mq elo eq Hlo_can Hcq)
    by assumption.
  rewrite (SFltb_of_Rlt prec emax Hp mq mhi eq ehi Hcq Hhi_can)
    by assumption.
  reflexivity.
Qed.

End RoundTrip.

(** ** Angle conversions *)

Section ConstantChecks.

Local Open Scope R_scope.

Lemma one_minus_bpow2 (p : Z) :
  (0 < p)%Z -> 1 - bpow2 (1 - p) = F2R (2 ^ (p - 1) - 1) (1 - p).
Proof.
  intros Hp. unfold F2R. rewrite minus_IZR, <- bpow2_IZR by lia.
  rewrite Rmult_minus_distr_r, <- bpow2_add.
  replace (p - 1 + (1 - p))%Z with 0%Z by lia. rewrite bpow2_0. ring.
Qed.

Lemma one_plus_bpow2 (p : Z) :
  (0 < p)%Z -> 1 + bpow2 (1 - p) = F2R (2 ^ (p - 1) + 1) (1 - p).
Proof.
  intros Hp. unfold F2R. rewrite plus_IZR, <- bpow2_IZR by lia.
  rewrite Rmult_plus_distr_r, <- bpow2_add.
  replace (p - 1 + (1 - p))%Z with 0%Z by lia. rewrite bpow2_0. ring.
Qed.

(** Comparing two dyadic numbers is comparing integers. *)
Lemma F2R_lt_check (a ea b eb : Z) :
  (a * 2 ^ (ea - Z.min ea eb) <? b * 2 ^ (eb - Z.min ea eb))%Z = true ->
  F2R a ea < F2R b eb.
Proof.
  intros H. apply Z.ltb_lt in H.
  rewrite (F2R_align a ea (Z.min ea eb)), (F2R_align b eb (Z.min ea eb))
    by lia.
  apply F2R_lt. assumption.
Qed.

Lemma F2R_le_check (a ea b eb : Z) :
  (a * 2 ^ (ea - Z.min ea eb) <=? b * 2 ^ (eb - Z.min ea eb))%Z = true ->
  F2R a ea <= F2R b eb.
Proof.
  intros H. apply Z.leb_le in H.
  rewrite (F2R_align a ea (Z.min ea eb)), (F2R_align b eb (Z.min ea eb))
    by lia.
  apply F2R_le. assumption.
Qed.

End ConstantChecks.

(** Decides an inequality between products of dyadic constants and the
    factors [1 - 2^(1-prec)], [1 + 2^(1-prec)]. *)
Ltac dyadic_check :=
  rewrite ?one_minus_bpow2, ?one_plus_bpow2 by reflexivity;
  rewrite ?F2R_mul;
  first [ apply F2R_lt_check | apply F2R_le_check ];
  vm_compute; reflexivity.

(** In the range of the round trips a number is a zero or a normal number
    whose exponent keeps six binary orders from the bottom and seven from
    the top of the format. *)
Lemma in_round_trip_range_inv (T : fp_type) (x : spec_float) :
  in_round_trip_range T x = true ->
  match x with
  | S754_zero _ => True
  | S754_finite _ m e =>
      Zpos (digits2_pos m) = fprec T /\
      emin (fprec T) (femax T) + 6 <= e <= femax T - fprec T - 7
  | S754_infinity _ | S754_nan => False
  end.
Proof.
  unfold in_round_trip_range. rewrite andb_true_iff, orb_true_iff.
  intros [Hv [Hz | Hr]].
  - apply SFeqb_zero_inv in Hz. destruct Hz as [s ->]. exact I.
  - apply andb_true_iff in Hr. destruct Hr as [Hlo Hhi].
    destruct x as [s | s | | s m e]; try exact I; try discriminate.
    cbn [is_float valid_binary] in Hv.
    apply bounded_canonical in Hv. destruct Hv as [Hc _].
    pose proof (canonical_digits _ _ m e Hc) as [_ [_ Hd]].
    pose proof (digits2_bounds m) as [Hm _].
    cbn [SFabs] in Hlo, Hhi. unfold round_trip_min, round_trip_sup in *.
    unfold SFleb, SFltb in *. rewrite SFcompare_finite_pos in Hlo, Hhi.
    destruct T; cbn [fprec femax] in *;
      change (emin 24 128) with (-149) in *;
      change (emin 53 1024) with (-1074) in *;
      cbn [Z.sub Z.add Z.opp Z.pos_sub Pos.pred_double Z.to_pos
           Z.succ_double Z.pred_double Z.double] in Hlo, Hhi;
      match type of Hlo with
      | context [(?a ?= e)] => destruct (Z.compare_spec a e)
      end;
      match type of Hhi with
      | context [(e ?= ?b)] => destruct (Z.compare_spec e b)
      end;
      try discriminate;
      try (specialize (Hd ltac:(lia)); split; [ assumption | lia ]);
      exfalso; subst e; specialize (Hd ltac:(lia)); rewrite Hd in Hm;
      match type of Hhi with
      | context [(m ?= ?c)%positive] =>
          destruct (Pos.compare_spec m c); try discriminate
      end;
      cbn in Hm; lia.
Qed.

(** C5, as stated, fails at both ends of the range: [rad_to_deg(1e308)]
    overflows to an infinity, which [deg_to_rad] keeps and [feq] rejects;
    the subnormal [100 * 2^-1074] comes back from [deg_to_rad] and
    [rad_to_deg] as [115 * 2^-1074]; and a NaN is equal to nothing. *)
Lemma round_trip_fails_at_extremes :
  let big := of_Z Double (10 ^ 308) in
  let tiny := S754_finite false 100 (-1074) in
  is_float Double big = true /\ is_float Double tiny = true /\
  rad_to_deg Double big = S754_infinity false /\
  feq Double (deg_to_rad Double (rad_to_deg Double big)) big
      (default_eps Double) = false /\
  rad_to_deg Double (deg_to_rad Double tiny)
  = S754_finite false 115 (-1074) /\
  feq Double (rad_to_deg Double (deg_to_rad Double tiny)) tiny
      (default_eps Double) = false /\
  feq Double (deg_to_rad Double (rad_to_deg Double S754_nan)) S754_nan
      (default_eps Double) = false.
Proof. vm_compute. repeat split; reflexivity. Qed.

(** C5, amended.  For every [x] that is zero or of a magnitude from
    [2^-1016] to below [2^1017] in [double], from [2^-120] to below [2^121]
    in [float], [deg_to_rad(rad_to_deg(x))] and [rad_to_deg(deg_to_rad(x))]
    are equal to [x] for [feq] with the default epsilon of the type, in
    whichever order the two are given to [feq]. *)
Theorem deg_rad_round_trip :
  forall (T : fp_type) (x : spec_float),
    in_round_trip_range T x = true ->
    feq T (deg_to_rad T (rad_to_deg T x)) x (default_eps T) = true /\
    feq T (rad_to_deg T (deg_to_rad T x)) x (default_eps T) = true /\
    feq T x (deg_to_rad T (rad_to_deg T x)) (default_eps T) = true /\
    feq T x (rad_to_deg T (deg_to_rad T x)) (default_eps T) = true.
Proof.
  intros T x Hx. apply in_round_trip_range_inv in Hx.
  destruct x as [s | s | | s m e]; try contradiction.
  - destruct T, s; vm_compute; repeat split; reflexivity.
  - destruct Hx as [Hd [Hlo Hhi]].
    unfold deg_to_rad, rad_to_deg.
    destruct T.
    + set (d2r := fp_cast Float (fdiv Double Pi (of_Z Double 180))).
      set (r2d := fp_cast Float (fdiv Double (of_Z Double 180) Pi)).
      vm_compute in (value of d2r). vm_compute in (value of r2d).
      subst d2r r2d.
      split; [ | split; [ | split ] ];
        [ eapply round_trip_feq | eapply round_trip_feq
        | eapply round_trip_feq_rev | eapply round_trip_feq_rev ];
        try reflexivity; try assumption; try (split; assumption);
        try (vm_compute; split; discriminate); dyadic_check.
    + set (d2r := fp_cast Double (fdiv Double Pi (of_Z Double 180))).
      set (r2d := fp_cast Double (fdiv Double (of_Z Double 180) Pi)).
      vm_compute in (value of d2r). vm_compute in (value of r2d).
      subst d2r r2d.
      split; [ | split; [ | split ] ];
        [ eapply round_trip_feq | eapply round_trip_feq
        | eapply round_trip_feq_rev | eapply round_trip_feq_rev ];
        try reflexivity; try assumption; try (split; assumption);
        try (vm_compute; split; discriminate); dyadic_check.
Qed.

(** The amended C5 at [90] in [double] and at [1/3] in [float]. *)
Lemma deg_rad_round_trip_witness :
  feq Double (deg_to_rad Double (rad_to_deg Double (of_Z Double 90)))
      (of_Z Double 90) (default_eps Double) = true /\
  feq Float (rad_to_deg Float (deg_to_rad Float (of_ratio Float 1 3)))
      (of_ratio Float 1 3) (default_eps Float) = true.
Proof.
  split.
  - apply (proj1 (deg_rad_round_trip Double (of_Z Double 90) eq_refl)).
  - apply (proj1 (proj2 (deg_rad_round_trip Float (of_ratio Float 1 3)
                           eq_refl))).
Defined.

(** * Further properties *)

(** ** Integer arithmetic *)

Section WrapArith.

Lemma wrap_eqm (ty : int_type) (z : Z) :
  wrap ty z mod 2 ^ bits ty = z mod 2 ^ bits ty.
Proof.
  unfold wrap. destruct (is_signed ty).
  - rewrite Zminus_mod, Zmod_mod, <- Zminus_mod. f_equal. ring.
  - apply Zmod_mod.
Qed.

Lemma wrap_congr (ty : int_type) (a b : Z) :
  a mod 2 ^ bits ty = b mod 2 ^ bits ty -> wrap ty a = wrap ty b.
Proof.
  intros H. unfold wrap. destruct (is_signed ty).
  - f_equal. rewrite (Zplus_mod a), (Zplus_mod b), H. reflexivity.
  - assumption.
Qed.

Lemma wrap_mul_l (ty : int_type) (a b : Z) :
  wrap ty (wrap ty a * b) = wrap ty (a * b).
Proof.
  apply wrap_congr.
  rewrite (Zmult_mod (wrap ty a)), wrap_eqm, <- Zmult_mod. reflexivity.
Qed.

Lemma wrap_mul_r (ty : int_type) (a b : Z) :
  wrap ty (a * wrap ty b) = wrap ty (a * b).
Proof. rewrite (Z.mul_comm a), wrap_mul_l, Z.mul_comm. reflexivity. Qed.

Lemma wrap_in_range (ty : int_type) (z : Z) : in_range ty (wrap ty z).
Proof.
  unfold in_range, wrap, int_min, int_max.
  destruct ty; cbn [is_signed bits];
    match goal with
    | |- context [?a mod ?m] =>
        pose proof (Z.mod_pos_bound a m ltac:(lia))
    end; lia.
Qed.

Lemma wrap_idem (ty : int_type) (z : Z) : wrap ty (wrap ty z) = wrap ty z.
Proof. apply wrap_small, wrap_in_range. Qed.

End WrapArith.

Section PowFacts.

Lemma pow_int_loop_spec (ty : int_type) (x : Z) (p : nat) :
  forall y, pow_int_loop ty x p (wrap ty y)
            = wrap ty (y * x ^ Z.of_nat p).
Proof.
  induction p as [ | p IH ]; intros y.
  - cbn [pow_int_loop]. f_equal. cbn. ring.
  - cbn [pow_int_loop]. rewrite wrap_mul_l, IH. f_equal.
    rewrite Nat2Z.inj_succ, Z.pow_succ_r by lia. ring.
Qed.

Lemma pow_int_value (ty : int_type) (x : Z) (p : nat) :
  pow_int ty x p = wrap ty (x ^ Z.of_nat p).
Proof.
  unfold pow_int.
  replace 1 with (wrap ty 1) at 1
    by (apply wrap_small; destruct ty; vm_compute; split; discriminate).
  rewrite pow_int_loop_spec. f_equal. ring.
Qed.

Lemma in_rangeb_spec (ty : int_type) (z : Z) :
  in_rangeb ty z = true <-> in_range ty z.
Proof.
  unfold in_rangeb, in_range. rewrite andb_true_iff, !Z.leb_le. tauto.
Qed.

(** A power that fits an [int] is reached through powers that fit. *)
Lemma pow_in_range_pred (X : Z) (P : nat) :
  in_range Int32 (X ^ Z.of_nat (S P)) -> in_range Int32 (X ^ Z.of_nat P).
Proof.
  rewrite Nat2Z.inj_succ, Z.pow_succ_r by lia.
  unfold in_range. change (int_min Int32) with (-2147483648).
  change (int_max Int32) with 2147483647.
  pose proof (Z.abs_pow X (Z.of_nat P)) as Habs.
  set (a := X ^ Z.of_nat P) in *. intros Hb.
  destruct (Z_le_gt_dec 2 (Z.abs X)) as [H2 | H2].
  - assert (Hm : Z.abs (X * a) = Z.abs X * Z.abs a) by apply Z.abs_mul.
    assert (2 * Z.abs a <= Z.abs X * Z.abs a)
      by (apply Z.mul_le_mono_nonneg_r; lia).
    lia.
  - destruct (Z.eq_dec X 0) as [-> | Hx].
    + destruct P as [ | P ]; subst a.
      * cbn. lia.
      * rewrite Z.pow_0_l by lia. lia.
    + assert (H1 : Z.abs X = 1) by lia.
      rewrite H1, Z.pow_1_l in Habs by lia. lia.
Qed.

Lemma static_pow_int_some (X : Z) (P : nat) (v : Z) :
  static_pow_int X P = Some v ->
  v = X ^ Z.of_nat P /\ in_range Int32 v.
Proof.
  revert v. induction P as [ | P IH ]; intros v.
  - cbn [static_pow_int]. intros [= <-]. split; [ reflexivity | ].
    vm_compute. split; discriminate.
  - cbn [static_pow_int].
    destruct (static_pow_int X P) as [w | ]; [ | discriminate ].
    destruct (IH w eq_refl) as [-> _].
    destruct (in_rangeb Int32 (X * X ^ Z.of_nat P)) eqn:E;
      [ | discriminate ].
    intros [= <-]. apply in_rangeb_spec in E.
    rewrite Nat2Z.inj_succ, Z.pow_succ_r by lia. split; [ reflexivity | ].
    exact E.
Qed.

Lemma static_pow_int_value (X : Z) (P : nat) :
  in_range Int32 (X ^ Z.of_nat P) ->
  static_pow_int X P = Some (X ^ Z.of_nat P).
Proof.
  induction P as [ | P IH ]; intros Hr.
  - reflexivity.
  - cbn [static_pow_int].
    rewrite (IH (pow_in_range_pred X P Hr)).
    rewrite Nat2Z.inj_succ, Z.pow_succ_r in Hr |- * by lia.
    rewrite (proj2 (in_rangeb_spec Int32 _) Hr). reflexivity.
Qed.

End PowFacts.

(** [pow_int(x, p)] is [x^p] reduced to the type: the power itself where
    the type holds it, [1] for [p = 0] whatever [x] is, and the product of
    the two powers for a sum of exponents. *)
Theorem pow_int_spec :
  forall (ty : int_type) (x : Z) (p q : nat),
    pow_int ty x p = wrap ty (x ^ Z.of_nat p) /\
    (in_range ty (x ^ Z.of_nat p) -> pow_int ty x p = x ^ Z.of_nat p) /\
    pow_int ty x 0 = 1 /\
    pow_int ty x (p + q) = wrap ty (pow_int ty x p * pow_int ty x q).
Proof.
  intros ty x p q. split; [ apply pow_int_value | ].
  split; [ intros H; rewrite pow_int_value; apply wrap_small, H | ].
  split; [ reflexivity | ].
  rewrite !pow_int_value, wrap_mul_l, wrap_mul_r.
  f_equal. rewrite Nat2Z.inj_add, Z.pow_add_r by lia. reflexivity.
Qed.

Lemma pow_int_spec_witness :
  in_range Int16 (3 ^ Z.of_nat 5) /\ pow_int Int16 3 5 = 243.
Proof.
  split.
  - vm_compute. split; discriminate.
  - apply (proj1 (proj2 (pow_int_spec Int16 3 5 0))).
    vm_compute. split; discriminate.
Defined.

(** The compile-time power [static_pow_int<X, P>::value] is [X^P] exactly
    where an [int] holds [X^P], and there it is the number the run-time
    [pow_int<int>(X, P)] returns; where [X^P] does not fit an [int] the
    template has no value.  [static_pow_int<2, 8>::value] is 256, and
    [static_pow_int<2, 31>] is rejected. *)
Theorem static_pow_int_spec :
  (forall (X : Z) (P : nat),
     in_range Int32 (X ^ Z.of_nat P) ->
     static_pow_int X P = Some (X ^ Z.of_nat P) /\
     static_pow_int X P = Some (pow_int Int32 X P)) /\
  (forall (X : Z) (P : nat),
     ~ in_range Int32 (X ^ Z.of_nat P) -> static_pow_int X P = None) /\
  static_pow_int 2 8 = Some 256 /\
  static_pow_int 2 31 = None.
Proof.
  split; [ | split; [ | split; reflexivity ] ].
  - intros X P Hr. rewrite pow_int_value, (wrap_small _ _ Hr).
    split; apply static_pow_int_value; assumption.
  - intros X P Hr.
    destruct (static_pow_int X P) as [v | ] eqn:E; [ | reflexivity ].
    destruct (static_pow_int_some X P v E) as [-> Hv]. contradiction.
Qed.

Lemma static_pow_int_spec_witness :
  static_pow_int (-3) 3 = Some ((-3) ^ Z.of_nat 3) /\
  static_pow_int 10 10 = None.
Proof.
  split.
  - apply (proj1 static_pow_int_spec (-3) 3%nat).
    vm_compute. split; discriminate.
  - apply (proj1 (proj2 static_pow_int_spec) 10 10%nat).
    vm_compute. intros [_ H]. apply H. reflexivity.
Defined.

Section LoopFacts.

Lemma in_range_half (ty : int_type) (x : Z) :
  in_range ty x -> in_range ty (Z.shiftr x 1).
Proof.
  unfold in_range. intros [Hlo Hhi].
  pose proof (int_min_nonpos ty) as Hmin.
  assert (Hmax : 0 <= int_max ty) by (destruct ty; vm_compute; discriminate).
  rewrite Z.shiftr_div_pow2 by lia. change (2 ^ 1) with 2.
  pose proof (Z.div_mod x 2 ltac:(lia)) as Hd.
  pose proof (Z.mod_pos_bound x 2 ltac:(lia)). lia.
Qed.

Lemma log2_lt_int_max (ty : int_type) (x : Z) :
  0 < x -> in_range ty x -> Z.log2 x < int_max ty.
Proof.
  intros Hx [_ Hhi].
  assert (Hb : Z.log2 x < bits ty).
  { apply Z.log2_lt_pow2; [ assumption | ].
    apply Z.le_lt_trans with (int_max ty); [ assumption | ].
    destruct ty; vm_compute; reflexivity. }
  assert (bits ty <= int_max ty) by (destruct ty; vm_compute; discriminate).
  lia.
Qed.

Lemma log2_loop_pos (ty : int_type) (fuel : nat) :
  forall x n : Z,
    0 < x -> in_range ty x -> 0 <= n -> n + Z.log2 x <= int_max ty ->
    (Z.to_nat (Z.log2 x) < fuel)%nat ->
    log2_loop ty fuel x n = Some (n + Z.log2 x).
Proof.
  induction fuel as [ | fuel IH ]; intros x n Hx Hr Hn Hmax Hf; [ lia | ].
  cbn [log2_loop].
  rewrite (wrap_small ty (Z.shiftr x 1)) by (apply in_range_half, Hr).
  pose proof (Z.log2_shiftr x 1 Hx) as Hl.
  pose proof (Z.log2_nonneg x) as Hl0.
  assert (Hs : Z.shiftr x 1 = x / 2)
    by (rewrite Z.shiftr_div_pow2 by lia; reflexivity).
  pose proof (Z.div_mod x 2 ltac:(lia)) as Hd.
  pose proof (Z.mod_pos_bound x 2 ltac:(lia)) as Hm.
  destruct (Z.eqb_spec (Z.shiftr x 1) 0) as [E | E].
  - assert (x = 1) by lia. subst x. f_equal. cbn. lia.
  - assert (H2 : 2 <= x) by lia.
    assert (Hl1 : 1 <= Z.log2 x)
      by (apply Z.log2_le_pow2; [ lia | exact H2 ]).
    pose proof (int_min_nonpos ty) as Hmin.
    rewrite (wrap_small ty (n + 1)) by (unfold in_range; lia).
    rewrite IH; try lia.
    + f_equal. lia.
    + apply in_range_half, Hr.
Qed.

Lemma Zfact_succ (x : Z) :
  1 <= x -> Zfact (Z.to_nat x) = x * Zfact (Z.to_nat (x - 1)).
Proof.
  intros Hx. replace (Z.to_nat x) with (S (Z.to_nat (x - 1))) by lia.
  cbn [Zfact]. f_equal. lia.
Qed.

Lemma Zfact_pos (n : nat) : 0 < Zfact n.
Proof. induction n as [ | n IH ]; cbn [Zfact]; lia. Qed.

Lemma Zfact_mono (n m : nat) : (n <= m)%nat -> Zfact n <= Zfact m.
Proof.
  induction 1 as [ | m _ IH ]; [ lia | ].
  cbn [Zfact]. pose proof (Zfact_pos m). nia.
Qed.

Lemma factorial_loop_spec (ty : int_type) (fuel : nat) :
  forall fac x : Z,
    in_range ty x -> (Z.to_nat x < fuel)%nat ->
    factorial_loop ty fuel (wrap ty fac) x
    = Some (wrap ty (fac * Zfact (Z.to_nat x))).
Proof.
  induction fuel as [ | fuel IH ]; intros fac x Hr Hf; [ lia | ].
  cbn [factorial_loop].
  destruct (Z.ltb_spec 1 x) as [H1 | H1].
  - pose proof (int_min_nonpos ty) as Hmin.
    assert (Hr' : in_range ty (x - 1)) by (unfold in_range in *; lia).
    rewrite wrap_mul_l, (wrap_small ty (x - 1)) by assumption.
    rewrite IH by (try assumption; lia).
    do 2 f_equal. rewrite (Zfact_succ x) by lia. ring.
  - do 2 f_equal.
    assert (Hn : Z.to_nat x = O \/ Z.to_nat x = 1%nat) by lia.
    destruct Hn as [-> | ->]; cbn; ring.
Qed.

End LoopFacts.

(** [log2(x)] of a positive [x] returns, after no more rounds than [x] has
    bits, the integer [n] with [2^n <= x < 2^(n+1)]: the position of the
    highest bit set, a value of the type. *)
Theorem log2_spec :
  forall (ty : int_type) (x : Z) (fuel : nat),
    in_range ty x -> 0 < x -> (Z.to_nat (bits ty) <= fuel)%nat ->
    log2 ty fuel x = Some (Z.log2 x) /\
    2 ^ Z.log2 x <= x < 2 ^ (Z.log2 x + 1) /\
    0 <= Z.log2 x < bits ty.
Proof.
  intros ty x fuel Hr Hx Hf.
  assert (Hb : Z.log2 x < bits ty).
  { apply Z.log2_lt_pow2; [ assumption | ].
    apply Z.le_lt_trans with (int_max ty); [ apply Hr | ].
    destruct ty; vm_compute; reflexivity. }
  pose proof (Z.log2_nonneg x) as Hnn.
  split; [ | split; [ | lia ] ].
  - unfold log2.
    pose proof (log2_lt_int_max ty x Hx Hr) as Hl.
    rewrite log2_loop_pos; try assumption; try lia.
    reflexivity.
  - pose proof (Z.log2_spec x Hx) as Hs.
    replace (Z.log2 x + 1) with (Z.succ (Z.log2 x)) by lia. exact Hs.
Qed.

Lemma log2_spec_witness :
  log2 UInt8 8 200 = Some 7 /\ log2 Int64 64 1 = Some 0.
Proof.
  assert (Hr : in_range UInt8 200) by (vm_compute; split; discriminate).
  assert (Hz : in_range Int64 1) by (vm_compute; split; discriminate).
  split.
  - apply (proj1 (log2_spec UInt8 200 8 Hr eq_refl (Nat.le_refl _))).
  - apply (proj1 (log2_spec Int64 1 64 Hz eq_refl (Nat.le_refl _))).
Defined.

(** [factorial(x)] of an [x >= 0] returns, after no more rounds than [x]
    counts, the product [x!] reduced to the type, which is [1] for [x = 0]
    and [x = 1]; it is [x!] itself where the type holds [x!], which for a
    32-bit [int] is up to [x = 12] and for a 64-bit one up to [x = 20];
    the 32-bit unsigned [factorial(13)] is [13!] modulo [2^32]. *)
Theorem factorial_spec :
  (forall (ty : int_type) (x : Z) (fuel : nat),
     in_range ty x -> 0 <= x -> (Z.to_nat x < fuel)%nat ->
     factorial ty fuel x = Some (wrap ty (Zfact (Z.to_nat x))) /\
     (in_range ty (Zfact (Z.to_nat x)) ->
      factorial ty fuel x = Some (Zfact (Z.to_nat x))) /\
     (x <= 1 -> factorial ty fuel x = Some 1)) /\
  (forall x : Z, 0 <= x <= 12 -> in_range Int32 (Zfact (Z.to_nat x))) /\
  (forall x : Z, 0 <= x <= 20 -> in_range Int64 (Zfact (Z.to_nat x))) /\
  factorial UInt32 14 13 = Some 1932053504 /\
  Zfact 13 = 6227020800.
Proof.
  split; [ | split; [ | split; [ | split ] ] ].
  - intros ty x fuel Hr Hx0 Hf.
    assert (Hval : factorial ty fuel x
                   = Some (wrap ty (Zfact (Z.to_nat x)))).
    { unfold factorial.
      replace 1 with (wrap ty 1) at 1
        by (apply wrap_small; destruct ty; vm_compute; split; discriminate).
      rewrite factorial_loop_spec by assumption.
      do 2 f_equal. ring. }
    split; [ exact Hval | ]. split.
    + intros Hfit. rewrite Hval, wrap_small by assumption. reflexivity.
    + intros Hx. rewrite Hval.
      assert (Hn : Z.to_nat x = O \/ Z.to_nat x = 1%nat) by lia.
      destruct Hn as [-> | ->]; destruct ty; reflexivity.
  - intros x Hx.
    pose proof (Zfact_mono (Z.to_nat x) 12 ltac:(lia)) as Hle.
    pose proof (Zfact_pos (Z.to_nat x)) as Hpos.
    change (Zfact 12) with 479001600 in Hle.
    unfold in_range. change (int_min Int32) with (-2147483648).
    change (int_max Int32) with 2147483647. lia.
  - intros x Hx.
    pose proof (Zfact_mono (Z.to_nat x) 20 ltac:(lia)) as Hle.
    pose proof (Zfact_pos (Z.to_nat x)) as Hpos.
    change (Zfact 20) with 2432902008176640000 in Hle.
    unfold in_range. change (int_min Int64) with (-9223372036854775808).
    change (int_max Int64) with 9223372036854775807. lia.
  - reflexivity.
  - reflexivity.
Qed.

Lemma factorial_spec_witness :
  factorial Int32 11 10 = Some 3628800 /\
  factorial UInt8 7 6 = Some 208.
Proof.
  assert (H10 : in_range Int32 10) by (vm_compute; split; discriminate).
  assert (H6 : in_range UInt8 6) by (vm_compute; split; discriminate).
  split.
  - apply (proj1 (proj2 (proj1 factorial_spec Int32 10 11%nat H10
                           ltac:(lia) ltac:(vm_compute; lia)))).
    vm_compute. split; discriminate.
  - apply (proj1 (proj1 factorial_spec UInt8 6 7%nat H6
                    ltac:(lia) ltac:(vm_compute; lia))).
Defined.

(** [abs(x)] on an integer type is the magnitude of [x], a value of the
    type that is not negative, for every [x] whose opposite the type
    holds. *)
Theorem abs_int_spec :
  forall (ty : int_type) (x : Z),
    in_range ty x -> - int_max ty <= x ->
    abs_int ty x = Z.abs x /\ 0 <= abs_int ty x /\
    in_range ty (abs_int ty x).
Proof.
  intros ty x Hr Hx. unfold abs_int.
  pose proof (int_min_nonpos ty) as Hmin.
  destruct Hr as [Hlo Hhi].
  destruct (Z.ltb_spec x 0) as [Hneg | Hpos].
  - rewrite wrap_small by (unfold in_range; lia).
    unfold in_range. lia.
  - unfold in_range. lia.
Qed.

Lemma abs_int_spec_witness :
  abs_int Int8 (-127) = 127 /\ abs_int UInt16 40000 = 40000.
Proof.
  split.
  - apply (proj1 (abs_int_spec Int8 (-127)
                    ltac:(vm_compute; split; discriminate)
                    ltac:(vm_compute; discriminate))).
  - apply (proj1 (abs_int_spec UInt16 40000
                    ltac:(vm_compute; split; discriminate)
                    ltac:(vm_compute; discriminate))).
Defined.

(** [clamp(x, min, max)] on integers with [min <= max]: the result lies in
    [[min, max]], is [x] itself when [x] does, is the nearest of the two
    bounds otherwise, and clamping twice changes nothing; the function does
    not decrease when [x] grows. *)
Theorem clamp_int_spec :
  forall x y min max : Z,
    min <= max ->
    min <= clamp_int x min max <= max /\
    clamp_int x min max = Z.max min (Z.min x max) /\
    (min <= x <= max -> clamp_int x min max = x) /\
    clamp_int (clamp_int x min max) min max = clamp_int x min max /\
    (x <= y -> clamp_int x min max <= clamp_int y min max).
Proof.
  intros x y min max Hmm.
  assert (Hform : forall z, clamp_int z min max = Z.max min (Z.min z max)).
  { intros z. unfold clamp_int. rewrite Z.geb_leb.
    destruct (Z.leb_spec z min); [ lia | ].
    destruct (Z.leb_spec max z); lia. }
  rewrite !Hform. lia.
Qed.

Lemma clamp_int_spec_witness :
  clamp_int 300 0 255 = 255 /\ clamp_int (-4) 0 255 = 0.
Proof.
  split.
  - pose proof (clamp_int_spec 300 300 0 255 ltac:(lia)) as [_ [H _]].
    exact H.
  - pose proof (clamp_int_spec (-4) (-4) 0 255 ltac:(lia)) as [_ [H _]].
    exact H.
Defined.

Section Pow2Facts.

Lemma is_pow2_inv (ty : int_type) (x : Z) :
  0 < x -> in_range ty x -> is_pow2 ty x = true -> x = 2 ^ Z.log2 x.
Proof.
  intros Hx Hr H. unfold is_pow2 in H.
  pose proof (int_min_nonpos ty) as Hmin.
  rewrite wrap_small in H
    by (apply in_range_promote; unfold in_range in *; lia).
  apply Z.eqb_eq in H.
  pose proof (Z.log2_spec x Hx) as [Hlo Hhi].
  pose proof (Z.log2_nonneg x) as Hl.
  destruct (Z.eq_dec x (2 ^ Z.log2 x)) as [E | E]; [ exact E | exfalso ].
  assert (Hx1 : 0 < x - 1) by lia.
  assert (Hl1 : Z.log2 (x - 1) = Z.log2 x).
  { apply Z.log2_unique; [ assumption | ]. lia. }
  pose proof (Z.bit_log2 x Hx) as Hb.
  pose proof (Z.bit_log2 (x - 1) Hx1) as Hb1. rewrite Hl1 in Hb1.
  assert (Hc : Z.testbit (Z.land x (x - 1)) (Z.log2 x) = true)
    by (rewrite Z.land_spec, Hb, Hb1; reflexivity).
  rewrite H, Z.bits_0 in Hc. discriminate.
Qed.

Lemma pow2_in_range (ty : int_type) (k : Z) :
  0 <= k -> in_range ty (2 ^ k) -> 2 ^ k <= max_pow2 ty.
Proof.
  intros Hk [_ Hhi].
  destruct (max_pow2_eq ty) as [Hm [Hl0 Hl1]].
  destruct (Z_le_gt_dec k (Z.log2 (max_pow2 ty))) as [Hle | Hgt].
  - rewrite Hm. apply Z.pow_le_mono_r; lia.
  - exfalso.
    assert (H2 : 2 ^ (Z.log2 (max_pow2 ty) + 1) <= 2 ^ k)
      by (apply Z.pow_le_mono_r; lia).
    rewrite Z.pow_add_r, <- Hm in H2 by lia. change (2 ^ 1) with 2 in H2.
    assert (int_max ty < max_pow2 ty * 2)
      by (destruct ty; vm_compute; reflexivity).
    lia.
Qed.

End Pow2Facts.

(** [is_pow2] and [log2] together: for a positive [x] with [log2(x) = n],
    [is_pow2(x)] holds exactly when [x] is [2^n]. *)
Theorem is_pow2_log2 :
  forall (ty : int_type) (x : Z) (fuel : nat),
    0 < x -> in_range ty x -> (Z.to_nat (bits ty) <= fuel)%nat ->
    exists n : Z,
      log2 ty fuel x = Some n /\ 0 <= n /\
      (is_pow2 ty x = true <-> x = 2 ^ n).
Proof.
  intros ty x fuel Hx Hr Hf. exists (Z.log2 x).
  pose proof (Z.log2_nonneg x) as Hl.
  split; [ | split; [ assumption | split ] ].
  - unfold log2.
    pose proof (log2_lt_int_max ty x Hx Hr) as Hmax.
    assert (Hb : Z.log2 x < bits ty).
    { apply Z.log2_lt_pow2; [ assumption | ].
      apply Z.le_lt_trans with (int_max ty); [ apply Hr | ].
      destruct ty; vm_compute; reflexivity. }
    rewrite log2_loop_pos; try assumption; try lia. reflexivity.
  - apply is_pow2_inv; assumption.
  - intros E. rewrite E. apply is_pow2_pow2; [ assumption | ].
    apply pow2_in_range; [ assumption | rewrite <- E; assumption ].
Qed.

Lemma is_pow2_log2_witness :
  exists n : Z,
    log2 Int32 32 4096 = Some n /\ 0 <= n /\
    (is_pow2 Int32 4096 = true <-> 4096 = 2 ^ n).
Proof.
  apply (is_pow2_log2 Int32 4096 32).
  - reflexivity.
  - vm_compute. split; discriminate.
  - vm_compute. lia.
Defined.

(** [log2(next_pow2(x))] is the exponent of the power of two that
    [next_pow2(x)] returns: the least [n] with [x <= 2^n]. *)
Theorem log2_next_pow2 :
  forall (ty : int_type) (x : Z) (fuel : nat),
    0 < x <= max_pow2 ty -> (Z.to_nat (bits ty) <= fuel)%nat ->
    exists n : Z,
      log2 ty fuel (next_pow2 ty x) = Some n /\ 0 <= n /\
      next_pow2 ty x = 2 ^ n /\ x <= 2 ^ n /\
      (forall k : Z, 0 <= k -> x <= 2 ^ k -> n <= k).
Proof.
  intros ty x fuel Hx Hf. exists (Z.log2_up x).
  pose proof (Z.log2_up_nonneg x) as Hn.
  pose proof (next_pow2_value ty x Hx) as Hv.
  assert (Hle : x <= 2 ^ Z.log2_up x).
  { destruct (Z.eq_dec x 1) as [-> | H1]; [ cbn; lia | ].
    apply Z.log2_up_spec. lia. }
  assert (Hmin : forall k, 0 <= k -> x <= 2 ^ k -> Z.log2_up x <= k).
  { intros k Hk Hxk. rewrite <- (Z.log2_up_pow2 k Hk).
    apply Z.log2_up_le_mono. assumption. }
  assert (Hfit : 2 ^ Z.log2_up x <= max_pow2 ty).
  { destruct (max_pow2_eq ty) as [Hm [Hl0 Hl1]].
    rewrite Hm. apply Z.pow_le_mono_r; [ lia | ].
    apply Hmin; [ assumption | ]. rewrite <- Hm. lia. }
  assert (Hpos : 0 < 2 ^ Z.log2_up x) by (apply Z.pow_pos_nonneg; lia).
  assert (Hr : in_range ty (2 ^ Z.log2_up x))
    by (apply max_pow2_in_range; lia).
  split; [ | repeat split; try assumption; congruence ].
  rewrite Hv. unfold log2.
  pose proof (log2_lt_int_max ty _ Hpos Hr) as Hmax.
  rewrite Z.log2_pow2 in Hmax by assumption.
  destruct (max_pow2_eq ty) as [Hm [Hl0 Hl1]].
  assert (Hup : Z.log2_up x < bits ty).
  { assert (Z.log2_up x <= Z.log2 (max_pow2 ty)); [ | lia ].
    apply Hmin; [ assumption | ]. rewrite <- Hm. lia. }
  rewrite log2_loop_pos; try assumption; rewrite ?Z.log2_pow2 by assumption;
    try lia.
  reflexivity.
Qed.

Lemma log2_next_pow2_witness :
  exists n : Z,
    log2 UInt16 16 (next_pow2 UInt16 1000) = Some n /\ 0 <= n /\
    next_pow2 UInt16 1000 = 2 ^ n /\ 1000 <= 2 ^ n /\
    (forall k : Z, 0 <= k -> 1000 <= 2 ^ k -> n <= k).
Proof.
  apply (log2_next_pow2 UInt16 1000 16).
  - vm_compute. split; [ reflexivity | discriminate ].
  - vm_compute. lia.
Defined.

(** ** Floating-point helpers *)

Section OrderFacts.

Lemma key_compare_refl (a : Z * Z * Z) : key_compare a a = Eq.
Proof.
  destruct a as [[a1 a2] a3]. unfold key_compare.
  rewrite !Z.compare_refl. reflexivity.
Qed.

Lemma SFkey_nan (x : spec_float) : is_nan x = false -> SFkey x <> None.
Proof. destruct x as [s | [ | ] | | [ | ] m e]; cbn; congruence. Qed.

Lemma SFleb_refl (x : spec_float) : is_nan x = false -> SFleb x x = true.
Proof.
  intros H. unfold SFleb. rewrite SFcompare_key.
  destruct (SFkey x) as [a | ] eqn:E; [ | exfalso; exact (SFkey_nan x H E) ].
  rewrite key_compare_refl. reflexivity.
Qed.

Lemma SFleb_not_nan (x y : spec_float) :
  SFleb x y = true -> is_nan x = false /\ is_nan y = false.
Proof.
  unfold SFleb.
  destruct x as [s | s | | s m e], y as [s' | s' | | s' m' e']; cbn;
    intros H; try discriminate; split; reflexivity.
Qed.

Lemma SFltb_not_nan (x y : spec_float) :
  SFltb x y = true -> is_nan x = false /\ is_nan y = false.
Proof.
  unfold SFltb.
  destruct x as [s | s | | s m e], y as [s' | s' | | s' m' e']; cbn;
    intros H; try discriminate; split; reflexivity.
Qed.

Lemma SFltb_SFleb (x y : spec_float) : SFltb x y = true -> SFleb x y = true.
Proof.
  unfold SFltb, SFleb. destruct (SFcompare x y) as [[ | | ] | ];
    congruence.
Qed.

(** Of two numbers, neither a NaN, one is below or equal to the other. *)
Lemma SFleb_total (x y : spec_float) :
  is_nan x = false -> is_nan y = false ->
  SFleb x y = false -> SFltb y x = true.
Proof.
  intros Hx Hy. unfold SFleb, SFltb. rewrite !SFcompare_key.
  destruct (SFkey x) as [a | ] eqn:Ea;
    [ | exfalso; exact (SFkey_nan x Hx Ea) ].
  destruct (SFkey y) as [b | ] eqn:Eb;
    [ | exfalso; exact (SFkey_nan y Hy Eb) ].
  destruct (key_compare a b) eqn:E; try discriminate.
  intros _. apply key_compare_Gt in E. rewrite E. reflexivity.
Qed.

Lemma key_compare_antisym (a b : Z * Z * Z) :
  key_compare b a = CompOpp (key_compare a b).
Proof.
  destruct a as [[a1 a2] a3], b as [[b1 b2] b3]. unfold key_compare.
  rewrite (Z.compare_antisym a1 b1), (Z.compare_antisym a2 b2),
    (Z.compare_antisym a3 b3).
  destruct (a1 ?= b1); destruct (a2 ?= b2); destruct (a3 ?= b3);
    reflexivity.
Qed.

Lemma SFcompare_antisym (x y : spec_float) :
  SFcompare y x = option_map CompOpp (SFcompare x y).
Proof.
  rewrite !SFcompare_key.
  destruct (SFkey x) as [a | ], (SFkey y) as [b | ]; try reflexivity.
  cbn. rewrite (key_compare_antisym a b). reflexivity.
Qed.

Lemma SFleb_antisym (x y : spec_float) :
  SFleb x y = true -> SFleb y x = true -> SFeqb x y = true.
Proof.
  unfold SFleb, SFeqb. rewrite (SFcompare_antisym x y).
  destruct (SFcompare x y) as [[ | | ] | ]; cbn; congruence.
Qed.

Lemma SFeqb_sym (x y : spec_float) : SFeqb x y = SFeqb y x.
Proof.
  unfold SFeqb. rewrite (SFcompare_antisym x y).
  destruct (SFcompare x y) as [[ | | ] | ]; reflexivity.
Qed.

Lemma SFeqb_refl (x : spec_float) : is_nan x = false -> SFeqb x x = true.
Proof.
  intros H. apply SFleb_antisym; apply SFleb_refl; assumption.
Qed.

End OrderFacts.

(** [abs(x)] on a floating-point type is the magnitude of [x] for every
    [x] but the negative zero, which it returns unchanged, sign bit
    included; it is never below zero. *)
Theorem abs_fp_spec :
  forall x : spec_float,
    (x <> S754_zero true -> abs_fp x = SFabs x) /\
    abs_fp (S754_zero true) = S754_zero true /\
    SFltb (abs_fp x) fzero = false.
Proof.
  intros x. split; [ | split ].
  - destruct x as [[ | ] | [ | ] | | [ | ] m e]; intros H;
      try reflexivity. congruence.
  - reflexivity.
  - destruct x as [[ | ] | [ | ] | | [ | ] m e]; reflexivity.
Qed.

Lemma abs_fp_spec_witness :
  abs_fp (SFopp (of_ratio Double 5 2)) = of_ratio Double 5 2.
Proof.
  apply (proj1 (abs_fp_spec (SFopp (of_ratio Double 5 2)))).
  vm_compute. discriminate.
Defined.

(** [clamp(x, min, max)] on a floating-point type with [min <= max]: for
    every [x] that is not a NaN the result lies between [min] and [max],
    and equals [x] when [x] does; a NaN goes through unchanged. *)
Theorem clamp_fp_spec :
  forall x min max : spec_float,
    SFleb min max = true ->
    (is_nan x = false ->
     SFleb min (clamp_fp x min max) = true /\
     SFleb (clamp_fp x min max) max = true) /\
    (is_nan x = true -> clamp_fp x min max = x) /\
    (SFleb min x = true -> SFleb x max = true ->
     SFeqb (clamp_fp x min max) x = true).
Proof.
  intros x min max Hmm.
  destruct (SFleb_not_nan _ _ Hmm) as [Hmin Hmax].
  unfold clamp_fp. split; [ | split ].
  - intros Hx.
    destruct (SFleb x min) eqn:E1.
    + split; [ apply SFleb_refl; assumption | assumption ].
    + destruct (SFleb max x) eqn:E2.
      * split; [ assumption | apply SFleb_refl; assumption ].
      * split; apply SFltb_SFleb, SFleb_total; assumption.
  - destruct x; try discriminate. intros _.
    destruct min as [ | | | ]; destruct max as [ | | | ]; reflexivity.
  - intros H1 H2.
    destruct (SFleb x min) eqn:E1; [ apply SFleb_antisym; assumption | ].
    destruct (SFleb max x) eqn:E2; [ apply SFleb_antisym; assumption | ].
    apply SFeqb_refl. apply (SFleb_not_nan _ _ H2).
Qed.

Lemma clamp_fp_spec_witness :
  SFleb (fone Double) (clamp_fp (of_Z Double 7) (fone Double) (of_Z Double 3))
  = true /\
  SFleb (clamp_fp (of_Z Double 7) (fone Double) (of_Z Double 3)) (of_Z Double 3)
  = true.
Proof.
  apply (proj1 (clamp_fp_spec (of_Z Double 7) (fone Double) (of_Z Double 3)
                  eq_refl)).
  reflexivity.
Defined.

(** [saturate(x)] lies in [[0, 1]] for every [x] that is not a NaN, is [x]
    itself for [0 < x < 1], turns the negative zero into the positive one,
    and is unchanged by a second application; a NaN goes through. *)
Theorem saturate_spec :
  forall (T : fp_type) (x : spec_float),
    (is_nan x = false ->
     SFleb fzero (saturate T x) = true /\
     SFleb (saturate T x) (fone T) = true) /\
    (SFltb fzero x = true -> SFltb x (fone T) = true -> saturate T x = x) /\
    (is_nan x = true -> saturate T x = x) /\
    saturate T (S754_zero true) = S754_zero false /\
    saturate T (saturate T x) = saturate T x.
Proof.
  intros T x.
  assert (H1 : is_nan (fone T) = false) by (destruct T; reflexivity).
  assert (H01 : SFleb fzero (fone T) = true) by (destruct T; reflexivity).
  assert (H10 : SFleb (fone T) fzero = false) by (destruct T; reflexivity).
  unfold saturate. split; [ | split; [ | split; [ | split ] ] ].
  - intros Hx.
    destruct (SFleb x fzero) eqn:E1; [ split; [ reflexivity | exact H01 ] | ].
    destruct (SFleb (fone T) x) eqn:E2.
    + split; [ exact H01 | apply SFleb_refl, H1 ].
    + split; apply SFltb_SFleb, SFleb_total; try assumption; reflexivity.
  - intros Hlo Hhi.
    unfold SFltb, SFleb in *. rewrite (SFcompare_antisym fzero x).
    rewrite (SFcompare_antisym x (fone T)).
    destruct (SFcompare fzero x) as [[ | | ] | ]; try discriminate.
    destruct (SFcompare x (fone T)) as [[ | | ] | ]; try discriminate.
    reflexivity.
  - destruct x; try discriminate. intros _. destruct T; reflexivity.
  - reflexivity.
  - destruct (SFleb x fzero) eqn:E1; [ reflexivity | ].
    destruct (SFleb (fone T) x) eqn:E2.
    + rewrite H10, (SFleb_refl _ H1). reflexivity.
    + rewrite E1, E2. reflexivity.
Qed.

Lemma saturate_spec_witness :
  saturate Float (of_ratio Float 1 3) = of_ratio Float 1 3 /\
  SFleb (saturate Double (S754_infinity false)) (fone Double) = true.
Proof.
  split.
  - apply (proj1 (proj2 (saturate_spec Float (of_ratio Float 1 3))));
      reflexivity.
  - apply (proj1 (saturate_spec Double (S754_infinity false))). reflexivity.
Defined.

(** [fz(x, eps)] is [feq] against a zero of either sign, on either side:
    [feq(x, 0, eps)], [feq(0, x, eps)] and [fz(x, eps)] are the same test,
    for every [x] and [eps], NaN included. *)
Theorem fz_is_feq_zero :
  forall (T : fp_type) (x eps : spec_float) (s : bool),
    feq T x (S754_zero s) eps = fz x eps /\
    feq T (S754_zero s) x eps = fz x eps.
Proof.
  intros T x eps s. unfold feq, fz. split.
  - destruct (SFeqb x fzero) eqn:E.
    + apply SFeqb_zero_inv in E. destruct E as [s' ->]. reflexivity.
    + replace (SFeqb (S754_zero s) fzero) with true by reflexivity.
      reflexivity.
  - replace (SFeqb (S754_zero s) fzero) with true by reflexivity.
    reflexivity.
Qed.

(** [square(x)] is never below zero, whatever [x] is, and the same for [x]
    and [-x]; [pow_int(x, 2)] is [square(x)] and [pow_int(x, 1)] is [x]. *)
Theorem square_fp_spec :
  forall (T : fp_type) (x : spec_float),
    SFltb (square_fp T x) fzero = false /\
    square_fp T (SFopp x) = square_fp T x.
Proof.
  intros T x. unfold square_fp, fmul. split.
  - destruct x as [s | s | | s m e]; cbn [SFmul];
      rewrite ?xorb_nilpotent; try reflexivity.
    pose proof (binary_round_aux_sign (fprec T) (femax T) false
                  (Zpos (m * m)) (e + e) loc_Exact) as Hs.
    destruct (binary_round_aux _ _ _ _ _ _) as [s' | s' | | s' m' e'];
      cbn in Hs; subst; reflexivity.
  - destruct x as [[ | ] | [ | ] | | [ | ] m e]; reflexivity.
Qed.

Section ExactFacts.

Variables prec emax : Z.
Hypothesis Hprec : 0 < prec.

Local Notation "'emin'" := (SpecFloat.emin prec emax).
Local Notation "'fexp'" := (SpecFloat.fexp prec emax).

(** Rounding the significand [M] at exponent [ez] of a number that the
    format holds as [m * 2^e] gives that number back. *)
Lemma binary_round_aux_exact (s : bool) (M ez : Z) (m : positive) (e : Z) :
  bounded prec emax m e = true -> ez <= e -> M = Zpos m * 2 ^ (e - ez) ->
  binary_round_aux prec emax s M ez loc_Exact = S754_finite s m e.
Proof.
  intros Hb Hez HM.
  pose proof (bounded_canonical prec emax m e Hb) as [Hc He].
  pose proof (proj1 (canonical_spec prec emax m e) Hc) as Hf.
  assert (Hp : 0 < 2 ^ (e - ez)) by (apply Z.pow_pos_nonneg; lia).
  assert (HM0 : 0 < M) by (rewrite HM; nia).
  assert (Hd : Zdigits2 M + ez = Zpos (digits2_pos m) + e).
  { rewrite HM, Zdigits2_mul_pow2 by lia. cbn [Zdigits2]. lia. }
  destruct (binary_round_aux_spec prec emax Hprec s M ez loc_Exact HM0)
    as [m2 [_ [Hex Hout]]]; [ rewrite Hd, <- Hf; assumption | ].
  rewrite Hd, <- Hf in Hex, Hout.
  assert (Hm2 : m2 = Zpos m).
  { rewrite Hex; [ | reflexivity | exists (Zpos m); exact HM ].
    rewrite HM. apply Z.div_mul. lia. }
  subst m2.
  destruct Hout as [[Hz _] | [m3 [e3 [He3 [Hm3 [Hc3 ->]]]]]]; [ lia | ].
  pose proof (proj1 (canonical_spec prec emax m3 e3) Hc3) as Hf3.
  assert (Hd3 : Zpos (digits2_pos m) = Zpos (digits2_pos m3) + (e3 - e)).
  { pose proof (Zdigits2_mul_pow2 (Zpos m3) (e3 - e) ltac:(lia) ltac:(lia))
      as H. rewrite Hm3 in H. cbn [Zdigits2] in H. exact H. }
  assert (Ee : e3 = e).
  { rewrite Hf3, Hf. f_equal. lia. }
  subst e3. rewrite Z.sub_diag, Z.mul_1_r in Hm3.
  injection Hm3 as ->.
  replace (e <=? emax - prec) with true by (symmetry; apply Z.leb_le; lia).
  reflexivity.
Qed.

Lemma binary_round_exact (s : bool) (M : positive) (ez : Z) (m : positive)
    (e : Z) :
  bounded prec emax m e = true -> ez <= e ->
  Zpos M = Zpos m * 2 ^ (e - ez) ->
  binary_round prec emax s M ez = S754_finite s m e.
Proof.
  intros Hb Hez HM.
  pose proof (bounded_canonical prec emax m e Hb) as [Hc He].
  pose proof (proj1 (canonical_spec prec emax m e) Hc) as Hf.
  assert (Hd : Zpos (digits2_pos M) + ez = Zpos (digits2_pos m) + e).
  { pose proof (Zdigits2_mul_pow2 (Zpos m) (e - ez) ltac:(lia) ltac:(lia))
      as H. rewrite <- HM in H. cbn [Zdigits2] in H. lia. }
  unfold binary_round. rewrite Hd, <- Hf.
  rewrite shl_align_id by assumption.
  apply binary_round_aux_exact; assumption.
Qed.

Lemma binary_normalize_exact (s sz : bool) (M : positive) (ez : Z)
    (m : positive) (e : Z) :
  bounded prec emax m e = true -> ez <= e ->
  Zpos M = Zpos m * 2 ^ (e - ez) ->
  binary_normalize prec emax (cond_Zopp s (Zpos M)) ez sz
  = S754_finite s m e.
Proof.
  intros Hb Hez HM. destruct s; cbn [cond_Zopp Z.opp binary_normalize];
    apply binary_round_exact; assumption.
Qed.

End ExactFacts.

Section UnitFacts.

Lemma fone_value (T : fp_type) :
  exists m1 : positive,
    fone T = S754_finite false m1 (1 - fprec T) /\
    Zpos m1 = 2 ^ (fprec T - 1) /\
    bounded (fprec T) (femax T) m1 (1 - fprec T) = true.
Proof.
  destruct T.
  - exists 8388608%positive. repeat split.
  - exists 4503599627370496%positive. repeat split.
Qed.

Lemma fmul_one_r (T : fp_type) (x : spec_float) :
  is_float T x = true -> fmul T x (fone T) = x.
Proof.
  intros Hx. destruct (fone_value T) as [m1 [E1 [Hm1 _]]].
  rewrite E1. unfold fmul.
  destruct x as [s | s | | s m e]; cbn [SFmul];
    rewrite ?xorb_false_r; try reflexivity.
  pose proof (fprec_pos T) as Hp.
  apply binary_round_aux_exact; try assumption; try lia.
  rewrite Pos2Z.inj_mul, Hm1. do 2 f_equal. lia.
Qed.

Lemma fmul_one_l (T : fp_type) (x : spec_float) :
  is_float T x = true -> fmul T (fone T) x = x.
Proof.
  intros Hx. destruct (fone_value T) as [m1 [E1 [Hm1 _]]].
  rewrite E1. unfold fmul.
  destruct x as [s | s | | s m e]; cbn [SFmul xorb]; try reflexivity.
  pose proof (fprec_pos T) as Hp.
  apply binary_round_aux_exact; try assumption; try lia.
  rewrite Pos2Z.inj_mul, Hm1, Z.mul_comm. do 2 f_equal. lia.
Qed.

Lemma SFadd_comm (prec emax : Z) (x y : spec_float) :
  SFadd prec emax x y = SFadd prec emax y x.
Proof.
  destruct x as [[ | ] | [ | ] | | sx mx ex],
           y as [[ | ] | [ | ] | | sy my ey]; try reflexivity.
  cbn [SFadd]. rewrite (Z.min_comm ey ex), Z.add_comm. reflexivity.
Qed.

Lemma fsub_diag (T : fp_type) (s : bool) (m : positive) (e : Z) :
  fsub T (S754_finite s m e) (S754_finite s m e) = S754_zero false.
Proof.
  unfold fsub. cbn [SFsub]. rewrite Z.sub_diag. reflexivity.
Qed.

Lemma fdiv_diag (T : fp_type) (s : bool) (m : positive) (e : Z) :
  fdiv T (S754_finite s m e) (S754_finite s m e) = fone T.
Proof.
  destruct (fone_value T) as [m1 [E1 [Hm1 Hb1]]]. rewrite E1.
  unfold fdiv. cbn [SFdiv]. unfold SFdiv_core_binary.
  rewrite xorb_nilpotent, !Z.sub_diag.
  assert (Hf : SpecFloat.fexp (fprec T) (femax T) 0 = - fprec T)
    by (destruct T; reflexivity).
  rewrite Hf.
  pose proof (fprec_pos T) as Hp.
  replace (Z.min (- fprec T) 0) with (- fprec T) by lia.
  replace (0 - - fprec T) with (fprec T) by lia.
  destruct (fprec T) as [ | p | p ] eqn:EP; try lia.
  rewrite Z.shiftl_mul_pow2 by lia.
  assert (Hq : (Zpos m * 2 ^ Zpos p) / Zpos m = 2 ^ Zpos p)
    by (rewrite Z.mul_comm; apply Z.div_mul; lia).
  assert (Hr : (Zpos m * 2 ^ Zpos p) mod Zpos m = 0)
    by (rewrite Z.mul_comm; apply Z.mod_mul; lia).
  unfold Z.div, Z.modulo in Hq, Hr.
  destruct (Z.div_eucl (Zpos m * 2 ^ Zpos p) (Zpos m)) as [q r].
  subst q r.
  replace (new_location (Zpos m) 0) with loc_Exact
    by (unfold new_location, new_location_even, new_location_odd;
        destruct (Z.even (Zpos m)); reflexivity).
  rewrite <- EP in *.
  apply binary_round_aux_exact; try assumption; try lia.
  rewrite Hm1. replace (1 - fprec T - - fprec T) with 1 by lia.
  rewrite <- Z.pow_add_r by lia. f_equal. lia.
Qed.

End UnitFacts.

Section FmodFacts.

Variables prec emax : Z.
Hypothesis Hprec : 0 < prec.

(** The remainder of a value by a divisor of larger magnitude is the
    value. *)
Lemma SFfmod_small (sa : bool) (ma mn : positive) (ea en : Z) :
  bounded prec emax ma ea = true -> bounded prec emax mn en = true ->
  SFltb (S754_finite false ma ea) (S754_finite false mn en) = true ->
  SFfmod prec emax (S754_finite sa ma ea) (S754_finite false mn en)
  = S754_finite sa ma ea.
Proof.
  intros Ha Hn Hlt. cbn [SFfmod].
  set (ez := Z.min ea en).
  destruct (shl_align_spec ma ea ez ltac:(lia)) as [HMa _].
  destruct (shl_align_spec mn en ez ltac:(lia)) as [HMn _].
  pose proof (bounded_canonical prec emax ma ea Ha) as [Hca _].
  pose proof (bounded_canonical prec emax mn en Hn) as [Hcn _].
  assert (Hlex : ea < en \/ (ea = en /\ Zpos ma < Zpos mn)).
  { unfold SFltb in Hlt. rewrite SFcompare_finite_pos in Hlt.
    destruct (Z.compare_spec ea en); try discriminate; [ | lia ].
    right. split; [ assumption | ].
    destruct (Pos.compare_spec ma mn); try discriminate. lia. }
  pose proof (canonical_lex_lt prec emax Hprec ma mn ea en ez Hca Hcn
                ltac:(lia) ltac:(lia) Hlex) as HM.
  rewrite <- HMa, <- HMn in HM.
  rewrite Z.rem_small by lia.
  apply binary_normalize_exact; try assumption; lia.
Qed.

End FmodFacts.

Section ModFacts.

(** The common shape of [wrap] and [normalize_angle]: the remainder by a
    positive [n], moved up by [n] when it is negative. *)
Lemma fmod_shift_is_mod (T : fp_type) (x n : spec_float) :
  (let y := ffmod T x n in if SFltb y fzero then fadd T y n else y)
  = mod_fp T x n.
Proof.
  unfold mod_fp. cbv zeta. destruct (SFltb (ffmod T x n) fzero);
    [ apply SFadd_comm | reflexivity ].
Qed.

Lemma fmod_shift_id (T : fp_type) (x n : spec_float) :
  is_float T x = true -> is_float T n = true ->
  SFleb fzero x = true -> SFltb x n = true ->
  mod_fp T x n = x.
Proof.
  intros Hx Hn H0 H1. unfold mod_fp, ffmod.
  pose proof (fprec_pos T) as Hp.
  destruct x as [sx | sx | | sx mx ex]; try discriminate.
  - destruct n as [sn | sn | | sn mn en]; try discriminate;
      destruct sx; reflexivity.
  - destruct sx; [ discriminate | ].
    destruct n as [sn | [ | ] | | [ | ] mn en]; discriminate.
  - destruct sx; [ discriminate | ].
    destruct n as [sn | [ | ] | | [ | ] mn en]; try discriminate.
    + reflexivity.
    + rewrite (SFfmod_small _ _ Hp) by assumption. reflexivity.
Qed.

End ModFacts.

(** [wrap(x)] is [mod(x, 1)]: for every finite [x] it lies in the closed
    interval [[0, 1]], it is [x] itself for [0 <= x < 1], and it is [1.0]
    for a negative [x] as small as [-1e-20], where [x + 1] rounds to 1; for
    an infinite [x] it is a NaN. *)
Theorem wrap_fp_spec :
  forall (T : fp_type) (x : spec_float),
    is_float T x = true ->
    wrap_fp T x = mod_fp T x (fone T) /\
    (is_finite x = true ->
     SFleb fzero (wrap_fp T x) = true /\
     SFleb (wrap_fp T x) (fone T) = true) /\
    (SFleb fzero x = true -> SFltb x (fone T) = true -> wrap_fp T x = x) /\
    wrap_fp T (SFopp (of_ratio T 1 100000000000000000000)) = fone T /\
    wrap_fp T (S754_infinity false) = S754_nan /\
    wrap_fp T (S754_infinity true) = S754_nan.
Proof.
  intros T x Hx.
  assert (H1 : is_float T (fone T) = true) by (destruct T; reflexivity).
  assert (H01 : SFltb fzero (fone T) = true) by (destruct T; reflexivity).
  assert (E : wrap_fp T x = mod_fp T x (fone T))
    by (apply fmod_shift_is_mod).
  split; [ exact E | ]. rewrite E.
  split; [ | split; [ | split; [ | split ] ] ].
  - intros Hf. apply mod_fp_range; assumption.
  - intros Hlo Hhi. apply fmod_shift_id; assumption.
  - destruct T; vm_compute; reflexivity.
  - destruct T; reflexivity.
  - destruct T; reflexivity.
Qed.

Lemma wrap_fp_spec_witness :
  wrap_fp Double (of_ratio Double 3 4) = of_ratio Double 3 4 /\
  SFleb (wrap_fp Float (SFopp (of_ratio Float 7 2))) (fone Float) = true.
Proof.
  split.
  - apply (proj1 (proj2 (proj2 (wrap_fp_spec Double (of_ratio Double 3 4)
                                  eq_refl)))); reflexivity.
  - apply (proj1 (proj2 (wrap_fp_spec Float (SFopp (of_ratio Float 7 2))
                           eq_refl))). reflexivity.
Defined.

(** [normalize_angle(angle)] is [mod(angle, T(TwoPi))]: for every finite
    angle it lies in the closed interval from 0 to [T(TwoPi)], and it is the
    angle itself from 0 to below [T(TwoPi)].  The upper bound is reached,
    for [-1e-20], and is not kept by a second application, which gives 0. *)
Theorem normalize_angle_spec :
  forall (T : fp_type) (x : spec_float),
    is_float T x = true ->
    normalize_angle T x = mod_fp T x (fp_cast T TwoPi) /\
    (is_finite x = true ->
     SFleb fzero (normalize_angle T x) = true /\
     SFleb (normalize_angle T x) (fp_cast T TwoPi) = true) /\
    (SFleb fzero x = true -> SFltb x (fp_cast T TwoPi) = true ->
     normalize_angle T x = x) /\
    normalize_angle T (SFopp (of_ratio T 1 100000000000000000000))
    = fp_cast T TwoPi /\
    normalize_angle T (fp_cast T TwoPi) = fzero.
Proof.
  intros T x Hx.
  assert (H1 : is_float T (fp_cast T TwoPi) = true)
    by (destruct T; vm_compute; reflexivity).
  assert (H01 : SFltb fzero (fp_cast T TwoPi) = true)
    by (destruct T; vm_compute; reflexivity).
  assert (E : normalize_angle T x = mod_fp T x (fp_cast T TwoPi))
    by (apply fmod_shift_is_mod).
  split; [ exact E | ]. rewrite E.
  split; [ | split; [ | split ] ].
  - intros Hf. apply mod_fp_range; assumption.
  - intros Hlo Hhi. apply fmod_shift_id; assumption.
  - destruct T; vm_compute; reflexivity.
  - destruct T; vm_compute; reflexivity.
Qed.

Lemma normalize_angle_spec_witness :
  normalize_angle Double (of_Z Double 3) = of_Z Double 3 /\
  SFleb (normalize_angle Float (SFopp (of_Z Float 100))) (fp_cast Float TwoPi)
  = true.
Proof.
  split.
  - apply (proj1 (proj2 (proj2 (normalize_angle_spec Double (of_Z Double 3)
                                  eq_refl)))); reflexivity.
  - apply (proj1 (proj2 (normalize_angle_spec Float (SFopp (of_Z Float 100))
                           eq_refl))). reflexivity.
Defined.

Section BlendFacts.

Lemma fmul_zero_l (T : fp_type) (s : bool) (b : spec_float) :
  is_finite b = true -> exists s', fmul T (S754_zero s) b = S754_zero s'.
Proof.
  destruct b as [sb | sb | | sb mb eb]; try discriminate; intros _;
    eexists; reflexivity.
Qed.

Lemma fmul_zero_r (T : fp_type) (s : bool) (b : spec_float) :
  is_finite b = true -> exists s', fmul T b (S754_zero s) = S754_zero s'.
Proof.
  destruct b as [sb | sb | | sb mb eb]; try discriminate; intros _;
    eexists; reflexivity.
Qed.

Lemma fadd_zero_r (T : fp_type) (s : bool) (a : spec_float) :
  is_finite a = true ->
  SFeqb (fadd T a (S754_zero s)) a = true /\
  (SFeqb a fzero = false -> fadd T a (S754_zero s) = a).
Proof.
  destruct a as [[ | ] | sa | | sa ma ea]; try discriminate; intros _;
    destruct s; cbn; try (split; [ reflexivity | discriminate ]).
  all: split; [ | reflexivity ];
    apply (SFeqb_refl (S754_finite sa ma ea)); reflexivity.
Qed.

Lemma fadd_zero_l (T : fp_type) (s : bool) (a : spec_float) :
  is_finite a = true ->
  SFeqb (fadd T (S754_zero s) a) a = true /\
  (SFeqb a fzero = false -> fadd T (S754_zero s) a = a).
Proof.
  intros Ha. unfold fadd. rewrite SFadd_comm. apply fadd_zero_r, Ha.
Qed.

Lemma fsub_one_zero (T : fp_type) (s : bool) :
  fsub T (fone T) (S754_zero s) = fone T.
Proof. destruct T; reflexivity. Qed.

Lemma fsub_one_one (T : fp_type) : fsub T (fone T) (fone T) = fzero.
Proof. destruct T; reflexivity. Qed.

(** [p * 1 + q * 0] and [p * 0 + q * 1] in the four orders the header
    writes them. *)
Lemma blend_first (T : fp_type) (p q : spec_float) (s : bool) :
  is_float T p = true -> is_finite p = true -> is_finite q = true ->
  forall r : spec_float,
    (r = fadd T (fmul T (fone T) p) (fmul T (S754_zero s) q) \/
     r = fadd T (fmul T p (fone T)) (fmul T q (S754_zero s))) ->
    SFeqb r p = true /\ (SFeqb p fzero = false -> r = p).
Proof.
  intros Hp Hfp Hfq r [-> | ->].
  - rewrite fmul_one_l by assumption.
    destruct (fmul_zero_l T s q Hfq) as [s' ->].
    apply fadd_zero_r, Hfp.
  - rewrite fmul_one_r by assumption.
    destruct (fmul_zero_r T s q Hfq) as [s' ->].
    apply fadd_zero_r, Hfp.
Qed.

Lemma blend_second (T : fp_type) (p q : spec_float) (s : bool) :
  is_float T q = true -> is_finite p = true -> is_finite q = true ->
  forall r : spec_float,
    (r = fadd T (fmul T (S754_zero s) p) (fmul T (fone T) q) \/
     r = fadd T (fmul T p (S754_zero s)) (fmul T q (fone T))) ->
    SFeqb r q = true /\ (SFeqb q fzero = false -> r = q).
Proof.
  intros Hq Hfp Hfq r [-> | ->].
  - rewrite fmul_one_l by assumption.
    destruct (fmul_zero_l T s p Hfp) as [s' ->].
    apply fadd_zero_l, Hfq.
  - rewrite fmul_one_r by assumption.
    destruct (fmul_zero_r T s p Hfp) as [s' ->].
    apply fadd_zero_l, Hfq.
Qed.

Lemma lerp_at_zero (T : fp_type) (a b x : spec_float) :
  is_float T a = true -> is_finite a = true -> is_finite b = true ->
  SFeqb x fzero = true ->
  SFeqb (lerp T a b x) a = true /\
  (SFeqb a fzero = false -> lerp T a b x = a).
Proof.
  intros Ha Hfa Hfb Hx. apply SFeqb_zero_inv in Hx. destruct Hx as [s ->].
  apply (blend_first T a b s Ha Hfa Hfb). left.
  unfold lerp. rewrite fsub_one_zero. reflexivity.
Qed.

Lemma lerp_at_one (T : fp_type) (a b : spec_float) :
  is_float T b = true -> is_finite a = true -> is_finite b = true ->
  SFeqb (lerp T a b (fone T)) b = true /\
  (SFeqb b fzero = false -> lerp T a b (fone T) = b).
Proof.
  intros Hb Hfa Hfb.
  apply (blend_second T a b false Hb Hfa Hfb). left.
  unfold lerp. rewrite fsub_one_one. reflexivity.
Qed.

End BlendFacts.

Section DiffFacts.

Variables prec emax : Z.
Hypothesis Hprec : 0 < prec.

Local Notation "'emin'" := (SpecFloat.emin prec emax).
Local Notation "'fexp'" := (SpecFloat.fexp prec emax).

(** Rounding a nonzero significand at an exponent of the format never
    gives a zero: the result is a finite number or an infinity of the same
    sign. *)
Lemma binary_round_nonzero (s : bool) (P : positive) (ez : Z) :
  emin <= ez -> SFsign (binary_round prec emax s P ez) = Some s.
Proof.
  intros Hez.
  destruct (binary_round_spec prec emax Hprec s P ez) as [m2 [Hout Hcase]].
  set (f := fexp (Zpos (digits2_pos P) + ez)) in *.
  assert (Hm2 : 0 < m2).
  { destruct Hcase as [[Hfe ->] | [Hfe [Hm2 _]]].
    - assert (0 < 2 ^ (ez - f)) by (apply Z.pow_pos_nonneg; lia). nia.
    - assert (Hf : f = Zpos (digits2_pos P) + ez - prec)
        by (subst f; unfold SpecFloat.fexp in *; lia).
      pose proof (digits2_bounds P) as [Hlo _].
      assert (Hq : 1 <= Zpos P / 2 ^ (f - ez)).
      { apply Z.div_le_lower_bound; [ apply Z.pow_pos_nonneg; lia | ].
        rewrite Z.mul_1_r.
        apply Z.le_trans with (2 ^ (Zpos (digits2_pos P) - 1));
          [ | assumption ].
        apply Z.pow_le_mono_r; lia. }
      lia. }
  destruct Hout as [[Hz _] | [m3 [e3 [_ [_ [_ ->]]]]]]; [ lia | ].
  destruct (e3 <=? emax - prec); reflexivity.
Qed.

Lemma SFeqb_finite_refl (s : bool) (m : positive) (e : Z) :
  SFeqb (S754_finite s m e) (S754_finite s m e) = true.
Proof. apply (SFeqb_refl (S754_finite s m e)). reflexivity. Qed.

(** The difference of two finite values of the format that are not equal
    is not a zero. *)
Lemma SFsub_nonzero (x y : spec_float) :
  valid_binary prec emax x = true -> valid_binary prec emax y = true ->
  is_finite x = true -> is_finite y = true -> SFeqb x y = false ->
  exists s, SFsign (SFsub prec emax x y) = Some s.
Proof.
  intros Hx Hy Hfx Hfy Hne.
  destruct x as [sx | sx | | sx mx ex]; try discriminate;
    destruct y as [sy | sy | | sy my ey]; try discriminate.
  - eexists; reflexivity.
  - eexists; reflexivity.
  - cbn [valid_binary] in Hx, Hy.
    pose proof (bounded_canonical prec emax mx ex Hx) as [Hcx _].
    pose proof (bounded_canonical prec emax my ey Hy) as [Hcy _].
    pose proof (canonical_digits prec emax mx ex Hcx) as [Hex _].
    pose proof (canonical_digits prec emax my ey Hcy) as [Hey _].
    cbn [SFsub]. set (ez := Z.min ex ey).
    destruct (shl_align_spec mx ex ez ltac:(lia)) as [HMx _].
    destruct (shl_align_spec my ey ez ltac:(lia)) as [HMy _].
    set (Mx := Zpos (fst (shl_align mx ex ez))) in *.
    set (My := Zpos (fst (shl_align my ey ez))) in *.
    assert (Hdiff : sx = sy -> Mx <> My).
    { intros ->.
      assert (Hlex : (ex < ey \/ (ex = ey /\ Zpos mx < Zpos my)) \/
                     (ey < ex \/ (ey = ex /\ Zpos my < Zpos mx))).
      { destruct (Z.lt_trichotomy ex ey) as [ | [ -> | ] ]; try lia.
        destruct (Z.lt_trichotomy (Zpos mx) (Zpos my)) as [ | [ E | ] ];
          try lia.
        injection E as ->. rewrite SFeqb_finite_refl in Hne.
        discriminate. }
      destruct Hlex as [Hlt | Hlt].
      - pose proof (canonical_lex_lt prec emax Hprec mx my ex ey ez
                      Hcx Hcy ltac:(lia) ltac:(lia) Hlt). lia.
      - pose proof (canonical_lex_lt prec emax Hprec my mx ey ex ez
                      Hcy Hcx ltac:(lia) ltac:(lia) Hlt). lia. }
    assert (HMx0 : 0 < Mx) by (subst Mx; lia).
    assert (HMy0 : 0 < My) by (subst My; lia).
    destruct (cond_Zopp sx Mx - cond_Zopp sy My) as [ | D | D ] eqn:ED.
    + exfalso. destruct sx, sy; cbn [cond_Zopp] in ED;
        try (apply Hdiff; [ reflexivity | lia ]); lia.
    + exists false. apply binary_round_nonzero. lia.
    + exists true. apply binary_round_nonzero. lia.
Qed.

End DiffFacts.

Lemma fsub_self (T : fp_type) (x : spec_float) :
  is_finite x = true -> fsub T x x = S754_zero false.
Proof.
  destruct x as [[ | ] | s | | s m e]; try discriminate; intros _;
    try reflexivity.
  apply fsub_diag.
Qed.

(** [lerp(a, b, x)] with finite [a] and [b] is equal to [a] at [x = 0]
    and to [b] at [x = 1], with no rounding error: it is [a] (or [b])
    itself when that is not a zero. *)
Theorem lerp_ends :
  forall (T : fp_type) (a b x : spec_float),
    is_float T a = true -> is_float T b = true ->
    is_finite a = true -> is_finite b = true ->
    (SFeqb x fzero = true ->
     SFeqb (lerp T a b x) a = true /\
     (SFeqb a fzero = false -> lerp T a b x = a)) /\
    SFeqb (lerp T a b (fone T)) b = true /\
    (SFeqb b fzero = false -> lerp T a b (fone T) = b).
Proof.
  intros T a b x Ha Hb Hfa Hfb. split.
  - intros Hx. apply lerp_at_zero; assumption.
  - apply lerp_at_one; assumption.
Qed.

Lemma lerp_ends_witness :
  lerp Double (of_ratio Double 1 10) (of_Z Double 7) fzero
  = of_ratio Double 1 10 /\
  lerp Float (of_ratio Float 1 10) (of_Z Float 7) (fone Float)
  = of_Z Float 7.
Proof.
  split.
  - apply (proj1 (lerp_ends Double (of_ratio Double 1 10) (of_Z Double 7)
                    fzero eq_refl eq_refl eq_refl eq_refl)); reflexivity.
  - apply (proj2 (proj2 (lerp_ends Float (of_ratio Float 1 10)
                           (of_Z Float 7) fzero
                           eq_refl eq_refl eq_refl eq_refl))); reflexivity.
Defined.

(** [mix(a, b, x)] returns [a] for [x <= 0] and [b] for [x >= 1] whatever
    [a] and [b] are, and a NaN for a NaN [x].  With finite [a] and [b] it
    is equal to [lerp(a, b, x)] at [x = 0] and at [x = 1]; with an infinite
    [a] it is not: [lerp(inf, 1, 1)] is a NaN, [mix(inf, 1, 1)] is 1. *)
Theorem mix_spec :
  forall (T : fp_type) (a b x : spec_float),
    (SFleb x fzero = true -> mix T a b x = a) /\
    (SFleb (fone T) x = true -> mix T a b x = b) /\
    (is_nan x = true -> mix T a b x = S754_nan) /\
    (is_float T a = true -> is_float T b = true ->
     is_finite a = true -> is_finite b = true ->
     (SFeqb x fzero = true -> SFeqb (mix T a b x) (lerp T a b x) = true) /\
     SFeqb (mix T a b (fone T)) (lerp T a b (fone T)) = true) /\
    mix T (S754_infinity false) (fone T) (fone T) = fone T /\
    lerp T (S754_infinity false) (fone T) (fone T) = S754_nan.
Proof.
  intros T a b x.
  assert (H10 : SFleb (fone T) fzero = false) by (destruct T; reflexivity).
  assert (H11 : SFleb (fone T) (fone T) = true) by (destruct T; reflexivity).
  split; [ | split; [ | split; [ | split; [ | split ] ] ] ].
  - intros Hx. unfold mix. rewrite Hx. reflexivity.
  - intros Hx. unfold mix. rewrite Hx.
    destruct (SFleb x fzero) eqn:E; [ | reflexivity ].
    exfalso.
    assert (Hc : SFleb (fone T) fzero = true).
    { unfold SFleb in *. rewrite SFcompare_key in *.
      destruct (SFkey (fone T)) as [k1 | ] eqn:E1; try discriminate.
      destruct (SFkey x) as [kx | ] eqn:Ex; try discriminate.
      cbn [SFkey fzero] in *.
      destruct k1 as [[a1 a2] a3], kx as [[b1 b2] b3].
      destruct (key_compare (a1, a2, a3) (b1, b2, b3)) eqn:C1;
        try discriminate;
        destruct (key_compare (b1, b2, b3) (0, 0, 0)) eqn:C2;
        try discriminate;
        destruct (key_compare (a1, a2, a3) (0, 0, 0)) eqn:C3;
        try reflexivity; exfalso;
        unfold key_compare in *;
        repeat match goal with
               | H : context [?u ?= ?v] |- _ =>
                   destruct (Z.compare_spec u v); try discriminate
               end; lia. }
    congruence.
  - destruct x; try discriminate. intros _. unfold mix, lerp, fsub, fmul, fadd.
    cbn [SFleb SFcompare].
    destruct (fone_value T) as [m1 [-> _]]. cbn [SFsub SFmul SFadd].
    destruct a; reflexivity.
  - intros Ha Hb Hfa Hfb. split.
    + intros Hx.
      destruct (lerp_at_zero T a b x Ha Hfa Hfb Hx) as [E _].
      apply SFeqb_zero_inv in Hx. destruct Hx as [s ->].
      unfold mix. replace (SFleb (S754_zero s) fzero) with true
        by (destruct s; reflexivity).
      rewrite SFeqb_sym. exact E.
    + destruct (lerp_at_one T a b Hb Hfa Hfb) as [E _].
      unfold mix. rewrite H10, H11. rewrite SFeqb_sym. exact E.
  - unfold mix. rewrite H10, H11. reflexivity.
  - destruct T; reflexivity.
Qed.

Lemma mix_spec_witness :
  mix Double (of_Z Double 2) (of_Z Double 5) (SFopp (fone Double))
  = of_Z Double 2 /\
  mix Double (of_Z Double 2) (of_Z Double 5) (of_Z Double 9) = of_Z Double 5.
Proof.
  split.
  - apply (proj1 (mix_spec Double (of_Z Double 2) (of_Z Double 5)
                    (SFopp (fone Double)))). reflexivity.
  - apply (proj1 (proj2 (mix_spec Double (of_Z Double 2) (of_Z Double 5)
                           (of_Z Double 9)))). reflexivity.
Defined.

(** [fit] maps the ends of the source range onto the ends of the target
    range: with finite arguments, [min_x != max_x] and [min_y != max_y]
    (the two assertions of the function), [fit(min_x, ...)] is equal to
    [min_y], and [fit(max_x, ...)] is equal to [max_y] provided
    [max_x - min_x] does not overflow; where it overflows the result is a
    NaN. *)
Theorem fit_ends :
  forall (T : fp_type) (min_x max_x min_y max_y : spec_float),
    is_float T min_x = true -> is_float T max_x = true ->
    is_float T min_y = true -> is_float T max_y = true ->
    is_finite min_x = true -> is_finite max_x = true ->
    is_finite min_y = true -> is_finite max_y = true ->
    SFeqb max_x min_x = false -> SFeqb max_y min_y = false ->
    (SFeqb (fit T min_x min_x max_x min_y max_y) min_y = true /\
     (SFeqb min_y fzero = false ->
      fit T min_x min_x max_x min_y max_y = min_y)) /\
    (is_finite (fsub T max_x min_x) = true ->
     SFeqb (fit T max_x min_x max_x min_y max_y) max_y = true /\
     (SFeqb max_y fzero = false ->
      fit T max_x min_x max_x min_y max_y = max_y)) /\
    fit T (numeric_max T) (SFopp (numeric_max T)) (numeric_max T)
        fzero (fone T) = S754_nan.
Proof.
  intros T min_x max_x min_y max_y Hx0 Hx1 Hy0 Hy1 Hfx0 Hfx1 Hfy0 Hfy1 Hne
    Hney.
  pose proof (fprec_pos T) as Hp.
  destruct (SFsub_nonzero (fprec T) (femax T) Hp max_x min_x
              Hx1 Hx0 Hfx1 Hfx0 Hne) as [sd Hd].
  fold (fsub T max_x min_x) in Hd.
  split; [ | split ].
  - apply (blend_first T min_y max_y sd Hy0 Hfy0 Hfy1). right.
    unfold fit. rewrite (fsub_self T min_x Hfx0).
    assert (Ek : fdiv T (S754_zero false) (fsub T max_x min_x)
                 = S754_zero sd).
    { destruct (fsub T max_x min_x) as [s | s | | s m e]; try discriminate;
        injection Hd as ->; reflexivity. }
    rewrite Ek, fsub_one_zero. reflexivity.
  - intros Hfin.
    apply (blend_second T min_y max_y false Hy1 Hfy0 Hfy1). right.
    unfold fit.
    destruct (fsub T max_x min_x) as [s | s | | s m e]; try discriminate.
    rewrite fdiv_diag, fsub_one_one. reflexivity.
  - destruct T; reflexivity.
Qed.

Lemma fit_ends_witness :
  fit Double (of_Z Double 10) (of_Z Double 10) (of_Z Double 20)
      (of_ratio Double 1 3) (of_Z Double 4) = of_ratio Double 1 3 /\
  fit Double (of_Z Double 20) (of_Z Double 10) (of_Z Double 20)
      (of_ratio Double 1 3) (of_Z Double 4) = of_Z Double 4.
Proof.
  pose proof (fit_ends Double (of_Z Double 10) (of_Z Double 20)
                (of_ratio Double 1 3) (of_Z Double 4)
                eq_refl eq_refl eq_refl eq_refl
                eq_refl eq_refl eq_refl eq_refl eq_refl eq_refl)
    as [H0 [H1 _]].
  split.
  - apply (proj2 H0). reflexivity.
  - apply (proj2 (H1 eq_refl)). reflexivity.
Defined.

Lemma pow_fp_loop_last (T : fp_type) (x : spec_float) (p : nat) :
  forall y, pow_fp_loop T x (S p) y = fmul T (pow_fp_loop T x p y) x.
Proof.
  induction p as [ | p IH ]; intros y.
  - reflexivity.
  - change (pow_fp_loop T x (S (S p)) y)
      with (pow_fp_loop T x (S p) (fmul T y x)).
    rewrite IH. reflexivity.
Qed.

(** [pow_int(x, p)] on a floating-point type is the product built from the
    left, [((1 * x) * x) ... * x], each product rounded:
    [pow_int(x, p + 1)] is [pow_int(x, p) * x].  The first product is
    exact, so [pow_int(x, 1)] is [x] and [pow_int(x, 2)] is [square(x)]. *)
Theorem pow_fp_spec :
  forall (T : fp_type) (x : spec_float) (p : nat),
    pow_fp T x 0 = fone T /\
    pow_fp T x (S p) = fmul T (pow_fp T x p) x /\
    (is_float T x = true ->
     pow_fp T x 1 = x /\ pow_fp T x 2 = square_fp T x).
Proof.
  intros T x p. split; [ reflexivity | ].
  split; [ apply pow_fp_loop_last | ].
  intros Hx. unfold pow_fp, square_fp. cbn [pow_fp_loop].
  rewrite (fmul_one_l T x Hx). split; reflexivity.
Qed.

Lemma pow_fp_spec_witness :
  pow_fp Double (of_ratio Double 1 10) 2
  = square_fp Double (of_ratio Double 1 10).
Proof.
  apply (proj2 (proj2 (proj2 (pow_fp_spec Double (of_ratio Double 1 10) 0))
                  eq_refl)).
Defined.

(** [feq] is not symmetric in its two arguments: with the default epsilon
    there are [l] and [r] of either type with [feq(l, r)] true and
    [feq(r, l)] false, the quotient [l / r] falling inside the interval
    and [r / l] on its upper end. *)
Theorem feq_not_symmetric :
  forall T : fp_type,
    exists l r : spec_float,
      is_float T l = true /\ is_float T r = true /\
      feq T l r (default_eps T) = true /\
      feq T r l (default_eps T) = false.
Proof.
  intros [ | ].
  - exists (S754_finite false 16777200 (-24)), (fone Float).
    vm_compute. repeat split.
  - exists (S754_finite false 9007199254740903 (-53)), (fone Double).
    vm_compute. repeat split.
Qed.

(** ** Faithful rounding *)

Section FaithFacts.

Variables prec emax : Z.
Hypothesis Hprec : 0 < prec.

Local Notation "'emin'" := (SpecFloat.emin prec emax).
Local Notation "'fexp'" := (SpecFloat.fexp prec emax).

Lemma pow2_split (a b : Z) :
  0 <= a -> 0 <= b -> 2 ^ (a + b) = 2 ^ a * 2 ^ b.
Proof. intros. apply Z.pow_add_r; assumption. Qed.

(** A smaller value has no more digits above the binary point. *)
Lemma digits_le_of_value (D mn : positive) (ez en g : Z) :
  g <= ez -> g <= en ->
  Zpos D * 2 ^ (ez - g) <= Zpos mn * 2 ^ (en - g) ->
  Zpos (digits2_pos D) + ez <= Zpos (digits2_pos mn) + en.
Proof.
  intros Hez Hen Hle.
  pose proof (digits2_bounds D) as [HloD _].
  pose proof (digits2_bounds mn) as [_ Hhin].
  set (dD := Zpos (digits2_pos D)) in *.
  set (dn := Zpos (digits2_pos mn)) in *.
  assert (HdD : 0 < dD) by (subst dD; lia).
  assert (Hdn : 0 < dn) by (subst dn; lia).
  assert (Hp1 : 0 < 2 ^ (ez - g)) by (apply Z.pow_pos_nonneg; lia).
  assert (Hp2 : 0 < 2 ^ (en - g)) by (apply Z.pow_pos_nonneg; lia).
  assert (Hlt : 2 ^ (dD - 1 + (ez - g)) < 2 ^ (dn + (en - g))).
  { rewrite !pow2_split by lia. nia. }
  apply Z.pow_lt_mono_r_iff in Hlt; lia.
Qed.

(** Rounding is faithful from above: a value that does not exceed a number
    [n] of the format is rounded to at most [n]. *)
Lemma binary_round_le_repr (D : positive) (ez : Z) (mn : positive)
    (en g : Z) :
  bounded prec emax mn en = true -> g <= ez -> g <= en ->
  Zpos D * 2 ^ (ez - g) <= Zpos mn * 2 ^ (en - g) ->
  SFleb fzero (binary_round prec emax false D ez) = true /\
  SFleb (binary_round prec emax false D ez) (S754_finite false mn en) = true.
Proof.
  intros Hb Hez Hen Hle.
  pose proof (bounded_canonical prec emax mn en Hb) as [Hcn _].
  pose proof (proj1 (canonical_spec prec emax mn en) Hcn) as Hfn.
  destruct (binary_round_spec prec emax Hprec false D ez)
    as [m2 [Hout Hcase]].
  set (f := fexp (Zpos (digits2_pos D) + ez)) in *.
  assert (Hf : f <= en).
  { rewrite Hfn. subst f. apply fexp_mono.
    apply (digits_le_of_value D mn ez en g); assumption. }
  apply (round_outcome_le prec emax Hprec m2 f mn en); try assumption.
  set (h := Z.min g f).
  assert (Hh : Zpos D * 2 ^ (ez - h) <= Zpos mn * 2 ^ (en - h)).
  { replace (ez - h) with ((ez - g) + (g - h)) by lia.
    replace (en - h) with ((en - g) + (g - h)) by lia.
    rewrite !pow2_split by lia.
    assert (0 < 2 ^ (g - h)) by (apply Z.pow_pos_nonneg; lia).
    nia. }
  replace (en - h) with ((en - f) + (f - h)) in Hh by lia.
  rewrite pow2_split in Hh by lia.
  assert (Hfh : 0 < 2 ^ (f - h)) by (apply Z.pow_pos_nonneg; lia).
  set (N := Zpos mn * 2 ^ (en - f)) in *.
  destruct Hcase as [[Hfe ->] | [Hfe [Hm2 Hex]]].
  - replace (ez - h) with ((ez - f) + (f - h)) in Hh by lia.
    rewrite pow2_split in Hh by lia. nia.
  - replace (f - h) with ((f - ez) + (ez - h)) in Hh by lia.
    rewrite pow2_split in Hh by lia.
    assert (Hzh : 0 < 2 ^ (ez - h)) by (apply Z.pow_pos_nonneg; lia).
    assert (HK : 0 < 2 ^ (f - ez)) by (apply Z.pow_pos_nonneg; lia).
    assert (HD : Zpos D <= N * 2 ^ (f - ez)) by nia.
    destruct (Z.eq_dec (Zpos D mod 2 ^ (f - ez)) 0) as [Hdiv | Hnd].
    + rewrite Hex by (apply Z.mod_divide; [ lia | exact Hdiv ]).
      apply Z.div_le_upper_bound; [ assumption | lia ].
    + assert (Hne : Zpos D <> N * 2 ^ (f - ez)).
      { intros E. apply Hnd. rewrite E. apply Z.mod_mul. lia. }
      assert (Hq : Zpos D / 2 ^ (f - ez) < N).
      { apply Z.div_lt_upper_bound; [ assumption | lia ]. }
      lia.
Qed.

(** Rounding is faithful from below: a value that is at least a number [n]
    of the format is rounded to at least [n]. *)
Lemma binary_round_ge_repr (D : positive) (ez : Z) (mn : positive)
    (en g : Z) :
  bounded prec emax mn en = true -> g <= ez -> g <= en ->
  Zpos mn * 2 ^ (en - g) <= Zpos D * 2 ^ (ez - g) ->
  SFleb (S754_finite false mn en) (binary_round prec emax false D ez) = true.
Proof.
  intros Hb Hez Hen Hle.
  pose proof (bounded_canonical prec emax mn en Hb) as [Hcn _].
  pose proof (proj1 (canonical_spec prec emax mn en) Hcn) as Hfn.
  pose proof (canonical_lt_pow prec emax Hprec mn en Hcn) as Hmn.
  pose proof (canonical_digits prec emax mn en Hcn) as [Hemin _].
  destruct (binary_round_spec prec emax Hprec false D ez)
    as [m2 [Hout Hcase]].
  set (f := fexp (Zpos (digits2_pos D) + ez)) in *.
  assert (Hf : en <= f).
  { rewrite Hfn. subst f. apply fexp_mono.
    apply (digits_le_of_value mn D en ez g); assumption. }
  assert (Hgp : 0 < 2 ^ (en - g)) by (apply Z.pow_pos_nonneg; lia).
  assert (Hm2 : Zpos mn * 2 ^ (en - g) <= m2 * 2 ^ (f - g)).
  { destruct Hcase as [[Hfe ->] | [Hfe [Hm2 _]]].
    - rewrite <- Z.mul_assoc, <- pow2_split by lia.
      replace (ez - f + (f - g)) with (ez - g) by lia. assumption.
    - assert (HK : 0 < 2 ^ (f - ez)) by (apply Z.pow_pos_nonneg; lia).
      assert (Hm1 : Zpos mn * 2 ^ (en - g)
                    <= Zpos D / 2 ^ (f - ez) * 2 ^ (f - g)).
      { destruct (Z.eq_dec en f) as [E | E].
        - subst en.
          assert (Hq : Zpos mn <= Zpos D / 2 ^ (f - ez)).
          { apply Z.div_le_lower_bound; [ assumption | ].
            replace (f - g) with ((f - ez) + (ez - g)) in Hle by lia.
            rewrite pow2_split in Hle by lia.
            assert (0 < 2 ^ (ez - g)) by (apply Z.pow_pos_nonneg; lia).
            nia. }
          nia.
        - assert (Hfv : f = Zpos (digits2_pos D) + ez - prec)
            by (subst f; unfold SpecFloat.fexp in *; lia).
          pose proof (digits2_bounds D) as [HloD _].
          assert (Hq : 2 ^ (prec - 1) <= Zpos D / 2 ^ (f - ez)).
          { apply Z.div_le_lower_bound; [ assumption | ].
            rewrite <- pow2_split by lia.
            replace (f - ez + (prec - 1))
              with (Zpos (digits2_pos D) - 1) by lia.
            assumption. }
          replace (f - g) with ((f - en) + (en - g)) by lia.
          rewrite pow2_split by lia.
          assert (H2 : 2 ^ 1 <= 2 ^ (f - en))
            by (apply Z.pow_le_mono_r; lia).
          change (2 ^ 1) with 2 in H2.
          assert (Hpp : 2 * 2 ^ (prec - 1) = 2 ^ prec).
          { replace prec with (1 + (prec - 1)) at 2 by lia.
            rewrite pow2_split by lia. reflexivity. }
          assert (Hq2 : Zpos mn <= Zpos D / 2 ^ (f - ez) * 2 ^ (f - en)).
          { apply Z.le_trans with (2 ^ (prec - 1) * 2); [ lia | ].
            apply Z.mul_le_mono_nonneg; try lia;
              apply Z.pow_nonneg; lia. }
          rewrite Z.mul_assoc.
          apply Z.mul_le_mono_nonneg_r; lia. }
      assert (0 < 2 ^ (f - g)) by (apply Z.pow_pos_nonneg; lia).
      destruct Hm2 as [-> | ->]; nia. }
  assert (Hfg : 0 < 2 ^ (f - g)) by (apply Z.pow_pos_nonneg; lia).
  destruct Hout as [[Hz _] | [m3 [e3 [He3 [Hm3 [Hc3 ->]]]]]]; [ nia | ].
  destruct (e3 <=? emax - prec); [ | reflexivity ].
  assert (Hv : Zpos mn * 2 ^ (en - g) <= Zpos m3 * 2 ^ (e3 - g)).
  { replace (e3 - g) with ((e3 - f) + (f - g)) by lia.
    rewrite pow2_split, Z.mul_assoc, Hm3 by lia. assumption. }
  pose proof (canonical_lex_le prec emax Hprec mn m3 en e3 g Hcn Hc3
                ltac:(lia) ltac:(lia) Hv) as Hlex.
  unfold SFleb. rewrite SFcompare_finite_pos.
  destruct (Z.compare_spec en e3); try reflexivity; try lia.
  destruct (Pos.compare_spec mn m3); try reflexivity; lia.
Qed.

(** The product of two values of the format is the rounding of the exact
    product. *)
Lemma SFmul_as_round (sx sy : bool) (mx my : positive) (ex ey : Z) :
  3 <= emax + prec ->
  bounded prec emax mx ex = true -> bounded prec emax my ey = true ->
  SFmul prec emax (S754_finite sx mx ex) (S754_finite sy my ey)
  = binary_round prec emax (xorb sx sy) (mx * my) (ex + ey).
Proof.
  intros Hemax Hx Hy. cbn [SFmul]. unfold binary_round.
  rewrite shl_align_id; [ reflexivity | ].
  pose proof (bounded_canonical prec emax mx ex Hx) as [Hcx _].
  pose proof (bounded_canonical prec emax my ey Hy) as [Hcy _].
  pose proof (canonical_digits prec emax mx ex Hcx) as [Hex [_ Hdx]].
  pose proof (canonical_digits prec emax my ey Hcy) as [Hey [_ Hdy]].
  pose proof (digits2_bounds mx) as [Hlox _].
  pose proof (digits2_bounds my) as [Hloy _].
  pose proof (digits2_bounds (mx * my)) as [_ Hhi].
  set (dx := Zpos (digits2_pos mx)) in *.
  set (dy := Zpos (digits2_pos my)) in *.
  set (d := Zpos (digits2_pos (mx * my))) in *.
  assert (Hdx0 : 0 < dx) by (subst dx; lia).
  assert (Hdy0 : 0 < dy) by (subst dy; lia).
  assert (Hd : dx + dy - 1 <= d).
  { assert (Hlt : 2 ^ ((dx - 1) + (dy - 1)) < 2 ^ d).
    { rewrite pow2_split by lia. rewrite Pos2Z.inj_mul in Hhi. nia. }
    apply Z.pow_lt_mono_r_iff in Hlt; subst d; lia. }
  unfold SpecFloat.fexp, SpecFloat.emin in *.
  destruct (Z_le_gt_dec prec d) as [Hbig | Hsmall]; [ lia | ].
  assert (ex <= 3 - emax - prec).
  { destruct (Z_le_gt_dec ex (3 - emax - prec)); [ assumption | ].
    specialize (Hdx ltac:(lia)). lia. }
  assert (ey <= 3 - emax - prec).
  { destruct (Z_le_gt_dec ey (3 - emax - prec)); [ assumption | ].
    specialize (Hdy ltac:(lia)). lia. }
  lia.
Qed.

End FaithFacts.

(** ** Reflexivity of the approximate equality *)

Section OrderTrans.

Lemma key_compare_Eq (a b : Z * Z * Z) : key_compare a b = Eq -> a = b.
Proof.
  destruct a as [[a1 a2] a3], b as [[b1 b2] b3]. unfold key_compare.
  destruct (Z.compare_spec a1 b1); try discriminate.
  destruct (Z.compare_spec a2 b2); try discriminate.
  destruct (Z.compare_spec a3 b3); try discriminate.
  intros _. congruence.
Qed.

Lemma key_compare_Lt_trans (a b c : Z * Z * Z) :
  key_compare a b = Lt -> key_compare b c = Lt -> key_compare a c = Lt.
Proof.
  rewrite !key_compare_Lt.
  destruct a as [[a1 a2] a3], b as [[b1 b2] b3], c as [[c1 c2] c3]. lia.
Qed.

Lemma SFleb_ltb_trans (a b c : spec_float) :
  SFleb a b = true -> SFltb b c = true -> SFltb a c = true.
Proof.
  unfold SFleb, SFltb. rewrite !SFcompare_key.
  destruct (SFkey a) as [ka | ], (SFkey b) as [kb | ], (SFkey c) as [kc | ];
    try discriminate.
  destruct (key_compare ka kb) eqn:E1; try discriminate; intros _;
    destruct (key_compare kb kc) eqn:E2; try discriminate; intros _.
  - apply key_compare_Eq in E1. subst kb. rewrite E2. reflexivity.
  - rewrite (key_compare_Lt_trans ka kb kc E1 E2). reflexivity.
Qed.

Lemma SFltb_leb_trans (a b c : spec_float) :
  SFltb a b = true -> SFleb b c = true -> SFltb a c = true.
Proof.
  unfold SFleb, SFltb. rewrite !SFcompare_key.
  destruct (SFkey a) as [ka | ], (SFkey b) as [kb | ], (SFkey c) as [kc | ];
    try discriminate.
  destruct (key_compare ka kb) eqn:E1; try discriminate; intros _;
    destruct (key_compare kb kc) eqn:E2; try discriminate; intros _.
  - apply key_compare_Eq in E2. subst kc. rewrite E1. reflexivity.
  - rewrite (key_compare_Lt_trans ka kb kc E1 E2). reflexivity.
Qed.

Lemma SFleb_not_ltb (a b : spec_float) :
  SFleb a b = true -> SFltb b a = false.
Proof.
  unfold SFleb, SFltb. rewrite (SFcompare_antisym a b).
  destruct (SFcompare a b) as [[ | | ] | ]; cbn; congruence.
Qed.

End OrderTrans.

Section AroundOne.

Variable T : fp_type.
Variables m1 me mlo mhi : positive.

Local Notation "'prec'" := (fprec T).
Local Notation "'emax'" := (femax T).

Hypothesis H1 : fone T = S754_finite false m1 (1 - prec).
Hypothesis Hm1 : Zpos m1 = 2 * 2 ^ (prec - 2).
Hypothesis Hb1 : bounded prec emax m1 (1 - prec) = true.
Hypothesis He : float_epsilon T = S754_finite false me (2 - 2 * prec).
Hypothesis Hme : Zpos me = 2 * 2 ^ (prec - 2).
Hypothesis Hbe : bounded prec emax me (2 - 2 * prec) = true.
Hypothesis Hmlo : Zpos mlo = 2 * (2 * 2 ^ (prec - 2)) - 2.
Hypothesis Hblo : bounded prec emax mlo (- prec) = true.
Hypothesis Hmhi : Zpos mhi = 2 * 2 ^ (prec - 2) + 1.
Hypothesis Hbhi : bounded prec emax mhi (1 - prec) = true.
Hypothesis Hlo1 :
  SFltb (S754_finite false mlo (- prec)) (fone T) = true.
Hypothesis Hhi1 :
  SFltb (fone T) (S754_finite false mhi (1 - prec)) = true.

(** With an [eps] between the epsilon of the type and 1, [1 - eps] is
    below 1 and [1 + eps] above 1 after rounding. *)
Lemma one_between (eps : spec_float) :
  is_float T eps = true ->
  SFleb (float_epsilon T) eps = true -> SFleb eps (fone T) = true ->
  SFltb (fsub T (fone T) eps) (fone T) = true /\
  SFltb (fone T) (fadd T (fone T) eps) = true.
Proof.
  intros Hv Hge Hle.
  pose proof (fprec_pos T) as Hp.
  assert (Hp2 : 2 <= prec) by (destruct T; cbn; lia).
  rewrite He in Hge.
  destruct eps as [s | [ | ] | | [ | ] m e];
    try (rewrite H1 in Hle; discriminate); try discriminate.
  cbn [is_float valid_binary] in Hv.
  set (g := Z.min e (2 - 2 * prec)).
  pose proof (SFleb_aligned prec emax Hp m me e (2 - 2 * prec) g Hv Hbe
                ltac:(lia) ltac:(lia) Hge) as HA.
  rewrite H1 in Hle.
  pose proof (SFleb_aligned prec emax Hp m1 m (1 - prec) e g Hb1 Hv
                ltac:(lia) ltac:(lia) Hle) as HB.
  set (W := 2 * 2 ^ (prec - 2)) in *.
  set (U := 2 ^ (2 - 2 * prec - g)) in *.
  assert (HU : 0 < U) by (apply Z.pow_pos_nonneg; lia).
  assert (HW : 0 < W) by (subst W; pose proof (Z.pow_pos_nonneg 2 (prec - 2));
                          lia).
  assert (E1 : 2 ^ (1 - prec - g) = W * U).
  { subst W U. rewrite <- (Z.pow_succ_r 2 (prec - 2)) by lia.
    rewrite <- Z.pow_add_r by lia. f_equal. lia. }
  assert (Elo : 2 * 2 ^ (- prec - g) = W * U).
  { subst W U. rewrite <- Z.mul_assoc.
    rewrite <- (Z.pow_add_r 2 (prec - 2)) by lia.
    do 2 f_equal. lia. }
  rewrite E1 in HB. rewrite Hme in HA. rewrite Hm1 in HB.
  set (X := Zpos m * 2 ^ (e - g)) in *.
  set (ez := Z.min (1 - prec) e).
  destruct (shl_align_spec m1 (1 - prec) ez ltac:(lia)) as [HM1 _].
  destruct (shl_align_spec m e ez ltac:(lia)) as [HMe _].
  assert (Hzg : 0 < 2 ^ (ez - g)) by (apply Z.pow_pos_nonneg; lia).
  assert (S1 : Zpos (fst (shl_align m1 (1 - prec) ez)) * 2 ^ (ez - g)
               = W * (W * U)).
  { rewrite HM1, <- Z.mul_assoc, <- Z.pow_add_r by lia.
    replace (1 - prec - ez + (ez - g)) with (1 - prec - g) by lia.
    rewrite E1, Hm1. reflexivity. }
  assert (S2 : Zpos (fst (shl_align m e ez)) * 2 ^ (ez - g) = X).
  { rewrite HMe, <- Z.mul_assoc, <- Z.pow_add_r by lia.
    subst X. do 2 f_equal. lia. }
  rewrite H1. split.
  - unfold fsub. cbn [SFsub cond_Zopp]. fold ez.
    destruct (Zpos (fst (shl_align m1 (1 - prec) ez))
              - Zpos (fst (shl_align m e ez))) as [ | D | D ] eqn:ED.
    + rewrite <- H1. destruct T; reflexivity.
    + cbn [binary_normalize].
      apply SFleb_ltb_trans with (S754_finite false mlo (- prec));
        [ | rewrite <- H1; exact Hlo1 ].
      apply (binary_round_le_repr prec emax Hp D ez mlo (- prec) g);
        try assumption; lia.
    + exfalso.
      assert (Hlt : Zpos (fst (shl_align m1 (1 - prec) ez)) * 2 ^ (ez - g)
                    < Zpos (fst (shl_align m e ez)) * 2 ^ (ez - g))
        by (apply Z.mul_lt_mono_pos_r; lia).
      rewrite S1, S2 in Hlt. lia.
  - unfold fadd. cbn [SFadd cond_Zopp]. fold ez.
    destruct (Zpos (fst (shl_align m1 (1 - prec) ez))
              + Zpos (fst (shl_align m e ez))) as [ | D | D ] eqn:ED;
      try lia.
    cbn [binary_normalize].
    apply SFltb_leb_trans with (S754_finite false mhi (1 - prec));
      [ rewrite <- H1; exact Hhi1 | ].
    apply (binary_round_ge_repr prec emax Hp D ez mhi (1 - prec) g);
      try assumption; lia.
Qed.

End AroundOne.

Lemma one_between_eps (T : fp_type) (eps : spec_float) :
  is_float T eps = true ->
  SFleb (float_epsilon T) eps = true -> SFleb eps (fone T) = true ->
  SFltb (fsub T (fone T) eps) (fone T) = true /\
  SFltb (fone T) (fadd T (fone T) eps) = true.
Proof.
  destruct T.
  - apply (one_between Float 8388608 8388608 16777214 8388609);
      reflexivity.
  - apply (one_between Double 4503599627370496 4503599627370496
             9007199254740990 4503599627370497); reflexivity.
Qed.

Lemma numeric_limits_values (T : fp_type) :
  exists mmax mmin : positive,
    numeric_max T = S754_finite false mmax (femax T - fprec T) /\
    bounded (fprec T) (femax T) mmax (femax T - fprec T) = true /\
    numeric_min T
    = S754_finite false mmin (SpecFloat.emin (fprec T) (femax T)) /\
    bounded (fprec T) (femax T) mmin (SpecFloat.emin (fprec T) (femax T))
    = true /\
    Zpos mmin = 2 ^ (fprec T - 1).
Proof.
  destruct T.
  - exists 16777215%positive, 8388608%positive. repeat split.
  - exists 9007199254740991%positive, 4503599627370496%positive.
    repeat split.
Qed.

(** The two guards of [feq] are silent when a finite number is compared
    with itself. *)
Lemma ratio_guards_self (T : fp_type) (s : bool) (m : positive) (e : Z) :
  bounded (fprec T) (femax T) m e = true ->
  ratio_overflows T (S754_finite s m e) (S754_finite s m e) = false /\
  ratio_underflows T (S754_finite s m e) (S754_finite s m e) = false.
Proof.
  intros Hb.
  pose proof (fprec_pos T) as Hp.
  destruct (numeric_limits_values T)
    as [mmax [mmin [Emax [Hbmax [Emin [Hbmin Hmmin]]]]]].
  assert (Hemax : 3 <= femax T + fprec T) by (destruct T; cbn; lia).
  assert (Hpe : fprec T <= femax T) by (destruct T; cbn; lia).
  split.
  - unfold ratio_overflows. cbn [SFabs]. apply andb_false_intro2.
    apply SFleb_not_ltb. rewrite Emax. unfold fmul.
    rewrite SFmul_as_round by assumption. cbn [xorb].
    apply (binary_round_ge_repr (fprec T) (femax T) Hp _ _ m e e);
      try assumption; try lia.
    rewrite Z.sub_diag, Z.mul_1_r, Pos2Z.inj_mul.
    assert (Hk : 0 < 2 ^ (e + (femax T - fprec T) - e))
      by (apply Z.pow_pos_nonneg; lia).
    rewrite <- Z.mul_assoc.
    rewrite <- (Z.mul_1_r (Zpos m)) at 1.
    apply Z.mul_le_mono_nonneg_l; [ lia | ]. nia.
  - unfold ratio_underflows. cbn [SFabs]. apply andb_false_intro2.
    apply SFleb_not_ltb. rewrite Emin. unfold fmul.
    rewrite SFmul_as_round by assumption. cbn [xorb].
    set (en := SpecFloat.emin (fprec T) (femax T)).
    assert (Hen : en = 3 - femax T - fprec T) by reflexivity.
    apply (binary_round_le_repr (fprec T) (femax T) Hp _ _ m e (e + en));
      try assumption; try lia.
    rewrite Z.sub_diag, Z.mul_1_r, Pos2Z.inj_mul, Hmmin.
    replace (e - (e + en)) with ((fprec T - 1) + (- en - (fprec T - 1)))
      by lia.
    rewrite Z.pow_add_r by lia.
    assert (0 < 2 ^ (- en - (fprec T - 1)))
      by (apply Z.pow_pos_nonneg; lia).
    assert (0 < 2 ^ (fprec T - 1)) by (apply Z.pow_pos_nonneg; lia).
    nia.
Qed.



(** ** Rounding to nearest and the order *)

Section LocationFacts.

Lemma iter_pos_nat (A : Type) (f : A -> A) (p : positive) :
  forall x : A, iter_pos f p x = Nat.iter (Pos.to_nat p) f x.
Proof.
  induction p as [p IH | p IH | ]; intros x; cbn [iter_pos].
  - rewrite !IH, <- Nat.iter_add, <- Nat.iter_succ_r. f_equal. lia.
  - rewrite !IH, <- Nat.iter_add. f_equal. lia.
  - reflexivity.
Qed.

Lemma shr_1_fields (r : shr_record) :
  0 <= shr_m r ->
  shr_m (shr_1 r) = shr_m r / 2 /\
  shr_r (shr_1 r) = Z.odd (shr_m r) /\
  shr_s (shr_1 r) = shr_r r || shr_s r.
Proof.
  intros Hm. split; [ apply shr_1_m; assumption | ].
  destruct r as [m rb sb]. cbn [shr_m shr_r shr_s] in *.
  destruct m as [ | [p | p | ] | p ]; try lia; cbn; split; reflexivity.
Qed.

(** After [n + 1] shifts of an exact significand [M] the record holds the
    quotient by [2^(n+1)], whether the remainder reaches one half, and
    whether anything lies below the half. *)
Lemma iter_shr_1_loc (n : nat) (M : Z) :
  0 <= M ->
  let r := Nat.iter (S n) shr_1 (Build_shr_record M false false) in
  shr_m r = M / 2 ^ Z.of_nat (S n) /\
  shr_r r = (2 ^ Z.of_nat n <=? M mod 2 ^ Z.of_nat (S n)) /\
  shr_s r = negb (M mod 2 ^ Z.of_nat n =? 0).
Proof.
  intros HM. cbv zeta. induction n as [ | n IH ].
  - change (Nat.iter 1 shr_1 (Build_shr_record M false false))
      with (shr_1 (Build_shr_record M false false)).
    destruct (shr_1_fields (Build_shr_record M false false) HM)
      as [Hm [Hr Hs]].
    cbn [shr_m shr_r shr_s] in Hm, Hr, Hs.
    rewrite Hm, Hr, Hs. change (2 ^ Z.of_nat 1) with 2.
    change (2 ^ Z.of_nat 0) with 1. rewrite Z.mod_1_r.
    repeat split. rewrite Zmod_odd. destruct (Z.odd M); reflexivity.
  - destruct IH as [Im [Ir Is]].
    set (r := Nat.iter (S n) shr_1 (Build_shr_record M false false)) in *.
    change (Nat.iter (S (S n)) shr_1 (Build_shr_record M false false))
      with (shr_1 r).
    assert (Hr0 : 0 <= shr_m r).
    { rewrite Im. apply Z.div_pos; [ lia | apply Z.pow_pos_nonneg; lia ]. }
    destruct (shr_1_fields r Hr0) as [Hm [Hr Hs]].
    rewrite Hm, Hr, Hs, Im, Ir, Is.
    set (a := Z.of_nat n) in *.
    assert (Ha : 0 <= a) by (subst a; lia).
    replace (Z.of_nat (S n)) with (a + 1) by (subst a; lia).
    replace (Z.of_nat (S (S n))) with (a + 1 + 1) by (subst a; lia).
    assert (Hp : 0 < 2 ^ a) by (apply Z.pow_pos_nonneg; lia).
    assert (Hp1 : 2 ^ (a + 1) = 2 ^ a * 2)
      by (rewrite Z.pow_add_r by lia; reflexivity).
    assert (Hp2 : 2 ^ (a + 1 + 1) = 2 ^ (a + 1) * 2)
      by (rewrite (Z.pow_add_r 2 (a + 1) 1) by lia; reflexivity).
    pose proof (Z.mod_pos_bound M (2 ^ a) Hp) as Hb0.
    pose proof (Z.mod_pos_bound M (2 ^ (a + 1)) ltac:(lia)) as Hb1.
    assert (E1 : M mod 2 ^ (a + 1)
                 = M mod 2 ^ a + 2 ^ a * ((M / 2 ^ a) mod 2)).
    { rewrite Hp1. apply Z.rem_mul_r; lia. }
    assert (E2 : M mod 2 ^ (a + 1 + 1)
                 = M mod 2 ^ (a + 1)
                   + 2 ^ (a + 1) * ((M / 2 ^ (a + 1)) mod 2)).
    { rewrite Hp2. apply Z.rem_mul_r; lia. }
    pose proof (Z.mod_pos_bound (M / 2 ^ a) 2 ltac:(lia)) as Hc0.
    pose proof (Z.mod_pos_bound (M / 2 ^ (a + 1)) 2 ltac:(lia)) as Hc1.
    split; [ | split ].
    + rewrite Hp2, Z.div_div by lia. reflexivity.
    + rewrite Zmod_odd in E2.
      destruct (Z.odd (M / 2 ^ (a + 1)));
        [ symmetry; apply Z.leb_le | symmetry; apply Z.leb_gt ]; lia.
    + assert (Hc : (M / 2 ^ a) mod 2 = 0 \/ (M / 2 ^ a) mod 2 = 1) by lia.
      destruct Hc as [Hc | Hc]; rewrite Hc in E1;
        destruct (Z.leb_spec (2 ^ a) (M mod 2 ^ (a + 1)));
        destruct (Z.eqb_spec (M mod 2 ^ a) 0);
        destruct (Z.eqb_spec (M mod 2 ^ (a + 1)) 0);
        cbn; try reflexivity; exfalso; lia.
Qed.

(** Rounding to nearest, ties to even: the rounded significand [m2] that
    [k] shifts of [M] lead to is a nearest multiple, and an even one at a
    tie. *)
Lemma shr_nearest (M e k : Z) :
  0 <= M -> 0 <= k ->
  let r := fst (shr (Build_shr_record M false false) e k) in
  let m2 := round_nearest_even (shr_m r) (loc_of_shr_record r) in
  Z.abs (2 * M - 2 * (m2 * 2 ^ k)) <= 2 ^ k /\
  (Z.abs (2 * M - 2 * (m2 * 2 ^ k)) = 2 ^ k -> Z.even m2 = true).
Proof.
  intros HM Hk. cbv zeta. destruct k as [ | p | p ]; try lia.
  - cbn [shr fst loc_of_shr_record shr_m round_nearest_even].
    change (2 ^ 0) with 1. split; [ lia | lia ].
  - cbn [shr fst]. rewrite iter_pos_nat.
    destruct (Pos2Nat.is_succ p) as [n Hn]. rewrite Hn.
    destruct (iter_shr_1_loc n M HM) as [Hm [Hr Hs]].
    set (r := Nat.iter (S n) shr_1 (Build_shr_record M false false)) in *.
    assert (Hpn : Zpos p = Z.of_nat (S n)) by lia.
    rewrite Hpn. set (a := Z.of_nat n) in *.
    assert (Ha : 0 <= a) by (subst a; lia).
    replace (Z.of_nat (S n)) with (a + 1) in * by (subst a; lia).
    assert (Hp : 0 < 2 ^ a) by (apply Z.pow_pos_nonneg; lia).
    assert (Hp1 : 2 ^ (a + 1) = 2 ^ a * 2)
      by (rewrite Z.pow_add_r by lia; reflexivity).
    pose proof (Z.div_mod M (2 ^ (a + 1)) ltac:(lia)) as Hdm.
    pose proof (Z.mod_pos_bound M (2 ^ (a + 1)) ltac:(lia)) as Hb1.
    pose proof (Z.mod_pos_bound M (2 ^ a) Hp) as Hb0.
    assert (E1 : M mod 2 ^ (a + 1)
                 = M mod 2 ^ a + 2 ^ a * ((M / 2 ^ a) mod 2)).
    { rewrite Hp1. apply Z.rem_mul_r; lia. }
    pose proof (Z.mod_pos_bound (M / 2 ^ a) 2 ltac:(lia)) as Hc0.
    assert (Hc : (M / 2 ^ a) mod 2 = 0 \/ (M / 2 ^ a) mod 2 = 1) by lia.
    set (q := M / 2 ^ (a + 1)) in *.
    set (R := M mod 2 ^ (a + 1)) in *.
    set (R0 := M mod 2 ^ a) in *.
    destruct r as [m rb sb]. cbn [shr_m shr_r shr_s] in Hm, Hr, Hs.
    cbn [shr_m loc_of_shr_record]. subst m.
    rewrite Hp1 in *. set (H := 2 ^ a) in *.
    clearbody q R R0 H. clear Hc0.
    assert (EM : 2 * M - 2 * (q * (H * 2)) = 2 * R) by lia.
    assert (EM1 : 2 * M - 2 * ((q + 1) * (H * 2)) = 2 * R - 4 * H) by lia.
    destruct (Z.leb_spec H R) as [HR | HR];
      destruct (Z.eqb_spec R0 0) as [H0 | H0];
      subst rb sb; cbn [negb round_nearest_even].
    + assert (ER : R = H) by (destruct Hc as [Hc | Hc]; rewrite Hc in E1; lia).
      destruct (Z.even q) eqn:Eq.
      * rewrite EM. split; [ lia | intros _; exact Eq ].
      * assert (Ev : Z.even (q + 1) = true).
        { rewrite Z.even_add, Eq. reflexivity. }
        rewrite EM1. split; [ lia | intros _; exact Ev ].
    + assert (H < R) by (destruct Hc as [Hc | Hc]; rewrite Hc in E1; lia).
      rewrite EM1. split; [ lia | intros E; exfalso; lia ].
    + assert (ER : R = 0) by (destruct Hc as [Hc | Hc]; rewrite Hc in E1; lia).
      rewrite EM. split; [ lia | intros E; exfalso; lia ].
    + rewrite EM. split; [ lia | intros E; exfalso; lia ].
Qed.

End LocationFacts.

Section NearestFacts.

Variables prec emax : Z.
Hypothesis Hprec : 0 < prec.

Local Notation "'emin'" := (SpecFloat.emin prec emax).
Local Notation "'fexp'" := (SpecFloat.fexp prec emax).

(** The rounding step on an exact significand: the outcome is the
    canonical form of a nearest significand [m2] at the exponent of the
    format, an even one at a tie. *)
Lemma binary_round_aux_near (s : bool) (m e : Z) :
  0 < m -> e <= fexp (Zdigits2 m + e) ->
  let e1 := fexp (Zdigits2 m + e) in
  exists m2,
    Z.abs (2 * m - 2 * (m2 * 2 ^ (e1 - e))) <= 2 ^ (e1 - e) /\
    (Z.abs (2 * m - 2 * (m2 * 2 ^ (e1 - e))) = 2 ^ (e1 - e) ->
     Z.even m2 = true) /\
    round_outcome prec emax s m2 e1
      (binary_round_aux prec emax s m e loc_Exact).
Proof.
  intros Hm He e1. unfold binary_round_aux.
  pose proof (shr_fexp_spec prec emax m e loc_Exact ltac:(lia))
    as [Hr1 [He1 Hex1]].
  assert (Hk : 0 <= e1 - e) by (subst e1; lia).
  pose proof (shr_nearest m e (e1 - e) ltac:(lia) Hk) as Hnear.
  cbv zeta in Hnear.
  change (Build_shr_record m false false)
    with (shr_record_of_loc m loc_Exact) in Hnear.
  change (shr (shr_record_of_loc m loc_Exact) e (e1 - e))
    with (shr_fexp prec emax m e loc_Exact) in Hnear.
  destruct (shr_fexp prec emax m e loc_Exact) as [r1 e1'] eqn:E1.
  cbn [fst snd] in Hr1, He1, Hex1, Hnear.
  replace (Z.max 0 (fexp (Zdigits2 m + e) - e)) with (e1 - e) in Hr1, He1
    by (subst e1; lia).
  replace (e + (e1 - e)) with e1 in He1 by lia. subst e1'.
  set (m1 := m / 2 ^ (e1 - e)) in *.
  assert (Hm1 : 0 <= m1)
    by (apply Z.div_pos; [ lia | apply Z.pow_pos_nonneg; lia ]).
  set (m2 := round_nearest_even (shr_m r1) (loc_of_shr_record r1)) in *.
  assert (Hm2 : m2 = m1 \/ m2 = m1 + 1)
    by (subst m2; rewrite <- Hr1; apply round_nearest_even_cases).
  exists m2. destruct Hnear as [Hn1 Hn2].
  split; [ exact Hn1 | ]. split; [ exact Hn2 | ].
  pose proof (shr_fexp_spec prec emax m2 e1 loc_Exact ltac:(lia))
    as [Hr2 [He2 _]].
  destruct (shr_fexp prec emax m2 e1 loc_Exact) as [r2 e3] eqn:E2.
  cbn [fst snd] in Hr2, He2.
  destruct (Z.eq_dec m2 0) as [Hz | Hnz].
  - left. split; [ assumption | ].
    rewrite Hr2, Hz, Z.div_0_l; [ reflexivity | ].
    apply Z.pow_nonzero; lia.
  - right.
    assert (He1' : emin <= e1) by (subst e1; apply fexp_ge_emin).
    assert (Hcan : 0 < m1 -> fexp (Zdigits2 m1 + e1) = e1).
    { intros Hpos. subst m1.
      destruct (Z_lt_le_dec (e1 - e) (Zdigits2 m)) as [Hlt | Hge].
      - destruct (Zdigits2_div_pow2 m (e1 - e) Hm Hk Hlt) as [_ Hd].
        rewrite Hd. replace (Zdigits2 m - (e1 - e) + e1)
          with (Zdigits2 m + e) by lia. reflexivity.
      - rewrite (div_pow2_small m (e1 - e) Hm Hge) in Hpos. lia. }
    assert (Hzero : m1 = 0 -> e1 = emin).
    { intros Hz. subst m1.
      destruct (Z_lt_le_dec (e1 - e) (Zdigits2 m)) as [Hlt | Hge].
      - destruct (Zdigits2_div_pow2 m (e1 - e) Hm Hk Hlt) as [Hp _]. lia.
      - subst e1. unfold SpecFloat.fexp in *. lia. }
    pose proof (fexp_after_increment prec emax Hprec m1 m2 e1 Hm1 ltac:(lia) Hm2
                  He1' Hcan Hzero) as Hf2.
    cbv zeta in Hf2.
    set (f2 := fexp (Zdigits2 m2 + e1)) in *.
    assert (Hk2 : Z.max 0 (f2 - e1) = f2 - e1) by lia.
    rewrite Hk2 in Hr2, He2. replace (e1 + (f2 - e1)) with f2 in He2 by lia.
    assert (Hdiv : m2 = (m2 / 2 ^ (f2 - e1)) * 2 ^ (f2 - e1) /\
                   f2 - e1 < Zdigits2 m2).
    { destruct Hf2 as [-> | [-> [Hd Hev]]].
      - rewrite Z.sub_diag, Z.div_1_r. change (2 ^ 0) with 1.
        pose proof (Zdigits2_pos_gt m2 ltac:(lia)). lia.
      - replace (e1 + 1 - e1) with 1 by lia. change (2 ^ 1) with 2.
        split; [ | lia ].
        pose proof (Z.div_mod m2 2 ltac:(lia)). lia. }
    destruct Hdiv as [Hdiv Hlt2].
    destruct (Zdigits2_div_pow2 m2 (f2 - e1) ltac:(lia) ltac:(lia) Hlt2)
      as [Hpos3 Hd3].
    rewrite Hr2. destruct (m2 / 2 ^ (f2 - e1)) as [ | m3 | m3 ] eqn:E3;
      try lia.
    exists m3, e3. subst e3. split; [ lia | ]. split; [ lia | ]. split.
    + unfold canonical_mantissa. apply Z.eqb_eq.
      change (Zpos (digits2_pos m3)) with (Zdigits2 (Zpos m3)).
      rewrite Hd3. replace (Zdigits2 m2 - (f2 - e1) + f2)
        with (Zdigits2 m2 + e1) by lia. reflexivity.
    + reflexivity.
Qed.

(** The same for [binary_round], at any scale [2^g] below the exponent of
    the argument and the exponent of the format. *)
Lemma binary_round_near (D : positive) (ez g : Z) :
  let f := fexp (Zpos (digits2_pos D) + ez) in
  g <= ez -> g <= f ->
  exists m2,
    0 <= m2 /\
    Z.abs (2 * (Zpos D * 2 ^ (ez - g)) - 2 * (m2 * 2 ^ (f - g)))
    <= 2 ^ (f - g) /\
    (Z.abs (2 * (Zpos D * 2 ^ (ez - g)) - 2 * (m2 * 2 ^ (f - g)))
     = 2 ^ (f - g) -> Z.even m2 = true) /\
    round_outcome prec emax false m2 f (binary_round prec emax false D ez).
Proof.
  intros f Hgz Hgf. unfold binary_round. fold f.
  destruct (Z_le_gt_dec f ez) as [Hle | Hgt].
  - destruct (shl_align_spec D ez f Hle) as [Hmz Hez].
    destruct (shl_align D ez f) as [mz ez']. cbn [fst snd] in Hmz, Hez.
    subst ez'.
    assert (Hd : Zdigits2 (Zpos mz) + f = Zpos (digits2_pos D) + ez).
    { rewrite Hmz, Zdigits2_mul_pow2 by lia. cbn [Zdigits2]. lia. }
    destruct (binary_round_aux_near false (Zpos mz) f)
      as [m2 [Hn1 [Hn2 Hout]]]; [ lia | rewrite Hd; fold f; lia | ].
    rewrite Hd in Hn1, Hn2, Hout. fold f in Hn1, Hn2, Hout.
    rewrite Z.sub_diag in Hn1, Hn2. change (2 ^ 0) with 1 in Hn1, Hn2.
    assert (Em : m2 = Zpos mz) by lia.
    exists m2. split; [ lia | ].
    assert (Hfg : 0 < 2 ^ (f - g)) by (apply Z.pow_pos_nonneg; lia).
    assert (EV : Zpos D * 2 ^ (ez - g) = m2 * 2 ^ (f - g)).
    { rewrite Em, Hmz, <- Z.mul_assoc, <- Z.pow_add_r by lia.
      do 2 f_equal. lia. }
    rewrite EV.
    replace (2 * (m2 * 2 ^ (f - g)) - 2 * (m2 * 2 ^ (f - g))) with 0 by ring.
    cbn [Z.abs]. split; [ lia | ]. split; [ intros E; exfalso; lia | ].
    exact Hout.
  - rewrite shl_align_id by lia.
    destruct (binary_round_aux_near false (Zpos D) ez)
      as [m2 [Hn1 [Hn2 Hout]]]; [ lia | cbn [Zdigits2]; fold f; lia | ].
    cbn [Zdigits2] in Hn1, Hn2, Hout. fold f in Hn1, Hn2, Hout.
    assert (Hzg : 0 < 2 ^ (ez - g)) by (apply Z.pow_pos_nonneg; lia).
    assert (Hfz : 0 < 2 ^ (f - ez)) by (apply Z.pow_pos_nonneg; lia).
    assert (Hsplit : 2 ^ (f - g) = 2 ^ (f - ez) * 2 ^ (ez - g))
      by (rewrite <- Z.pow_add_r by lia; f_equal; lia).
    assert (EA : 2 * (Zpos D * 2 ^ (ez - g)) - 2 * (m2 * 2 ^ (f - g))
                 = (2 * Zpos D - 2 * (m2 * 2 ^ (f - ez))) * 2 ^ (ez - g))
      by (rewrite Hsplit; ring).
    assert (Hm20 : 0 <= m2).
    { destruct (Z_le_gt_dec 0 m2); [ assumption | exfalso ].
      assert (m2 * 2 ^ (f - ez) <= - 2 ^ (f - ez)) by nia. lia. }
    exists m2. split; [ exact Hm20 | ].
    rewrite EA, Z.abs_mul, (Z.abs_eq (2 ^ (ez - g))) by lia.
    rewrite Hsplit. split; [ | split ].
    + apply Z.mul_le_mono_nonneg_r; lia.
    + intros E. apply Hn2.
      apply Z.mul_cancel_r in E; lia.
    + exact Hout.
Qed.

End NearestFacts.

Section NearestArith.

(** Of two values at the same scale [K], the smaller has the smaller
    nearest multiple, ties going to even. *)
Lemma nearest_same_scale (Y1 Y2 m1 m2 K : Z) :
  0 < K -> Y1 <= Y2 ->
  Z.abs (2 * Y1 - 2 * (m1 * K)) <= K ->
  (Z.abs (2 * Y1 - 2 * (m1 * K)) = K -> Z.even m1 = true) ->
  Z.abs (2 * Y2 - 2 * (m2 * K)) <= K ->
  (Z.abs (2 * Y2 - 2 * (m2 * K)) = K -> Z.even m2 = true) ->
  m1 <= m2.
Proof.
  intros HK HY Hn1 Ht1 Hn2 Ht2.
  destruct (Z_le_gt_dec m1 m2) as [Hm | Hm]; [ assumption | exfalso ].
  assert (Hstep : (m2 + 1) * K <= m1 * K)
    by (apply Z.mul_le_mono_nonneg_r; lia).
  assert (E1 : Z.abs (2 * Y1 - 2 * (m1 * K)) = K) by lia.
  assert (E2 : Z.abs (2 * Y2 - 2 * (m2 * K)) = K) by lia.
  assert (Em : m1 * K = (m2 + 1) * K) by lia.
  apply Z.mul_cancel_r in Em; [ | lia ].
  specialize (Ht1 E1). specialize (Ht2 E2).
  rewrite Em, Z.even_add, Ht2 in Ht1. discriminate.
Qed.

Lemma nearest_below_multiple (Y m K b : Z) :
  0 < K -> Z.abs (2 * Y - 2 * (m * K)) <= K -> Y < b * K -> m <= b.
Proof.
  intros HK Hn HY.
  destruct (Z_le_gt_dec m b) as [Hc | Hc]; [ assumption | exfalso ].
  assert ((b + 1) * K <= m * K) by (apply Z.mul_le_mono_nonneg_r; lia).
  lia.
Qed.

Lemma nearest_above_multiple (Y m K b : Z) :
  0 < K -> Z.abs (2 * Y - 2 * (m * K)) <= K -> b * K <= Y -> b <= m.
Proof.
  intros HK Hn HY.
  destruct (Z_le_gt_dec b m) as [Hc | Hc]; [ assumption | exfalso ].
  assert (m * K <= (b - 1) * K) by (apply Z.mul_le_mono_nonneg_r; lia).
  lia.
Qed.

Lemma scale_le (a b k : Z) : 0 < k -> a <= b -> a * k <= b * k.
Proof. intros. apply Z.mul_le_mono_nonneg_r; lia. Qed.

End NearestArith.

Section MonoFacts.

Variables prec emax : Z.
Hypothesis Hprec : 0 < prec.

Local Notation "'emin'" := (SpecFloat.emin prec emax).
Local Notation "'fexp'" := (SpecFloat.fexp prec emax).

(** Canonical forms keep the order of the values they stand for. *)
Lemma round_outcome_mono (m1 f1 m2 f2 g : Z) (r1 r2 : spec_float) :
  round_outcome prec emax false m1 f1 r1 ->
  round_outcome prec emax false m2 f2 r2 ->
  g <= f1 -> g <= f2 -> 0 <= m1 ->
  m1 * 2 ^ (f1 - g) <= m2 * 2 ^ (f2 - g) ->
  SFleb r1 r2 = true.
Proof.
  intros H1 H2 Hg1 Hg2 Hm1 Hle.
  assert (Hp1 : 0 < 2 ^ (f1 - g)) by (apply Z.pow_pos_nonneg; lia).
  assert (Hp2 : 0 < 2 ^ (f2 - g)) by (apply Z.pow_pos_nonneg; lia).
  destruct H1 as [[Hz1 ->] | [a1 [e1 [He1 [Ha1 [Hc1 ->]]]]]].
  - destruct H2 as [[Hz2 ->] | [a2 [e2 [He2 [Ha2 [Hc2 ->]]]]]];
      [ reflexivity | ].
    destruct (e2 <=? emax - prec); reflexivity.
  - assert (Hq1 : 0 < 2 ^ (e1 - f1)) by (apply Z.pow_pos_nonneg; lia).
    destruct H2 as [[Hz2 ->] | [a2 [e2 [He2 [Ha2 [Hc2 ->]]]]]];
      [ exfalso; nia | ].
    assert (Hv : Zpos a1 * 2 ^ (e1 - g) <= Zpos a2 * 2 ^ (e2 - g)).
    { replace (e1 - g) with ((e1 - f1) + (f1 - g)) by lia.
      replace (e2 - g) with ((e2 - f2) + (f2 - g)) by lia.
      rewrite !Z.pow_add_r, !Z.mul_assoc, Ha1, Ha2 by lia. assumption. }
    pose proof (canonical_lex_le prec emax Hprec a1 a2 e1 e2 g Hc1 Hc2
                  ltac:(lia) ltac:(lia) Hv) as Hlex.
    destruct (Z.leb_spec e1 (emax - prec));
      destruct (Z.leb_spec e2 (emax - prec)); try reflexivity; try lia.
    unfold SFleb. rewrite SFcompare_finite_pos.
    destruct (Z.compare_spec e1 e2); try reflexivity; try lia.
    destruct (Pos.compare_spec a1 a2); try reflexivity; lia.
Qed.

(** Rounding keeps the order: of two positive values the smaller is
    rounded to the smaller result, or to the same. *)
Lemma binary_round_mono (D1 D2 : positive) (ez1 ez2 g : Z) :
  g <= ez1 -> g <= ez2 ->
  Zpos D1 * 2 ^ (ez1 - g) <= Zpos D2 * 2 ^ (ez2 - g) ->
  SFleb (binary_round prec emax false D1 ez1)
        (binary_round prec emax false D2 ez2) = true.
Proof.
  intros Hg1 Hg2 Hle.
  set (f1 := fexp (Zpos (digits2_pos D1) + ez1)).
  set (f2 := fexp (Zpos (digits2_pos D2) + ez2)).
  pose proof (digits_le_of_value D1 D2 ez1 ez2 g Hg1 Hg2 Hle) as Hdig.
  assert (Hf : f1 <= f2) by (apply fexp_mono; assumption).
  set (h := Z.min g f1).
  destruct (binary_round_near prec emax Hprec D1 ez1 h
              ltac:(lia) ltac:(fold f1; lia))
    as [m1 [Hm10 [Hn1 [Ht1 Ho1]]]].
  destruct (binary_round_near prec emax Hprec D2 ez2 h
              ltac:(lia) ltac:(fold f2; lia))
    as [m2 [Hm20 [Hn2 [Ht2 Ho2]]]].
  fold f1 in Hn1, Ht1, Ho1. fold f2 in Hn2, Ht2, Ho2.
  apply (round_outcome_mono m1 f1 m2 f2 h _ _ Ho1 Ho2); try lia.
  assert (Hgh : 0 < 2 ^ (g - h)) by (apply Z.pow_pos_nonneg; lia).
  assert (HY : Zpos D1 * 2 ^ (ez1 - h) <= Zpos D2 * 2 ^ (ez2 - h)).
  { replace (ez1 - h) with ((ez1 - g) + (g - h)) by lia.
    replace (ez2 - h) with ((ez2 - g) + (g - h)) by lia.
    rewrite !Z.pow_add_r, !Z.mul_assoc by lia.
    apply Z.mul_le_mono_nonneg_r; lia. }
  set (Y1 := Zpos D1 * 2 ^ (ez1 - h)) in *.
  set (Y2 := Zpos D2 * 2 ^ (ez2 - h)) in *.
  assert (HK1 : 0 < 2 ^ (f1 - h)) by (apply Z.pow_pos_nonneg; lia).
  assert (HK2 : 0 < 2 ^ (f2 - h)) by (apply Z.pow_pos_nonneg; lia).
  destruct (Z.eq_dec f1 f2) as [Ef | Nf].
  - rewrite <- Ef in *.
    apply scale_le; [ assumption | ].
    apply (nearest_same_scale Y1 Y2 m1 m2 (2 ^ (f1 - h))); assumption.
  - assert (Hlt : f1 < f2) by lia.
    assert (Hd12 : Zpos (digits2_pos D1) + ez1
                   < Zpos (digits2_pos D2) + ez2).
    { destruct (Z_lt_le_dec (Zpos (digits2_pos D1) + ez1)
                            (Zpos (digits2_pos D2) + ez2)) as [ | Hge ];
        [ assumption | exfalso ].
      assert (f2 <= f1) by (apply fexp_mono; assumption). lia. }
    assert (Hf2 : f2 = Zpos (digits2_pos D2) + ez2 - prec).
    { pose proof (fexp_ge_emin prec emax (Zpos (digits2_pos D1) + ez1))
        as Hge.
      fold f1 in Hge. subst f2. unfold SpecFloat.fexp in *. lia. }
    pose proof (digits2_bounds D1) as [_ Hhi1].
    pose proof (digits2_bounds D2) as [Hlo2 _].
    set (d1 := Zpos (digits2_pos D1)) in *.
    set (d2 := Zpos (digits2_pos D2)) in *.
    assert (Hd1 : 0 < d1) by (subst d1; lia).
    assert (Hd2 : 0 < d2) by (subst d2; lia).
    assert (Hhf1 : h <= f1) by (subst h; lia).
    assert (Hf1d : f1 <= d2 + ez2 - 1) by lia.
    assert (Hhz1 : h <= ez1) by (subst h; lia).
    assert (Hhz2 : h <= ez2) by (subst h; lia).
    pose proof Hn1 as Hn1'. pose proof Hn2 as Hn2'.
    clear Hn1 Hn2 Ht1 Ht2 Ho1 Ho2 HY Hle Hdig.
    set (B := 2 ^ (d2 + ez2 - 1 - h)).
    assert (HB2 : B = 2 ^ (d2 + ez2 - 1 - f2) * 2 ^ (f2 - h)).
    { subst B. rewrite <- Z.pow_add_r by lia. f_equal. lia. }
    assert (HB1 : B = 2 ^ (d2 + ez2 - 1 - f1) * 2 ^ (f1 - h)).
    { subst B. rewrite <- Z.pow_add_r by lia. f_equal. lia. }
    assert (HYB : B <= Y2).
    { subst B Y2.
      replace (d2 + ez2 - 1 - h) with ((d2 - 1) + (ez2 - h)) by lia.
      rewrite Z.pow_add_r by lia.
      apply Z.mul_le_mono_nonneg_r; [ apply Z.pow_nonneg; lia | lia ]. }
    assert (HY1B : Y1 < B).
    { apply Z.lt_le_trans with (2 ^ (d1 + ez1 - h)).
      - subst Y1. replace (d1 + ez1 - h) with (d1 + (ez1 - h)) by lia.
        rewrite Z.pow_add_r by lia.
        apply Z.mul_lt_mono_pos_r; [ apply Z.pow_pos_nonneg; lia | lia ].
      - subst B. apply Z.pow_le_mono_r; lia. }
    apply Z.le_trans with B.
    + rewrite HB1. apply scale_le; [ assumption | ].
      apply (nearest_below_multiple Y1 m1 (2 ^ (f1 - h)) _ HK1 Hn1').
      rewrite <- HB1. assumption.
    + rewrite HB2. apply scale_le; [ assumption | ].
      apply (nearest_above_multiple Y2 m2 (2 ^ (f2 - h)) _ HK2 Hn2').
      rewrite <- HB2. assumption.
Qed.

End MonoFacts.

Section SubFacts.

Variables prec emax : Z.
Hypothesis Hprec : 0 < prec.

Local Notation "'emin'" := (SpecFloat.emin prec emax).
Local Notation "'fexp'" := (SpecFloat.fexp prec emax).

(** The order of two finite values of the format is the order of their
    signed significands at a common exponent. *)
Lemma SFltb_signed (sx sy : bool) (mx my : positive) (ex ey g : Z) :
  bounded prec emax mx ex = true -> bounded prec emax my ey = true ->
  g <= ex -> g <= ey ->
  SFltb (S754_finite sx mx ex) (S754_finite sy my ey) = true ->
  cond_Zopp sx (Zpos mx * 2 ^ (ex - g))
  < cond_Zopp sy (Zpos my * 2 ^ (ey - g)).
Proof.
  intros Hx Hy Hgx Hgy Hlt.
  pose proof (bounded_canonical prec emax mx ex Hx) as [Hcx _].
  pose proof (bounded_canonical prec emax my ey Hy) as [Hcy _].
  assert (Hpx : 0 < 2 ^ (ex - g)) by (apply Z.pow_pos_nonneg; lia).
  assert (Hpy : 0 < 2 ^ (ey - g)) by (apply Z.pow_pos_nonneg; lia).
  unfold SFltb in Hlt.
  destruct sx, sy; cbn [SFcompare cond_Zopp] in *; try discriminate.
  - assert (Hlex : ey < ex \/ (ey = ex /\ Zpos my < Zpos mx)).
    { destruct (Z.compare_spec ex ey); try discriminate; [ | lia ].
      right. split; [ lia | ].
      rewrite Pos.compare_cont_spec in Hlt. cbn in Hlt.
      destruct (Pos.compare_spec mx my); try discriminate. lia. }
    pose proof (canonical_lex_lt prec emax Hprec my mx ey ex g Hcy Hcx
                  Hgy Hgx Hlex). lia.
  - nia.
  - assert (Hlex : ex < ey \/ (ex = ey /\ Zpos mx < Zpos my)).
    { destruct (Z.compare_spec ex ey); try discriminate; [ | lia ].
      right. split; [ lia | ].
      rewrite Pos.compare_cont_spec in Hlt. cbn in Hlt.
      destruct (Pos.compare_spec mx my); try discriminate. lia. }
    pose proof (canonical_lex_lt prec emax Hprec mx my ex ey g Hcx Hcy
                  Hgx Hgy Hlex). lia.
Qed.

(** A rounded result is a value of the format. *)
Lemma binary_round_valid (s : bool) (D : positive) (ez : Z) :
  valid_binary prec emax (binary_round prec emax s D ez) = true.
Proof.
  destruct (binary_round_spec prec emax Hprec s D ez) as [m2 [Hout _]].
  destruct Hout as [[_ ->] | [m3 [e3 [_ [_ [Hc ->]]]]]]; [ reflexivity | ].
  destruct (Z.leb_spec e3 (emax - prec)); [ | reflexivity ].
  cbn [valid_binary]. unfold bounded. rewrite Hc. apply Z.leb_le. lia.
Qed.

Lemma SFsub_valid (x y : spec_float) :
  valid_binary prec emax x = true -> valid_binary prec emax y = true ->
  valid_binary prec emax (SFsub prec emax x y) = true.
Proof.
  intros Hx Hy.
  destruct x as [[ | ] | [ | ] | | sx mx ex],
           y as [[ | ] | [ | ] | | sy my ey]; try reflexivity;
    try assumption.
  cbn [SFsub].
  destruct (cond_Zopp sx _ - cond_Zopp sy _) as [ | D | D ];
    [ reflexivity | | ]; apply binary_round_valid.
Qed.

Lemma SFleb_zero_finite (m : positive) (e : Z) :
  SFleb fzero (S754_finite false m e) = true.
Proof. reflexivity. Qed.

Lemma binary_round_not_negative (D : positive) (ez : Z) :
  SFleb fzero (binary_round prec emax false D ez) = true.
Proof.
  destruct (binary_round_spec prec emax Hprec false D ez) as [m2 [Hout _]].
  destruct Hout as [[_ ->] | [m3 [e3 [_ [_ [Hc ->]]]]]]; [ reflexivity | ].
  destruct (Z.leb_spec e3 (emax - prec)); reflexivity.
Qed.

(** Subtracting the same [a] from [x] and from a larger [b] keeps the
    order, and the difference with a smaller [a] is not negative. *)
Lemma SFsub_mono (a x b : spec_float) :
  valid_binary prec emax a = true -> valid_binary prec emax x = true ->
  valid_binary prec emax b = true ->
  is_finite a = true -> is_finite x = true -> is_finite b = true ->
  SFltb a x = true -> SFltb x b = true ->
  SFleb fzero (SFsub prec emax x a) = true /\
  SFleb (SFsub prec emax x a) (SFsub prec emax b a) = true.
Proof.
  intros Ha Hx Hb Hfa Hfx Hfb Hax Hxb.
  destruct a as [sa | sa | | sa ma ea]; try discriminate;
    destruct x as [sx | sx | | sx mx ex]; try discriminate;
    destruct b as [sb | sb | | sb mb eb]; try discriminate;
    cbn [valid_binary] in Ha, Hx, Hb.
  - destruct sx; discriminate.
  - (* a zero, x and b finite *)
    destruct sx; [ discriminate | ].
    destruct sb; [ discriminate | ].
    cbn [SFsub]. split; [ reflexivity | apply SFltb_SFleb; assumption ].
  - (* a finite, x zero, b finite *)
    destruct sa; [ | discriminate ].
    destruct sb; [ discriminate | ].
    cbn [SFsub negb cond_Zopp]. split; [ reflexivity | ].
    set (ez := Z.min eb ea).
    destruct (shl_align_spec mb eb ez ltac:(lia)) as [HMb _].
    destruct (shl_align_spec ma ea ez ltac:(lia)) as [HMa _].
    destruct (Zpos (fst (shl_align mb eb ez))
              - - Zpos (fst (shl_align ma ea ez))) as [ | D | D ] eqn:ED;
      try lia.
    cbn [binary_normalize].
    apply (binary_round_ge_repr prec emax Hprec D ez ma ea ez);
      try assumption; try lia.
    rewrite Z.sub_diag, Z.mul_1_r. lia.
  - (* a finite, x finite, b zero *)
    destruct sx; [ | discriminate ].
    destruct sa; [ | discriminate ].
    cbn [SFsub negb cond_Zopp].
    set (ez := Z.min ex ea).
    pose proof (SFltb_signed true true ma mx ea ex ez Ha Hx
                  ltac:(lia) ltac:(lia) Hax) as Hlt.
    cbn [cond_Zopp] in Hlt.
    destruct (shl_align_spec mx ex ez ltac:(lia)) as [HMx _].
    destruct (shl_align_spec ma ea ez ltac:(lia)) as [HMa _].
    destruct (- Zpos (fst (shl_align mx ex ez))
              - - Zpos (fst (shl_align ma ea ez))) as [ | D | D ] eqn:ED;
      try lia.
    cbn [binary_normalize].
    apply (binary_round_le_repr prec emax Hprec D ez ma ea ez);
      try assumption; try lia.
    rewrite Z.sub_diag, Z.mul_1_r. lia.
  - (* all three finite *)
    cbn [SFsub].
    set (ez1 := Z.min ex ea). set (ez2 := Z.min eb ea).
    set (g := Z.min ez1 ez2).
    assert (Hz1 : ez1 <= ex /\ ez1 <= ea) by (subst ez1; lia).
    assert (Hz2 : ez2 <= eb /\ ez2 <= ea) by (subst ez2; lia).
    assert (Hgz : g <= ez1 /\ g <= ez2) by (subst g; lia).
    clearbody g. clearbody ez1 ez2.
    pose proof (SFltb_signed sa sx ma mx ea ex g Ha Hx
                  ltac:(lia) ltac:(lia) Hax) as Hlt1.
    pose proof (SFltb_signed sx sb mx mb ex eb g Hx Hb
                  ltac:(lia) ltac:(lia) Hxb) as Hlt2.
    destruct (shl_align_spec mx ex ez1 ltac:(lia)) as [HMx _].
    destruct (shl_align_spec ma ea ez1 ltac:(lia)) as [HMa1 _].
    destruct (shl_align_spec mb eb ez2 ltac:(lia)) as [HMb _].
    destruct (shl_align_spec ma ea ez2 ltac:(lia)) as [HMa2 _].
    assert (Hs1 : forall (s : bool) (m k : Z),
               cond_Zopp s m * k = cond_Zopp s (m * k))
      by (intros [ | ] m k; cbn; ring).
    assert (Hp1 : 0 < 2 ^ (ez1 - g)) by (apply Z.pow_pos_nonneg; lia).
    assert (Hp2 : 0 < 2 ^ (ez2 - g)) by (apply Z.pow_pos_nonneg; lia).
    assert (E1 : (cond_Zopp sx (Zpos (fst (shl_align mx ex ez1)))
                  - cond_Zopp sa (Zpos (fst (shl_align ma ea ez1))))
                 * 2 ^ (ez1 - g)
                 = cond_Zopp sx (Zpos mx * 2 ^ (ex - g))
                   - cond_Zopp sa (Zpos ma * 2 ^ (ea - g))).
    { rewrite Z.mul_sub_distr_r, !Hs1, HMx, HMa1.
      rewrite <- !Z.mul_assoc, <- !Z.pow_add_r by lia.
      replace (ex - ez1 + (ez1 - g)) with (ex - g) by lia.
      replace (ea - ez1 + (ez1 - g)) with (ea - g) by lia. reflexivity. }
    assert (E2 : (cond_Zopp sb (Zpos (fst (shl_align mb eb ez2)))
                  - cond_Zopp sa (Zpos (fst (shl_align ma ea ez2))))
                 * 2 ^ (ez2 - g)
                 = cond_Zopp sb (Zpos mb * 2 ^ (eb - g))
                   - cond_Zopp sa (Zpos ma * 2 ^ (ea - g))).
    { rewrite Z.mul_sub_distr_r, !Hs1, HMb, HMa2.
      rewrite <- !Z.mul_assoc, <- !Z.pow_add_r by lia.
      replace (eb - ez2 + (ez2 - g)) with (eb - g) by lia.
      replace (ea - ez2 + (ez2 - g)) with (ea - g) by lia. reflexivity. }
    set (X1 := cond_Zopp sx (Zpos (fst (shl_align mx ex ez1)))
               - cond_Zopp sa (Zpos (fst (shl_align ma ea ez1)))) in *.
    set (X2 := cond_Zopp sb (Zpos (fst (shl_align mb eb ez2)))
               - cond_Zopp sa (Zpos (fst (shl_align ma ea ez2)))) in *.
    assert (H1 : 0 < X1).
    { apply (Z.mul_pos_cancel_r _ (2 ^ (ez1 - g)) Hp1). rewrite E1. lia. }
    assert (H2 : 0 < X2).
    { apply (Z.mul_pos_cancel_r _ (2 ^ (ez2 - g)) Hp2). rewrite E2. lia. }
    assert (H12 : X1 * 2 ^ (ez1 - g) <= X2 * 2 ^ (ez2 - g))
      by (rewrite E1, E2; lia).
    clearbody X1 X2.
    clear E1 E2 Hlt1 Hlt2 HMx HMa1 HMb HMa2 Hs1.
    destruct X1 as [ | D1 | D1 ]; try lia.
    destruct X2 as [ | D2 | D2 ]; try lia.
    cbn [binary_normalize]. split.
    + apply binary_round_not_negative.
    + apply (binary_round_mono prec emax Hprec D1 D2 ez1 ez2 g);
        [ lia | lia | exact H12 ].
Qed.

End SubFacts.

Section QuotientFacts.

Variables prec emax : Z.
Hypothesis Hprec : 0 < prec.

Local Notation "'emin'" := (SpecFloat.emin prec emax).
Local Notation "'fexp'" := (SpecFloat.fexp prec emax).

Lemma iter_shr_1_zero (n : nat) (r : shr_record) :
  shr_m r = 0 ->
  shr_m (Nat.iter (S n) shr_1 r) = 0 /\
  shr_r (Nat.iter (S n) shr_1 r) = false.
Proof.
  intros Hr. induction n as [ | n [IHm IHr] ].
  - change (Nat.iter 1 shr_1 r) with (shr_1 r).
    destruct r as [m rb sb]. cbn [shr_m] in Hr. subst m.
    split; reflexivity.
  - change (Nat.iter (S (S n)) shr_1 r)
      with (shr_1 (Nat.iter (S n) shr_1 r)).
    destruct (Nat.iter (S n) shr_1 r) as [m rb sb].
    cbn [shr_m shr_r] in IHm, IHr. subst m rb. split; reflexivity.
Qed.

(** Rounding a quotient that is below the smallest significand: the result
    is a zero or the smallest number at the exponent. *)
Lemma binary_round_aux_zero (s : bool) (e : Z) (l : location) :
  binary_round_aux prec emax s 0 e l = S754_zero s \/
  (emin <= e /\
   binary_round_aux prec emax s 0 e l
   = (if e <=? emax - prec then S754_finite s 1 e else S754_infinity s)).
Proof.
  unfold binary_round_aux, shr_fexp. cbn [Zdigits2 Z.add].
  destruct (fexp e - e) as [ | p | p ] eqn:En.
  - cbn [shr]. rewrite loc_of_shr_record_of_loc, shr_record_of_loc_m.
    assert (Hc : round_nearest_even 0 l = 0 \/ round_nearest_even 0 l = 1)
      by (destruct l as [ | [ | | ] ]; cbn; auto).
    destruct Hc as [-> | ->].
    + cbn [Zdigits2 Z.add]. rewrite En. cbn [shr shr_record_of_loc shr_m].
      left. reflexivity.
    + cbn [Zdigits2]. change (Zpos (digits2_pos 1)) with 1.
      assert (Hn : fexp (1 + e) - e <= 0)
        by (unfold SpecFloat.fexp in *; lia).
      destruct (fexp (1 + e) - e) as [ | q | q ] eqn:En1; try lia;
        cbn [shr shr_record_of_loc shr_m]; right;
        (split; [ unfold SpecFloat.fexp in En; lia | reflexivity ]).
  - cbn [shr]. rewrite iter_pos_nat.
    destruct (Pos2Nat.is_succ p) as [n Hn]. rewrite Hn.
    destruct (iter_shr_1_zero n (shr_record_of_loc 0 l)
                (shr_record_of_loc_m 0 l)) as [Hm Hr].
    destruct (Nat.iter (S n) shr_1 (shr_record_of_loc 0 l)) as [m rb sb].
    cbn [shr_m shr_r] in Hm, Hr. subst m rb.
    cbn [shr_m loc_of_shr_record].
    assert (Hz : round_nearest_even 0
                   (if sb then loc_Inexact Lt else loc_Exact) = 0)
      by (destruct sb; reflexivity).
    replace (match sb with true => loc_Inexact Lt | false => loc_Exact end)
      with (if sb then loc_Inexact Lt else loc_Exact)
      by (destruct sb; reflexivity).
    rewrite Hz. cbn [Zdigits2 Z.add].
    left.
    destruct (fexp (e + Zpos p) - (e + Zpos p)) as [ | q | q ];
      cbn [shr shr_record_of_loc shr_m]; try reflexivity.
    rewrite iter_pos_nat.
    destruct (Pos2Nat.is_succ q) as [n' Hn']. rewrite Hn'.
    destruct (iter_shr_1_zero n' (Build_shr_record 0 false false) eq_refl)
      as [Hm' _].
    destruct (Nat.iter (S n') shr_1 (Build_shr_record 0 false false))
      as [m' rb' sb'].
    cbn [shr_m] in Hm'. subst m'. reflexivity.
  - cbn [shr]. rewrite loc_of_shr_record_of_loc, shr_record_of_loc_m.
    assert (Hc : round_nearest_even 0 l = 0 \/ round_nearest_even 0 l = 1)
      by (destruct l as [ | [ | | ] ]; cbn; auto).
    destruct Hc as [-> | ->].
    + cbn [Zdigits2 Z.add]. rewrite En. cbn [shr shr_record_of_loc shr_m].
      left. reflexivity.
    + cbn [Zdigits2]. change (Zpos (digits2_pos 1)) with 1.
      assert (Hn : fexp (1 + e) - e <= 0)
        by (unfold SpecFloat.fexp in *; lia).
      destruct (fexp (1 + e) - e) as [ | q | q ] eqn:En1; try lia;
        cbn [shr shr_record_of_loc shr_m]; right;
        (split; [ unfold SpecFloat.fexp in En; lia | reflexivity ]).
Qed.

End QuotientFacts.

Section QuotientBound.

Variable T : fp_type.

Local Notation "'prec'" := (fprec T).
Local Notation "'emax'" := (femax T).

(** The quotient of a positive value by a larger one is rounded into
    [[0, 1]], and is a value of the type. *)
Lemma fdiv_le_one (mn md : positive) (en ed : Z) :
  bounded prec emax mn en = true -> bounded prec emax md ed = true ->
  SFleb (S754_finite false mn en) (S754_finite false md ed) = true ->
  (SFleb fzero (fdiv T (S754_finite false mn en) (S754_finite false md ed))
   = true /\
   SFleb (fdiv T (S754_finite false mn en) (S754_finite false md ed))
         (fone T) = true) /\
  is_float T (fdiv T (S754_finite false mn en) (S754_finite false md ed))
  = true.
Proof.
  intros Hn Hd Hle.
  pose proof (fprec_pos T) as Hp.
  destruct (fone_value T) as [m1 [E1 [Hm1 Hb1]]].
  assert (Hemin : SpecFloat.emin prec emax <= - prec)
    by (destruct T; cbn; lia).
  pose proof (bounded_canonical prec emax mn en Hn) as [Hcn _].
  pose proof (bounded_canonical prec emax md ed Hd) as [Hcd _].
  assert (Hlex : (en = ed /\ mn = md) \/
                 (en < ed \/ (en = ed /\ Zpos mn < Zpos md))).
  { unfold SFleb in Hle. rewrite SFcompare_finite_pos in Hle.
    destruct (Z.compare_spec en ed); try discriminate; [ | lia ].
    destruct (Pos.compare_spec mn md); try discriminate;
      [ left; split; assumption | right; right; lia ]. }
  destruct Hlex as [[-> ->] | Hlex].
  { rewrite fdiv_diag. split; [ | destruct T; reflexivity ].
    rewrite E1. split; [ reflexivity | ].
    rewrite <- E1. apply SFleb_refl. rewrite E1. reflexivity. }
  set (g := Z.min en ed).
  assert (Hg : g <= en /\ g <= ed) by (subst g; lia).
  clearbody g.
  pose proof (canonical_lex_lt prec emax Hp mn md en ed g Hcn Hcd
                ltac:(lia) ltac:(lia) Hlex) as Hval.
  pose proof (digits_le_of_value mn md en ed g ltac:(lia) ltac:(lia)
                ltac:(lia)) as Hdig.
  unfold fdiv. cbn [SFdiv xorb]. unfold SFdiv_core_binary. cbn [Zdigits2].
  pose proof (digits2_bounds mn) as [Hnlo _].
  pose proof (digits2_bounds md) as [_ Hdhi].
  set (d1 := Zpos (digits2_pos mn)) in *.
  set (d2 := Zpos (digits2_pos md)) in *.
  assert (Hd1 : 0 < d1) by (subst d1; lia).
  assert (Hd2 : 0 < d2) by (subst d2; lia).
  clearbody d1 d2.
  set (F := SpecFloat.fexp prec emax (d1 + en - (d2 + ed))).
  assert (HF : F <= - prec) by (subst F; unfold SpecFloat.fexp; lia).
  assert (EF : F = SpecFloat.fexp prec emax (d1 + en - (d2 + ed)))
    by reflexivity.
  clearbody F.
  set (e' := Z.min F (en - ed)).
  assert (He' : e' <= F /\ e' <= en - ed) by (subst e'; lia).
  clearbody e'.
  set (s := en - ed - e').
  assert (Es : s = en - ed - e') by reflexivity.
  assert (Hs : 0 <= s) by lia.
  clearbody s.
  clear Hle Hlex Hn Hd Hcn Hcd.
  assert (Hm' : match s with
                | Zpos _ => Z.shiftl (Zpos mn) s
                | 0 => Zpos mn
                | Zneg _ => 0
                end = Zpos mn * 2 ^ s).
  { destruct s as [ | ps | ps ]; try lia.
    apply Z.shiftl_mul_pow2. lia. }
  rewrite Hm'. clear Hm'.
  pose proof (Z_div_mod (Zpos mn * 2 ^ s) (Zpos md) ltac:(lia)) as Hdm.
  destruct (Z.div_eucl (Zpos mn * 2 ^ s) (Zpos md)) as [q r].
  destruct Hdm as [Hq Hr].
  assert (Hps : 0 < 2 ^ s) by (apply Z.pow_pos_nonneg; lia).
  assert (Hq0 : 0 <= q).
  { destruct (Z_le_gt_dec 0 q) as [ | Hneg ]; [ assumption | exfalso ].
    assert (Zpos md * q <= Zpos md * (-1))
      by (apply Z.mul_le_mono_nonneg_l; lia).
    assert (0 < Zpos mn * 2 ^ s) by (apply Z.mul_pos_pos; lia).
    lia. }
  assert (Hpe : 0 < 2 ^ (- e')) by (apply Z.pow_pos_nonneg; lia).
  assert (Hqhi : q < 2 ^ (- e')).
  { assert (Hng : 0 < 2 ^ (en - g)) by (apply Z.pow_pos_nonneg; lia).
    assert (Hdg : 0 < 2 ^ (ed - g)) by (apply Z.pow_pos_nonneg; lia).
    assert (Hsc : Zpos mn * 2 ^ s * 2 ^ (ed - g)
                  = Zpos mn * 2 ^ (en - g) * 2 ^ (- e')).
    { rewrite <- !Z.mul_assoc, <- !Z.pow_add_r by lia.
      do 2 f_equal. lia. }
    assert (Hlt : Zpos mn * 2 ^ s < Zpos md * 2 ^ (- e')).
    { apply (Z.mul_lt_mono_pos_r (2 ^ (ed - g))); [ assumption | ].
      rewrite Hsc.
      replace (Zpos md * 2 ^ (- e') * 2 ^ (ed - g))
        with (Zpos md * 2 ^ (ed - g) * 2 ^ (- e')) by ring.
      apply Z.mul_lt_mono_pos_r; assumption. }
    destruct (Z_lt_le_dec q (2 ^ (- e'))) as [ | Hge ];
      [ assumption | exfalso ].
    assert (Zpos md * 2 ^ (- e') <= Zpos md * q)
      by (apply Z.mul_le_mono_nonneg_l; lia).
    lia. }
  destruct (Z.eq_dec q 0) as [-> | Hqn].
  - destruct (binary_round_aux_zero prec emax Hp false e'
                (new_location (Zpos md) r)) as [-> | [Hge ->]].
    + rewrite E1. split; [ split | ]; reflexivity.
    + replace (e' <=? emax - prec) with true
        by (symmetry; apply Z.leb_le; destruct T; cbn in *; lia).
      split; [ split; [ reflexivity | ] | ].
      * rewrite E1. unfold SFleb. rewrite SFcompare_finite_pos.
        destruct (Z.compare_spec e' (1 - prec)); try reflexivity; lia.
      * assert (Hs2 : d1 - 1 + s < d2).
        { destruct (Z_lt_le_dec (d1 - 1 + s) d2) as [ | Hc ];
            [ assumption | exfalso ].
          assert (Hpw : 2 ^ d2 <= 2 ^ (d1 - 1 + s))
            by (apply Z.pow_le_mono_r; lia).
          rewrite Z.pow_add_r in Hpw by lia.
          assert (2 ^ (d1 - 1) * 2 ^ s <= Zpos mn * 2 ^ s)
            by (apply Z.mul_le_mono_nonneg_r; lia).
          lia. }
        assert (HF0 : e' = SpecFloat.emin prec emax).
        { pose proof EF as EF'. unfold SpecFloat.fexp in EF'. lia. }
        rewrite HF0. destruct T; reflexivity.
  - assert (Hqp : 0 < q) by lia.
    assert (Hdq : d1 + s - d2 <= Zdigits2 q).
    { pose proof (Zdigits2_pos_gt q Hqp) as Hdq1.
      destruct (Z_le_gt_dec (d1 + s - d2) 0) as [ | Hpos ]; [ lia | ].
      pose proof (Zdigits2_bounds q Hqp) as [_ Hqd].
      destruct (Z_le_gt_dec (d1 + s - d2) (Zdigits2 q)) as [ | Hc ];
        [ assumption | exfalso ].
      assert (Hpq : 2 ^ Zdigits2 q <= 2 ^ (d1 + s - d2 - 1))
        by (apply Z.pow_le_mono_r; lia).
      assert (Hd2p : 0 < 2 ^ d2) by (apply Z.pow_pos_nonneg; lia).
      assert (Hsplit : 2 ^ (d1 - 1) * 2 ^ s
                       = 2 ^ (d1 + s - d2 - 1) * 2 ^ d2).
      { rewrite <- !Z.pow_add_r by lia. f_equal. lia. }
      assert (Hlow : 2 ^ (d1 - 1) * 2 ^ s <= Zpos mn * 2 ^ s)
        by (apply Z.mul_le_mono_nonneg_r; lia).
      assert (Hup : Zpos mn * 2 ^ s < (q + 1) * Zpos md).
      { replace ((q + 1) * Zpos md) with (Zpos md * q + Zpos md) by ring.
        lia. }
      assert (Hup2 : (q + 1) * Zpos md <= 2 ^ (d1 + s - d2 - 1) * 2 ^ d2).
      { apply Z.le_trans with (2 ^ (d1 + s - d2 - 1) * Zpos md).
        - apply Z.mul_le_mono_nonneg_r; lia.
        - apply Z.mul_le_mono_nonneg_l; [ | lia ].
          apply Z.pow_nonneg; lia. }
      lia. }
    assert (Hpre : e' <= SpecFloat.fexp prec emax (Zdigits2 q + e')).
    { apply Z.le_trans with F; [ lia | ]. rewrite EF.
      apply fexp_mono. lia. }
    destruct (binary_round_aux_spec prec emax Hp false q e'
                (new_location (Zpos md) r) Hqp Hpre)
      as [m2 [Hcase [_ Hout]]].
    set (e1 := SpecFloat.fexp prec emax (Zdigits2 q + e')) in *.
    assert (Hqd : Zdigits2 q <= - e')
      by (apply Zdigits2_le; assumption).
    assert (He1 : e1 <= - prec).
    { subst e1. unfold SpecFloat.fexp. lia. }
    clearbody e1.
    split.
    + rewrite E1.
      apply (round_outcome_le prec emax Hp m2 e1 m1 (1 - prec));
        try assumption; try lia.
      rewrite Hm1. rewrite <- Z.pow_add_r by lia.
      replace (prec - 1 + (1 - prec - e1)) with (- e1) by lia.
      assert (Hk : 0 < 2 ^ (e1 - e')) by (apply Z.pow_pos_nonneg; lia).
      assert (Hq1 : q / 2 ^ (e1 - e') < 2 ^ (- e1)).
      { apply Z.div_lt_upper_bound; [ assumption | ].
        rewrite <- Z.pow_add_r by lia.
        replace (e1 - e' + - e1) with (- e') by lia. assumption. }
      lia.
    + destruct Hout as [[_ ->] | [m3 [e3 [_ [_ [Hc3 ->]]]]]];
        [ reflexivity | ].
      destruct (Z.leb_spec e3 (emax - prec)); [ | reflexivity ].
      cbn [is_float valid_binary]. unfold bounded. rewrite Hc3.
      apply Z.leb_le. lia.
Qed.

End QuotientBound.

(** The ratio [(x - a) / (b - a)] that [linearstep] and [smoothstep]
    compute for an [x] strictly between [a] and [b]: it lies in [[0, 1]]
    and is a value of the type. *)
Lemma step_ratio_range (T : fp_type) (a b x : spec_float) :
  is_float T a = true -> is_float T b = true -> is_float T x = true ->
  SFltb a b = true -> is_nan x = false ->
  is_finite (fsub T b a) = true ->
  SFleb x a = false -> SFleb b x = false ->
  (SFleb fzero (fdiv T (fsub T x a) (fsub T b a)) = true /\
   SFleb (fdiv T (fsub T x a) (fsub T b a)) (fone T) = true) /\
  is_float T (fdiv T (fsub T x a) (fsub T b a)) = true.
Proof.
  intros Ha Hb Hx Hab Hnx Hfin E1 E2.
  pose proof (fprec_pos T) as Hp.
  destruct (SFltb_not_nan a b Hab) as [Hna Hnb].
  pose proof (SFleb_total x a Hnx Hna E1) as Hax.
  pose proof (SFleb_total b x Hnb Hnx E2) as Hxb.
  assert (Hfa : is_finite a = true).
  { destruct a as [ | [ | ] | | ]; try reflexivity; try discriminate;
      destruct b as [ | [ | ] | | ]; discriminate. }
  assert (Hfb : is_finite b = true).
  { destruct b as [ | [ | ] | | ]; try reflexivity; try discriminate;
      destruct a as [ | [ | ] | | ]; discriminate. }
  assert (Hfx : is_finite x = true).
  { destruct x as [ | [ | ] | | ]; try reflexivity; try discriminate.
    - destruct a as [ | [ | ] | | [ | ] ]; discriminate.
    - destruct b as [ | [ | ] | | [ | ] ]; discriminate. }
  destruct (SFsub_mono (fprec T) (femax T) Hp a x b Ha Hx Hb Hfa Hfx Hfb
              Hax Hxb) as [HN0 HND].
  fold (fsub T x a) in HN0, HND. fold (fsub T b a) in HND.
  assert (Hne : SFeqb b a = false).
  { unfold SFltb in Hab. unfold SFeqb. rewrite (SFcompare_antisym a b).
    destruct (SFcompare a b) as [[ | | ] | ]; try discriminate.
    reflexivity. }
  destruct (SFsub_nonzero (fprec T) (femax T) Hp b a Hb Ha Hfb Hfa Hne)
    as [sd Hsd].
  fold (fsub T b a) in Hsd.
  pose proof (SFsub_valid (fprec T) (femax T) Hp x a Hx Ha) as HvN.
  pose proof (SFsub_valid (fprec T) (femax T) Hp b a Hb Ha) as HvD.
  fold (fsub T x a) in HvN. fold (fsub T b a) in HvD.
  destruct (fsub T b a) as [ | | | sD mD eD ]; try discriminate.
  destruct sD; [ | unfold fdiv ];
    destruct (fsub T x a) as [ [ | ] | [ | ] | | [ | ] mN eN ];
    try (cbn in HN0, HND; discriminate).
  - cbn [SFdiv xorb]. split; [ split | ]; [ reflexivity | | reflexivity ].
    destruct T; reflexivity.
  - cbn [SFdiv xorb]. split; [ split | ]; [ reflexivity | | reflexivity ].
    destruct T; reflexivity.
  - cbn [valid_binary] in HvN, HvD.
    apply fdiv_le_one; assumption.
Qed.



(** ** Order and periodicity of the integer helpers *)

Section NextPow2Order.

(** The power of two that [next_pow2] returns is itself within the range
    on which [next_pow2] is exact. *)
Lemma log2_up_fits (ty : int_type) (x : Z) :
  0 < x <= max_pow2 ty ->
  0 < 2 ^ Z.log2_up x <= max_pow2 ty.
Proof.
  intros Hx. pose proof (Z.log2_up_nonneg x) as Hnn.
  split; [ apply Z.pow_pos_nonneg; lia | ].
  destruct (max_pow2_eq ty) as [Hm Hb]. rewrite Hm.
  apply Z.pow_le_mono_r; [ lia | ].
  rewrite <- (Z.log2_up_pow2 (Z.log2 (max_pow2 ty))) by lia.
  apply Z.log2_up_le_mono. lia.
Qed.

End NextPow2Order.

(** [next_pow2] is a closure operator on [0 < x <= max_pow2 ty]:
    applying it twice is applying it once, and it keeps the order of its
    arguments. *)
Theorem next_pow2_closure :
  (forall (ty : int_type) (x : Z),
     0 < x <= max_pow2 ty ->
     next_pow2 ty (next_pow2 ty x) = next_pow2 ty x) /\
  (forall (ty : int_type) (x y : Z),
     0 < x -> x <= y -> y <= max_pow2 ty ->
     next_pow2 ty x <= next_pow2 ty y).
Proof.
  split.
  - intros ty x Hx.
    rewrite (next_pow2_value ty x Hx).
    rewrite (next_pow2_value ty _ (log2_up_fits ty x Hx)).
    rewrite Z.log2_up_pow2 by apply Z.log2_up_nonneg. reflexivity.
  - intros ty x y Hx Hxy Hy.
    rewrite (next_pow2_value ty x) by lia.
    rewrite (next_pow2_value ty y) by lia.
    apply Z.pow_le_mono_r; [ lia | ].
    apply Z.log2_up_le_mono. assumption.
Qed.

Lemma next_pow2_closure_witness :
  next_pow2 Int32 (next_pow2 Int32 37) = next_pow2 Int32 37 /\
  next_pow2 UInt64 37 <= next_pow2 UInt64 1000.
Proof.
  split.
  - apply (proj1 next_pow2_closure Int32 37). vm_compute.
    split; [ reflexivity | discriminate ].
  - apply (proj2 next_pow2_closure UInt64 37 1000).
    + reflexivity.
    + discriminate.
    + vm_compute. discriminate.
Defined.

(** [mod(a, n)] of the integer template.  For a positive [n] the
    result depends on [a] only up to multiples of [n], and reducing twice
    is reducing once.  For a negative [n] the result is not reduced into
    the range between [n] and 0: a non-negative [a] gives the remainder
    [a % n], which lies in [[0, -n)], and a negative [a] that [n] does not
    divide gives [n + a % n], which lies strictly between [2 * n] and
    [n]. *)
Theorem mod_int_periodic :
  (forall (ty : int_type) (a n k : Z),
     in_range ty a -> in_range ty n -> 0 < n ->
     in_range ty (a + k * n) ->
     mod_int ty (a + k * n) n = mod_int ty a n) /\
  (forall (ty : int_type) (a n : Z),
     in_range ty a -> in_range ty n -> 0 < n ->
     mod_int ty (mod_int ty a n) n = mod_int ty a n) /\
  (forall (ty : int_type) (a n : Z),
     in_range ty a -> in_range ty (2 * n) -> n < 0 ->
     (0 <= a ->
      mod_int ty a n = Z.rem a n /\ 0 <= mod_int ty a n < - n) /\
     (a < 0 -> Z.rem a n <> 0 ->
      mod_int ty a n = n + Z.rem a n /\ 2 * n < mod_int ty a n < n)).
Proof.
  split; [ | split ].
  - intros ty a n k Ha Hn Hpos Hak.
    destruct (mod_int_range ty (a + k * n) n Hak Hn Hpos) as [_ [-> _]].
    destruct (mod_int_range ty a n Ha Hn Hpos) as [_ [-> _]].
    apply Z.mod_add. lia.
  - intros ty a n Ha Hn Hpos.
    destruct (mod_int_range ty a n Ha Hn Hpos) as [_ [E Hr]].
    assert (Hm : in_range ty (mod_int ty a n))
      by (unfold in_range in *; pose proof (int_min_nonpos ty); lia).
    destruct (mod_int_range ty (mod_int ty a n) n Hm Hn Hpos)
      as [_ [-> _]].
    apply Z.mod_small. assumption.
  - intros ty a n Ha Hn Hneg.
    pose proof (Z.rem_bound_abs a n ltac:(lia)) as Hb.
    unfold mod_int. split.
    + intros Ha0.
      pose proof (Z.rem_nonneg a n ltac:(lia) Ha0) as Hr.
      destruct (Z.ltb_spec (Z.rem a n) 0); [ lia | ].
      split; [ reflexivity | lia ].
    + intros Ha0 Hr0.
      pose proof (Z.rem_nonpos a n ltac:(lia) ltac:(lia)) as Hr.
      destruct (Z.ltb_spec (Z.rem a n) 0); [ | lia ].
      assert (Hmax : 0 <= int_max ty) by (destruct ty; discriminate).
      rewrite wrap_small by (unfold in_range in *; lia).
      split; [ reflexivity | lia ].
Qed.

Lemma mod_int_periodic_witness :
  mod_int Int32 (-7 + 5 * 3) 3 = mod_int Int32 (-7) 3 /\
  mod_int Int32 (mod_int Int32 (-7) 3) 3 = mod_int Int32 (-7) 3 /\
  (mod_int Int32 7 (-3) = Z.rem 7 (-3) /\
   0 <= mod_int Int32 7 (-3) < - -3) /\
  (mod_int Int32 (-7) (-3) = -3 + Z.rem (-7) (-3) /\
   2 * -3 < mod_int Int32 (-7) (-3) < -3).
Proof.
  split; [ | split; [ | split ] ].
  - apply (proj1 mod_int_periodic Int32 (-7) 3 5); vm_compute;
      intuition congruence.
  - apply (proj1 (proj2 mod_int_periodic) Int32 (-7) 3); vm_compute;
      intuition congruence.
  - apply (proj2 (proj2 mod_int_periodic) Int32 7 (-3)); vm_compute;
      intuition congruence.
  - apply (proj2 (proj2 mod_int_periodic) Int32 (-7) (-3)); vm_compute;
      intuition congruence.
Defined.

(** ** Rejections, monotone conversions and the smooth step *)

Section SignedRound.

Variables prec emax : Z.
Hypothesis Hprec : 0 < prec.

(** What a rounding returns, by sign. *)
Lemma binary_round_cases (s : bool) (D : positive) (ez : Z) :
  binary_round prec emax s D ez = S754_zero s \/
  binary_round prec emax s D ez = S754_infinity s \/
  exists (m : positive) (e : Z),
    binary_round prec emax s D ez = S754_finite s m e /\
    bounded prec emax m e = true.
Proof.
  destruct (binary_round_spec prec emax Hprec s D ez) as [m2 [Hout _]].
  destruct Hout as [[_ ->] | [m3 [e3 [_ [_ [Hc ->]]]]]]; [ left; reflexivity | ].
  right. destruct (Z.leb_spec e3 (emax - prec)).
  - right. exists m3, e3. split; [ reflexivity | ].
    unfold bounded. rewrite Hc. apply Z.leb_le. lia.
  - left. reflexivity.
Qed.

Lemma binary_round_negative_le (D : positive) (ez : Z) (m : positive)
    (e : Z) :
  SFleb (binary_round prec emax true D ez) (S754_finite false m e) = true.
Proof.
  destruct (binary_round_cases true D ez) as [-> | [-> | [m3 [e3 [-> _]]]]];
    reflexivity.
Qed.

Lemma binary_round_opp (s : bool) (D : positive) (ez : Z) :
  binary_round prec emax (negb s) D ez
  = SFopp (binary_round prec emax s D ez).
Proof.
  unfold binary_round. destruct (shl_align _ _ _) as [mz ez'].
  unfold binary_round_aux.
  destruct (shr_fexp prec emax _ ez' loc_Exact) as [r1 e1].
  destruct (shr_fexp prec emax _ e1 loc_Exact) as [r2 e2].
  destruct (shr_m r2); cbn [SFopp]; try reflexivity.
  destruct (e2 <=? emax - prec); reflexivity.
Qed.

End SignedRound.

Section OrderMore.

Lemma SFleb_opp (a b : spec_float) :
  SFleb (SFopp a) (SFopp b) = SFleb b a.
Proof.
  unfold SFleb.
  destruct a as [ [ | ] | [ | ] | | [ | ] ma ea ],
           b as [ [ | ] | [ | ] | | [ | ] mb eb ];
    cbn [SFopp SFcompare negb]; try reflexivity.
  - rewrite (Z.compare_antisym ea eb).
    destruct (ea ?= eb); cbn [CompOpp]; try reflexivity.
    change (Pos.compare_cont Eq mb ma) with (mb ?= ma)%positive.
    change (Pos.compare_cont Eq ma mb) with (ma ?= mb)%positive.
    rewrite (Pos.compare_antisym mb ma).
    destruct (mb ?= ma)%positive; reflexivity.
  - rewrite (Z.compare_antisym ea eb).
    destruct (ea ?= eb); cbn [CompOpp]; try reflexivity.
    change (Pos.compare_cont Eq mb ma) with (mb ?= ma)%positive.
    change (Pos.compare_cont Eq ma mb) with (ma ?= mb)%positive.
    rewrite (Pos.compare_antisym mb ma).
    destruct (mb ?= ma)%positive; reflexivity.
Qed.

Lemma SFleb_trans (a b c : spec_float) :
  SFleb a b = true -> SFleb b c = true -> SFleb a c = true.
Proof.
  intros Hab Hbc.
  destruct (SFltb b c) eqn:E.
  - apply SFltb_SFleb. apply SFleb_ltb_trans with b; assumption.
  - unfold SFleb, SFltb in *. rewrite SFcompare_key in *.
    destruct (SFkey a) as [ka | ], (SFkey b) as [kb | ],
             (SFkey c) as [kc | ]; try discriminate.
    destruct (key_compare kb kc) eqn:E2; try discriminate.
    apply key_compare_Eq in E2. subst kc. assumption.
Qed.

(** Nothing is below a non-positive [eps] in absolute value. *)
Lemma SFltb_abs_nonpos (x eps : spec_float) :
  SFleb eps fzero = true -> SFltb (SFabs x) eps = false.
Proof.
  destruct x as [ sx | sx | | sx mx ex ],
           eps as [ se | [ | ] | | [ | ] me ee ];
    try discriminate; reflexivity.
Qed.

End OrderMore.

Section NonPositiveEps.

Variable T : fp_type.

Local Notation "'prec'" := (fprec T).
Local Notation "'emax'" := (femax T).

(** With an [eps] that is zero or negative, [1 + eps] is at most 1 and
    [1 - eps] at least 1 after rounding. *)
Lemma around_one_nonpos (eps : spec_float) :
  is_float T eps = true -> SFleb eps fzero = true ->
  SFleb (fadd T (fone T) eps) (fone T) = true /\
  SFleb (fone T) (fsub T (fone T) eps) = true.
Proof.
  intros Hv Hle.
  pose proof (fprec_pos T) as Hp.
  destruct (fone_value T) as [m1 [H1 [Hm1 Hb1]]].
  assert (H11 : SFleb (fone T) (fone T) = true)
    by (rewrite H1; apply SFleb_refl; reflexivity).
  destruct eps as [ s | [ | ] | | [ | ] m e ]; try discriminate.
  - rewrite H1 in *. unfold fadd, fsub. cbn [SFadd SFsub].
    split; exact H11.
  - rewrite H1. split; reflexivity.
  - cbn [is_float valid_binary] in Hv.
    rewrite H1. unfold fadd, fsub. cbn [SFadd SFsub].
    set (ez := Z.min (1 - prec) e).
    destruct (shl_align_spec m1 (1 - prec) ez ltac:(lia)) as [HM1 _].
    destruct (shl_align_spec m e ez ltac:(lia)) as [HMe _].
    set (A := Zpos (fst (shl_align m1 (1 - prec) ez))) in *.
    set (B := Zpos (fst (shl_align m e ez))) in *.
    assert (HA : 0 < A) by (subst A; lia).
    assert (HB : 0 < B) by (subst B; lia).
    clearbody A B. cbn [cond_Zopp].
    split.
    + destruct (A + - B) as [ | D | D ] eqn:ED; cbn [binary_normalize].
      * reflexivity.
      * apply (binary_round_le_repr prec emax Hp D ez m1 (1 - prec) ez);
          try assumption; try lia.
        rewrite Z.sub_diag, Z.mul_1_r. lia.
      * apply binary_round_negative_le. assumption.
    + destruct (A - - B) as [ | D | D ] eqn:ED; try lia.
      cbn [binary_normalize].
      apply (binary_round_ge_repr prec emax Hp D ez m1 (1 - prec) ez);
        try assumption; try lia.
      rewrite Z.sub_diag, Z.mul_1_r. lia.
Qed.

End NonPositiveEps.

(** [feq] never reports equality when one of its three arguments is a
    NaN, nor when [eps] is zero or negative: the window around 1 in which
    the ratio must fall is then empty. *)
Theorem feq_rejects :
  (forall (T : fp_type) (lhs rhs eps : spec_float),
     is_nan lhs = true \/ is_nan rhs = true \/ is_nan eps = true ->
     feq T lhs rhs eps = false) /\
  (forall (T : fp_type) (lhs rhs eps : spec_float),
     is_float T eps = true -> SFleb eps fzero = true ->
     feq T lhs rhs eps = false).
Proof.
  split.
  - intros T lhs rhs eps [H | [H | H]].
    + destruct lhs; try discriminate. unfold feq.
      cbn [SFeqb SFcompare fzero SFabs].
      destruct (SFeqb rhs fzero); [ reflexivity | ].
      destruct (ratio_overflows T _ _); [ reflexivity | ].
      destruct (ratio_underflows T _ _); [ reflexivity | ].
      unfold fdiv. cbn [SFdiv].
      destruct (fsub T (fone T) eps); reflexivity.
    + destruct rhs; try discriminate. unfold feq.
      destruct (SFeqb lhs fzero); [ reflexivity | ].
      cbn [SFeqb SFcompare fzero SFabs].
      replace (SFeqb S754_nan (S754_zero false)) with false by reflexivity.
      destruct (ratio_overflows T _ _); [ reflexivity | ].
      destruct (ratio_underflows T _ _); [ reflexivity | ].
      replace (fdiv T lhs S754_nan) with S754_nan
        by (destruct lhs; reflexivity).
      destruct (fsub T (fone T) eps); reflexivity.
    + destruct eps; try discriminate. unfold feq.
      assert (Hn : forall x, SFltb x S754_nan = false)
        by (intros [ | | | ]; reflexivity).
      rewrite !Hn.
      destruct (SFeqb lhs fzero); [ reflexivity | ].
      destruct (SFeqb rhs fzero); [ reflexivity | ].
      destruct (ratio_overflows T _ _); [ reflexivity | ].
      destruct (ratio_underflows T _ _); [ reflexivity | ].
      replace (fsub T (fone T) S754_nan) with S754_nan
        by (destruct (fone_value T) as [m1 [-> _]]; reflexivity).
      reflexivity.
  - intros T lhs rhs eps Hv Hle. unfold feq.
    rewrite !(SFltb_abs_nonpos _ eps Hle).
    destruct (SFeqb lhs fzero); [ reflexivity | ].
    destruct (SFeqb rhs fzero); [ reflexivity | ].
    destruct (ratio_overflows T _ _); [ reflexivity | ].
    destruct (ratio_underflows T _ _); [ reflexivity | ].
    destruct (around_one_nonpos T eps Hv Hle) as [Hhi Hlo].
    destruct (SFltb (fdiv T lhs rhs) (fadd T (fone T) eps)) eqn:E2;
      [ | apply andb_false_r ].
    pose proof (SFltb_leb_trans _ _ _ E2 Hhi) as Hq1.
    pose proof (SFltb_leb_trans _ _ _ Hq1 Hlo) as HqA.
    rewrite (SFleb_not_ltb _ _ (SFltb_SFleb _ _ HqA)). reflexivity.
Qed.

Lemma feq_rejects_witness :
  feq Double S754_nan (fone Double) (default_eps Double) = false /\
  feq Float (fone Float) (fone Float) (SFopp (default_eps Float)) = false.
Proof.
  split.
  - apply (proj1 feq_rejects Double S754_nan (fone Double)
             (default_eps Double)).
    left. reflexivity.
  - apply (proj2 feq_rejects Float (fone Float) (fone Float)
             (SFopp (default_eps Float))); reflexivity.
Defined.

Section ProductOrder.

Variables prec emax : Z.
Hypothesis Hprec : 0 < prec.
Hypothesis Hemax : 3 <= emax + prec.

Variables (mc : positive) (ec : Z).
Hypothesis Hc : bounded prec emax mc ec = true.

Local Notation "'c'" := (S754_finite false mc ec).

(** The order of two positive values of the format, as integers at a
    common exponent. *)
Lemma SFleb_positive (mx my : positive) (ex ey g : Z) :
  bounded prec emax mx ex = true -> bounded prec emax my ey = true ->
  g <= ex -> g <= ey ->
  SFleb (S754_finite false mx ex) (S754_finite false my ey) = true ->
  Zpos mx * 2 ^ (ex - g) <= Zpos my * 2 ^ (ey - g).
Proof.
  intros Hx Hy Hgx Hgy Hle.
  apply (SFleb_aligned prec emax Hprec my mx ey ex g); assumption.
Qed.

(** Rounding the products of two ordered positive values by a positive
    constant keeps their order. *)
Lemma product_round_mono (mx my : positive) (ex ey : Z) :
  bounded prec emax mx ex = true -> bounded prec emax my ey = true ->
  SFleb (S754_finite false mx ex) (S754_finite false my ey) = true ->
  SFleb (binary_round prec emax false (mx * mc) (ex + ec))
        (binary_round prec emax false (my * mc) (ey + ec)) = true.
Proof.
  intros Hx Hy Hle.
  set (g := Z.min ex ey).
  pose proof (SFleb_positive mx my ex ey g Hx Hy ltac:(lia) ltac:(lia) Hle)
    as Hv.
  apply (binary_round_mono prec emax Hprec _ _ _ _ (g + ec));
    [ lia | lia | ].
  replace (ex + ec - (g + ec)) with (ex - g) by lia.
  replace (ey + ec - (g + ec)) with (ey - g) by lia.
  rewrite !Pos2Z.inj_mul.
  replace (Zpos mx * Zpos mc * 2 ^ (ex - g))
    with (Zpos mx * 2 ^ (ex - g) * Zpos mc) by ring.
  replace (Zpos my * Zpos mc * 2 ^ (ey - g))
    with (Zpos my * 2 ^ (ey - g) * Zpos mc) by ring.
  apply Z.mul_le_mono_nonneg_r; [ lia | assumption ].
Qed.

(** Multiplying by a positive constant of the format keeps the order of
    any two values of the format. *)
Lemma SFmul_mono (x y : spec_float) :
  valid_binary prec emax x = true -> valid_binary prec emax y = true ->
  SFleb x y = true ->
  SFleb (SFmul prec emax x c) (SFmul prec emax y c) = true.
Proof.
  intros Hx Hy Hle.
  assert (Pz : forall (s : bool) (D : positive) (ez : Z),
             SFleb (S754_zero s) (binary_round prec emax false D ez) = true).
  { intros s D ez.
    destruct (binary_round_cases prec emax Hprec false D ez)
      as [-> | [-> | [m3 [e3 [-> _]]]]]; reflexivity. }
  assert (Pi : forall (s : bool) (D : positive) (ez : Z),
             SFleb (binary_round prec emax s D ez)
                   (S754_infinity false) = true).
  { intros s D ez.
    destruct (binary_round_cases prec emax Hprec s D ez)
      as [-> | [-> | [m3 [e3 [-> _]]]]]; destruct s; reflexivity. }
  assert (Nz : forall (s : bool) (D : positive) (ez : Z),
             SFleb (binary_round prec emax true D ez) (S754_zero s) = true).
  { intros s D ez.
    destruct (binary_round_cases prec emax Hprec true D ez)
      as [-> | [-> | [m3 [e3 [-> _]]]]]; reflexivity. }
  assert (Ni : forall (s : bool) (D : positive) (ez : Z),
             SFleb (S754_infinity true)
                   (binary_round prec emax s D ez) = true).
  { intros s D ez.
    destruct (binary_round_cases prec emax Hprec s D ez)
      as [-> | [-> | [m3 [e3 [-> _]]]]]; destruct s; reflexivity. }
  assert (NP : forall (D D' : positive) (ez ez' : Z),
             SFleb (binary_round prec emax true D ez)
                   (binary_round prec emax false D' ez') = true).
  { intros D D' ez ez'.
    apply SFleb_trans with (S754_zero false); [ apply Nz | apply Pz ]. }
  destruct x as [ sx | [ | ] | | [ | ] mx ex ],
           y as [ sy | [ | ] | | [ | ] my ey ];
    try discriminate;
    cbn [valid_binary] in Hx, Hy;
    repeat rewrite (SFmul_as_round prec emax) by assumption;
    cbn [SFmul xorb];
    try reflexivity;
    try apply Pz; try apply Pi; try apply Nz; try apply Ni; try apply NP.
  - change true with (negb false).
    rewrite !(binary_round_opp prec emax), SFleb_opp.
    apply product_round_mono; try assumption.
    rewrite <- SFleb_opp. exact Hle.
  - apply product_round_mono; assumption.
Qed.

End ProductOrder.

(** The two conversion factors are positive values of the type. *)
Lemma conversion_factors (T : fp_type) :
  (exists (m : positive) (e : Z),
     fp_cast T (fdiv Double Pi (of_Z Double 180)) = S754_finite false m e /\
     bounded (fprec T) (femax T) m e = true) /\
  (exists (m : positive) (e : Z),
     fp_cast T (fdiv Double (of_Z Double 180) Pi) = S754_finite false m e /\
     bounded (fprec T) (femax T) m e = true).
Proof.
  destruct T; split; vm_compute; eexists; eexists; split; reflexivity.
Qed.

(** [deg_to_rad] and [rad_to_deg] keep the order of their arguments: for
    any two values of the type with [x <= y], infinities included, the
    converted values are in the same order, whatever the rounding of the
    products and even where they overflow or underflow. *)
Theorem conversions_monotone :
  forall (T : fp_type) (x y : spec_float),
    is_float T x = true -> is_float T y = true ->
    SFleb x y = true ->
    SFleb (deg_to_rad T x) (deg_to_rad T y) = true /\
    SFleb (rad_to_deg T x) (rad_to_deg T y) = true.
Proof.
  intros T x y Hx Hy Hle.
  pose proof (fprec_pos T) as Hp.
  assert (Hemax : 3 <= femax T + fprec T) by (destruct T; cbn; lia).
  destruct (conversion_factors T) as [[m1 [e1 [E1 B1]]] [m2 [e2 [E2 B2]]]].
  unfold deg_to_rad, rad_to_deg, fmul. rewrite E1, E2. split.
  - apply SFmul_mono; assumption.
  - apply SFmul_mono; assumption.
Qed.

Lemma conversions_monotone_witness :
  SFleb (deg_to_rad Float (SFopp (of_Z Float 90))) (deg_to_rad Float (of_Z Float 45))
  = true /\
  SFleb (rad_to_deg Float (SFopp (of_Z Float 90))) (rad_to_deg Float (of_Z Float 45))
  = true.
Proof.
  apply (conversions_monotone Float (SFopp (of_Z Float 90))
           (of_Z Float 45)); reflexivity.
Defined.

Section DifferenceBounds.

Variables prec emax : Z.
Hypothesis Hprec : 0 < prec.

(** The difference of two positive values is rounded between any two
    values of the format that enclose it. *)
Lemma SFsub_between (mx my mlo mhi : positive) (ex ey elo ehi g : Z) :
  bounded prec emax mlo elo = true -> bounded prec emax mhi ehi = true ->
  g <= ex -> g <= ey -> g <= elo -> g <= ehi ->
  Zpos mlo * 2 ^ (elo - g) + Zpos my * 2 ^ (ey - g)
  <= Zpos mx * 2 ^ (ex - g) ->
  Zpos mx * 2 ^ (ex - g) - Zpos my * 2 ^ (ey - g)
  <= Zpos mhi * 2 ^ (ehi - g) ->
  SFleb (S754_finite false mlo elo)
        (SFsub prec emax (S754_finite false mx ex) (S754_finite false my ey))
  = true /\
  SFleb (SFsub prec emax (S754_finite false mx ex) (S754_finite false my ey))
        (S754_finite false mhi ehi) = true.
Proof.
  intros Hlo Hhi Hgx Hgy Hglo Hghi Hl Hh.
  cbn [SFsub cond_Zopp].
  set (ez := Z.min ex ey).
  assert (Hez : g <= ez /\ ez <= ex /\ ez <= ey) by (subst ez; lia).
  clearbody ez.
  destruct (shl_align_spec mx ex ez ltac:(lia)) as [HA _].
  destruct (shl_align_spec my ey ez ltac:(lia)) as [HB _].
  set (A := Zpos (fst (shl_align mx ex ez))) in *.
  set (B := Zpos (fst (shl_align my ey ez))) in *.
  assert (HzA : A * 2 ^ (ez - g) = Zpos mx * 2 ^ (ex - g)).
  { rewrite HA, <- Z.mul_assoc, <- Z.pow_add_r by lia.
    do 2 f_equal. lia. }
  assert (HzB : B * 2 ^ (ez - g) = Zpos my * 2 ^ (ey - g)).
  { rewrite HB, <- Z.mul_assoc, <- Z.pow_add_r by lia.
    do 2 f_equal. lia. }
  clearbody A B. clear HA HB.
  assert (Hlp : 0 < Zpos mlo * 2 ^ (elo - g))
    by (apply Z.mul_pos_pos; [ lia | apply Z.pow_pos_nonneg; lia ]).
  assert (Hpz : 0 < 2 ^ (ez - g)) by (apply Z.pow_pos_nonneg; lia).
  destruct (A - B) as [ | D | D ] eqn:ED.
  - exfalso. assert (A = B) by lia. subst B. lia.
  - assert (HD : Zpos D * 2 ^ (ez - g)
                 = Zpos mx * 2 ^ (ex - g) - Zpos my * 2 ^ (ey - g)).
    { rewrite <- ED, Z.mul_sub_distr_r, HzA, HzB. reflexivity. }
    cbn [binary_normalize]. split.
    + apply (binary_round_ge_repr prec emax Hprec D ez mlo elo g);
        try assumption; lia.
    + apply (binary_round_le_repr prec emax Hprec D ez mhi ehi g);
        try assumption; lia.
  - exfalso.
    assert (A * 2 ^ (ez - g) < B * 2 ^ (ez - g))
      by (apply Z.mul_lt_mono_pos_r; lia).
    lia.
Qed.

End DifferenceBounds.

Section SmoothBody.

Variable T : fp_type.

Local Notation "'prec'" := (fprec T).
Local Notation "'emax'" := (femax T).

(** The constants 1, 2 and 3 of the type. *)
Lemma small_constants :
  exists m1 m2 m3 : positive,
    (fone T = S754_finite false m1 (1 - prec) /\
     Zpos m1 = 2 ^ (prec - 1) /\
     bounded prec emax m1 (1 - prec) = true) /\
    (of_Z T 2 = S754_finite false m2 (2 - prec) /\
     Zpos m2 = 2 ^ (prec - 1) /\
     bounded prec emax m2 (2 - prec) = true) /\
    (of_Z T 3 = S754_finite false m3 (2 - prec) /\
     Zpos m3 = 3 * 2 ^ (prec - 2) /\
     bounded prec emax m3 (2 - prec) = true).
Proof.
  destruct T.
  - exists 8388608%positive, 8388608%positive, 12582912%positive.
    repeat split.
  - exists 4503599627370496%positive, 4503599627370496%positive,
      6755399441055744%positive.
    repeat split.
Qed.

Lemma scaled_constants (m1 m2 m3 : positive) (g : Z) :
  Zpos m1 = 2 ^ (prec - 1) -> Zpos m2 = 2 ^ (prec - 1) ->
  Zpos m3 = 3 * 2 ^ (prec - 2) -> g <= 1 - prec ->
  Zpos m1 * 2 ^ (1 - prec - g) = 2 ^ (- g) /\
  Zpos m2 * 2 ^ (2 - prec - g) = 2 * 2 ^ (- g) /\
  Zpos m3 * 2 ^ (2 - prec - g) = 3 * 2 ^ (- g).
Proof.
  intros -> -> -> Hg.
  assert (Hp2 : 2 <= prec) by (destruct T; cbn; lia).
  split; [ | split ].
  - rewrite <- Z.pow_add_r by lia. f_equal. lia.
  - rewrite <- Z.pow_add_r by lia.
    replace (prec - 1 + (2 - prec - g)) with (Z.succ (- g)) by lia.
    rewrite Z.pow_succ_r by lia. reflexivity.
  - rewrite <- Z.mul_assoc, <- Z.pow_add_r by lia.
    do 2 f_equal. lia.
Qed.

(** The polynomial [y * y * (3 - y - y)] of [smoothstep] is not negative
    for a [y] of [[0, 1]]: [3 - y] is rounded into [[2, 3]] and
    [3 - y - y] into [[1, 3]]. *)
Lemma smooth_poly_nonneg (y : spec_float) :
  is_float T y = true ->
  SFleb fzero y = true -> SFleb y (fone T) = true ->
  SFleb fzero
    (fmul T (fmul T y y) (fsub T (fsub T (of_Z T 3) y) y)) = true.
Proof.
  intros Hv H0 H1.
  destruct small_constants
    as (m1 & m2 & m3 & (E1 & Hm1 & Hb1) & (E2 & Hm2 & Hb2)
        & (E3 & Hm3 & Hb3)).
  pose proof (fprec_pos T) as Hp.
  assert (Hemax : 3 <= emax + prec) by (destruct T; cbn; lia).
  rewrite E1 in H1. rewrite E3. unfold fmul, fsub.
  destruct y as [ s | [ | ] | | [ | ] my ey ]; try discriminate.
  - cbn [SFmul SFsub xorb]. destruct s; reflexivity.
  - cbn [is_float valid_binary] in Hv.
    set (g := Z.min ey (1 - prec)).
    pose proof (SFleb_positive prec emax Hp my m1 ey (1 - prec) g Hv Hb1
                  ltac:(lia) ltac:(lia) H1) as HY.
    destruct (scaled_constants m1 m2 m3 g Hm1 Hm2 Hm3 ltac:(lia))
      as [W1 [W2 W3]].
    assert (HYp : 0 < Zpos my * 2 ^ (ey - g))
      by (apply Z.mul_pos_pos; [ lia | apply Z.pow_pos_nonneg; lia ]).
    destruct (SFsub_between prec emax Hp m3 my m2 m3 (2 - prec) ey
                (2 - prec) (2 - prec) g Hb2 Hb3
                ltac:(lia) ltac:(lia) ltac:(lia) ltac:(lia)
                ltac:(lia) ltac:(lia)) as [Hz2 Hz3].
    pose proof (SFsub_valid prec emax Hp (S754_finite false m3 (2 - prec))
                  (S754_finite false my ey) Hb3 Hv) as Hvz.
    destruct (SFsub prec emax (S754_finite false m3 (2 - prec))
                (S754_finite false my ey))
      as [ sz | [ | ] | | [ | ] mz ez ];
      try (cbn in Hz2, Hz3; discriminate).
    cbn [valid_binary] in Hvz.
    clear W1 W2 W3 HY HYp. clearbody g.
    set (h := Z.min (Z.min ey ez) (1 - prec)).
    pose proof (SFleb_positive prec emax Hp my m1 ey (1 - prec) h Hv Hb1
                  ltac:(lia) ltac:(lia) H1) as HY.
    pose proof (SFleb_positive prec emax Hp m2 mz (2 - prec) ez h Hb2 Hvz
                  ltac:(lia) ltac:(lia) Hz2) as HZ2.
    pose proof (SFleb_positive prec emax Hp mz m3 ez (2 - prec) h Hvz Hb3
                  ltac:(lia) ltac:(lia) Hz3) as HZ3.
    destruct (scaled_constants m1 m2 m3 h Hm1 Hm2 Hm3 ltac:(lia))
      as [W1 [W2 W3]].
    assert (HYp : 0 < Zpos my * 2 ^ (ey - h))
      by (apply Z.mul_pos_pos; [ lia | apply Z.pow_pos_nonneg; lia ]).
    destruct (SFsub_between prec emax Hp mz my m1 m3 ez ey
                (1 - prec) (2 - prec) h Hb1 Hb3
                ltac:(lia) ltac:(lia) ltac:(lia) ltac:(lia)
                ltac:(lia) ltac:(lia)) as [Hw1 Hw3].
    pose proof (SFsub_valid prec emax Hp (S754_finite false mz ez)
                  (S754_finite false my ey) Hvz Hv) as Hvw.
    destruct (SFsub prec emax (S754_finite false mz ez)
                (S754_finite false my ey))
      as [ sw | [ | ] | | [ | ] mw ew ];
      try (cbn in Hw1, Hw3; discriminate).
    cbn [valid_binary] in Hvw.
    rewrite (SFmul_as_round prec emax Hp false false my my ey ey Hemax Hv Hv).
    cbn [xorb].
    destruct (binary_round_cases prec emax Hp false (my * my) (ey + ey))
      as [-> | [-> | [mu [eu [-> Hbu]]]]].
    + reflexivity.
    + reflexivity.
    + rewrite (SFmul_as_round prec emax Hp false false mu mw eu ew Hemax
                 Hbu Hvw).
      cbn [xorb]. apply binary_round_not_negative. assumption.
Qed.

End SmoothBody.

(** [smoothstep(a, b, x)] is never negative: for values [a < b] of the type
    whose difference does not overflow and any [x] that is not a NaN, the
    result is at least 0.  It is not bounded by 1, though: between [a = 0]
    and [b = 1] there is an [x] below 1 for which the three roundings of
    the polynomial give a result above 1. *)
Theorem smoothstep_range :
  (forall (T : fp_type) (a b x : spec_float),
     is_float T a = true -> is_float T b = true -> is_float T x = true ->
     SFltb a b = true -> is_nan x = false ->
     is_finite (fsub T b a) = true ->
     SFleb fzero (smoothstep T a b x) = true) /\
  (forall T : fp_type,
     exists x : spec_float,
       is_float T x = true /\
       SFltb fzero x = true /\ SFltb x (fone T) = true /\
       SFltb (fone T) (smoothstep T fzero (fone T) x) = true).
Proof.
  split.
  - intros T a b x Ha Hb Hx Hab Hnx Hfin. unfold smoothstep.
    destruct (SFleb x a) eqn:E1; [ reflexivity | ].
    destruct (SFleb b x) eqn:E2; [ destruct T; reflexivity | ].
    destruct (step_ratio_range T a b x Ha Hb Hx Hab Hnx Hfin E1 E2)
      as [[Hy0 Hy1] Hvy].
    cbv zeta. apply smooth_poly_nonneg; assumption.
  - intros [ | ].
    + exists (S754_finite false 16777213 (-24)). vm_compute. repeat split.
    + exists (S754_finite false 9007199254740989 (-53)). vm_compute.
      repeat split.
Qed.

Lemma smoothstep_range_witness :
  SFleb fzero
    (smoothstep Double (of_ratio Double 1 10) (of_ratio Double 7 10)
       (of_ratio Double 3 10)) = true.
Proof.
  apply (proj1 smoothstep_range Double (of_ratio Double 1 10)
           (of_ratio Double 7 10) (of_ratio Double 3 10));
    reflexivity.
Defined.
